(** * nevar-v6 utilities: RandomUtils, PermissionUtils, ValidationUtils and the
    bootstrap dispatch, embedded from the TypeScript sources.

    Conventions of the embedding.
    - A JavaScript string whose code units are all below 256 is a [string],
      one character per code unit; a string with any code units is a list
      of code units, [RegExp.utf16], where a function tells them apart.
    - An integer-valued JavaScript number is a [Z].
    - A value the library may leave [null] or [undefined] is an [option].
    - [Array.prototype.sort] is the algorithm of the engine of Node.js,
      [ArraySort].
    - [Math.random()] is an oracle: the [i]-th call returns [draws i], a
      rational in the half-open interval from 0 to 1.  Functions that call it
      take the index of the next draw and return the index after their last
      call.  In [RandomUtils] products and sums with a draw are exact
      rationals, followed by [Qfloor] for [Math.floor].  [Binary64] evaluates
      the same expressions in the arithmetic of the engine, IEEE 754
      binary64, where a sum or product is rounded.
    - Code that may throw returns a [JS.completion]; a promise is given by
      the way it settles. *)

From Stdlib Require Import ZArith QArith Qround Ascii String List Lia Floats.
From stdpp Require Import gmap strings list.

Local Open Scope Z_scope.

(** ** Numbers to text: [Number.prototype.toString(16)] *)

Module Radix16.

(** The digit of value [d], for [0 <= d < 16]; lower case, as the engine prints. *)
Definition hex_digit (d : Z) : ascii :=
  if d <? 10 then ascii_of_nat (Z.to_nat (48 + d))
  else ascii_of_nat (Z.to_nat (87 + d)).

(** Most significant digit first; [fuel] bounds the number of digits. *)
Fixpoint hex_digits (fuel : nat) (n : Z) (acc : string) : string :=
  match fuel with
  | O => acc
  | S f =>
      if n <? 16 then String (hex_digit n) acc
      else hex_digits f (n / 16) (String (hex_digit (n mod 16)) acc)
  end.

(** [n.toString(16)] for an integer [n]. *)
Definition toString16 (n : Z) : string :=
  if n <? 0
  then String "-" (hex_digits (S (Z.to_nat (Z.log2 (- n)))) (- n) EmptyString)
  else hex_digits (S (Z.to_nat (Z.log2 n))) n EmptyString.

(** The value of a hexadecimal digit character (lower case), if it is one. *)
Definition hex_value (c : ascii) : option Z :=
  let k := Z.of_nat (nat_of_ascii c) in
  if (48 <=? k) && (k <=? 57) then Some (k - 48)
  else if (97 <=? k) && (k <=? 102) then Some (k - 87)
  else None.

Definition is_lower_hex (c : ascii) : bool :=
  match hex_value c with Some _ => true | None => false end.

(** Reading a digit string back, most significant digit first. *)
Fixpoint parse_hex (acc : Z) (s : string) : option Z :=
  match s with
  | EmptyString => Some acc
  | String c s' =>
      match hex_value c with
      | Some d => parse_hex (16 * acc + d) s'
      | None => None
      end
  end.

Fixpoint all_chars (p : ascii -> bool) (s : string) : bool :=
  match s with
  | EmptyString => true
  | String c s' => p c && all_chars p s'
  end.

End Radix16.

(** ** JavaScript control flow and objects *)

Module JS.

(** What a [throw] or a rejected promise carries. *)
Inductive error : Type :=
| TypeError
| RangeError
| Rejection.

(** The outcome of evaluating a piece of code: a value, or a throw. *)
Inductive completion (A : Type) : Type :=
| Normal (a : A)
| Throw (e : error).
Arguments Normal {A} a.
Arguments Throw {A} e.

Definition bind {A B} (c : completion A) (k : A -> completion B) : completion B :=
  match c with
  | Normal a => k a
  | Throw e => Throw e
  end.

(** [try { body } catch (error) { handler }]. *)
Definition try_catch {A} (body : completion A) (handler : error -> completion A)
  : completion A :=
  match body with
  | Normal a => Normal a
  | Throw e => handler e
  end.

(** A promise, by the way it settles. *)
Inductive promise (A : Type) : Type :=
| Fulfilled (a : A)
| Rejected (reason : error).
Arguments Fulfilled {A} a.
Arguments Rejected {A} reason.

(** [await p]: the value of a fulfilled promise; a rejection is thrown. *)
Definition await {A} (p : promise A) : completion A :=
  match p with
  | Fulfilled a => Normal a
  | Rejected e => Throw e
  end.

(** [p.catch((): void => {})]: a rejection becomes [undefined] ([None]). *)
Definition catch_void {A} (p : promise A) : promise (option A) :=
  match p with
  | Fulfilled a => Fulfilled (Some a)
  | Rejected _ => Fulfilled None
  end.

(** The properties every object created by an object literal inherits from
    [Object.prototype]. *)
Definition object_prototype_properties : list string :=
  [ "constructor"; "__defineGetter__"; "__defineSetter__"; "hasOwnProperty";
    "__lookupGetter__"; "__lookupSetter__"; "isPrototypeOf";
    "propertyIsEnumerable"; "toString"; "valueOf"; "__proto__";
    "toLocaleString" ]%string.

(** The result of reading [object[key]]: the object's own property, else a
    member of [Object.prototype], else [undefined]. *)
Inductive property (A : Type) : Type :=
| Own (a : A)
| Inherited (name : string)
| Undefined.
Arguments Own {A} a.
Arguments Inherited {A} name.
Arguments Undefined {A}.

Definition get {A} (own : gmap string A) (key : string) : property A :=
  match own !! key with
  | Some a => Own a
  | None =>
      if bool_decide (key ∈ object_prototype_properties)
      then Inherited key
      else Undefined
  end.

(** Calling an inherited member with no argument: [__proto__] is an object,
    not a function, and [__defineGetter__] and [__defineSetter__] reject a
    missing accessor; the other members return. *)
Definition call_inherited (name : string) : completion unit :=
  if bool_decide (name ∈ ["__proto__"; "__defineGetter__"; "__defineSetter__"]%string)
  then Throw TypeError
  else Normal tt.

End JS.

(** ** The engine's [Array.prototype.sort]

    The language leaves the sequence of comparator calls, and the order
    that results when the comparator is not consistent, to the engine.  The
    engine of Node.js is V8, which sorts with TimSort: runs are detected,
    short runs are extended by binary insertion, and runs are merged, with
    galloping, as a stack of pending runs requires.  The functions below
    follow that algorithm on the elements of an index range, held as a
    list; a comparator call takes the state the comparator works on and
    returns it changed.  Sparse arrays are not modelled. *)

Module ArraySort.

Section Loop.

Context {State Result : Type}.

(** One iteration of a loop: the next state, or the result of leaving the
    loop; [None] when the iteration has no defined step. *)
Variable body : State -> option (State + Result).

(** The loop, for at most [fuel] iterations. *)
Fixpoint loop (fuel : nat) (s : State) : option Result :=
  match fuel with
  | O => None
  | S fuel' =>
      match body s with
      | Some (inl s') => loop fuel' s'
      | Some (inr r) => Some r
      | None => None
      end
  end.

End Loop.

(** How a merge loop goes on: one pair at a time, counting the wins in a
    row of either run, or galloping. *)
Inductive merge_mode : Type :=
| Pairs (nofWinsA nofWinsB : nat)
| Galloping.

Section TimSort.

(** The elements, and the state the comparator reads and changes. *)
Variable V : Type.
Variable St : Type.

(** [comparefn(x, y)]: the number returned. *)
Variable comparefn : V -> V -> St -> Q * St.

(** Whether [comparefn(x, y)] is negative, the one test the algorithm
    makes on an order. *)
Definition Compare (x y : V) (s : St) : bool * St :=
  let '(order, s') := comparefn x y s in (negb (Qle_bool 0 order), s').

Definition kMinGallopWins : nat := 7.

(** The least length a run is extended to: the six leading bits of [n],
    plus one when a lower bit is set. *)
Definition ComputeMinRunLength_body (t : nat * nat) : option (nat * nat + nat) :=
  let '(n, r) := t in
  if (64 <=? n)%nat
  then Some (inl ((n / 2)%nat, Nat.lor r (Nat.land n 1)))
  else Some (inr (n + r)%nat).

Definition ComputeMinRunLength (n : nat) : option nat :=
  loop ComputeMinRunLength_body (S n) (n, 0%nat).

(** The elements after the second that continue the run: each is compared
    with the one before it. *)
Fixpoint run_extension (descending : bool) (previous : V) (rest : list V) (s : St)
  : nat * St :=
  match rest with
  | [] => (0%nat, s)
  | current :: rest' =>
      let '(negative, s') := Compare current previous s in
      if Bool.eqb negative descending
      then let '(n, s'') := run_extension descending current rest' s' in (S n, s'')
      else (0%nat, s')
  end.

(** The run at the start of a range: its length, and the range with a
    strictly descending run reversed. *)
Definition CountAndMakeRun (range : list V) (s : St) : nat * list V * St :=
  match range with
  | first :: second :: rest =>
      let '(descending, s') := Compare second first s in
      let '(n, s'') := run_extension descending second rest s' in
      let runLength := (2 + n)%nat in
      (runLength,
       if descending then rev (take runLength range) ++ drop runLength range else range,
       s'')
  | _ => (length range, range, s)
  end.

(** The comparison of the element at [index] of [l] with [key], in the
    argument order of the caller. *)
Definition compare_at (element_first : bool) (key : V) (l : list V) (index : nat) (s : St)
  : option (bool * St) :=
  x ← l !! index;
  Some (if element_first then Compare x key s else Compare key x s).

(** The binary search that ends [GallopLeft] ([element_first]) and
    [GallopRight], and places the pivot of [BinaryInsertionSort]. *)
Definition bisect_body (element_first : bool) (key : V) (l : list V)
    (t : nat * nat * St) : option (nat * nat * St + nat * nat * St) :=
  let '(lo, hi, s) := t in
  if (lo <? hi)%nat then
    let m := (lo + (hi - lo) / 2)%nat in
    '(negative, s') ← compare_at element_first key l m s;
    Some (inl (if Bool.eqb negative element_first then (S m, hi, s') else (lo, m, s')))
  else Some (inr (lo, hi, s)).

Definition bisect (element_first : bool) (key : V) (l : list V) (lo hi : nat) (s : St)
  : option (nat * nat * St) :=
  loop (bisect_body element_first key l) (S (hi - lo)) (lo, hi, s).

(** The elements of [todo] are placed, one after the other, in the sorted
    [run] in front of them. *)
Fixpoint BinaryInsertionSort (run todo : list V) (s : St) : option (list V * St) :=
  match todo with
  | [] => Some (run, s)
  | pivot :: todo' =>
      '(position, _, s') ← bisect false pivot run 0 (length run) s;
      BinaryInsertionSort (take position run ++ pivot :: drop position run) todo' s'
  end.

(** The first loop of a gallop: the offset from the hint is doubled (plus
    one) while the comparison says to go on. *)
Definition gallop_body (element_first continue_if_negative : bool) (key : V) (l : list V)
    (index_of : nat -> nat) (maxOfs : nat) (t : nat * nat * St)
  : option (nat * nat * St + nat * nat * St) :=
  let '(lastOfs, offset, s) := t in
  if (offset <? maxOfs)%nat then
    '(negative, s') ← compare_at element_first key l (index_of offset) s;
    Some (if Bool.eqb negative continue_if_negative
          then inl (offset, (2 * offset + 1)%nat, s')
          else inr (lastOfs, offset, s'))
  else Some (inr (lastOfs, offset, s)).

Definition gallop (element_first continue_if_negative : bool) (key : V) (l : list V)
    (index_of : nat -> nat) (maxOfs : nat) (s : St) : option (nat * nat * St) :=
  '(lastOfs, offset, s') ←
    loop (gallop_body element_first continue_if_negative key l index_of maxOfs)
         (S maxOfs) (0%nat, 1%nat, s);
  Some (lastOfs, Nat.min offset maxOfs, s').

(** [GallopLeft(array, key, base, length, hint)] on the range [l]: the
    offset at which [key] belongs, left of elements equal to it. *)
Definition GallopLeft (key : V) (l : list V) (hint : nat) (s : St) : option (nat * St) :=
  '(negative, s1) ← compare_at true key l hint s;
  '(lo, hi, s2) ←
    (if negative : bool
     then
       '(lastOfs, offset, s2) ←
         gallop true true key l (fun o => (hint + o)%nat) (length l - hint) s1;
       Some (S (lastOfs + hint), (offset + hint)%nat, s2)
     else
       '(lastOfs, offset, s2) ←
         gallop true false key l (fun o => (hint - o)%nat) (S hint) s1;
       Some ((S hint - offset)%nat, (hint - lastOfs)%nat, s2));
  '(_, offset, s3) ← bisect true key l lo hi s2;
  Some (offset, s3).

(** [GallopRight]: the same, right of elements equal to [key]. *)
Definition GallopRight (key : V) (l : list V) (hint : nat) (s : St) : option (nat * St) :=
  '(negative, s1) ← compare_at false key l hint s;
  '(lo, hi, s2) ←
    (if negative : bool
     then
       '(lastOfs, offset, s2) ←
         gallop false true key l (fun o => (hint - o)%nat) (S hint) s1;
       Some ((S hint - offset)%nat, (hint - lastOfs)%nat, s2)
     else
       '(lastOfs, offset, s2) ←
         gallop false false key l (fun o => (hint + o)%nat) (length l - hint) s1;
       Some (S (lastOfs + hint), (offset + hint)%nat, s2));
  '(_, offset, s3) ← bisect false key l lo hi s2;
  Some (offset, s3).

(** The state of a merge: the elements already placed (for [MergeLow]
    last one first, for [MergeHigh] in order), what is left of the two
    runs (for [MergeHigh] last element first), the mode, [minGallop] and
    the comparator's state. *)
Record merge_state : Type :=
  MergeState {
    placed : list V;
    runA : list V;
    runB : list V;
    mode : merge_mode;
    minGallop : nat;
    comparator : St
  }.

(** What a merge returns: the merged range, [sortState.minGallop] and the
    comparator's state. *)
Definition merged : Type := list V * nat * St.

(** After a step of [MergeLow] in one-pair mode. *)
Definition MergeLow_pairs_body (t : merge_state) (nofWinsA nofWinsB : nat)
  : option (merge_state + merged) :=
  match runA t, runB t with
  | a :: restA, b :: restB =>
      let '(negative, s) := Compare b a (comparator t) in
      if negative : bool then
        let out := b :: placed t in
        if (length restB =? 0)%nat
        then Some (inr (rev out ++ runA t, minGallop t, s))
        else if (minGallop t <=? S nofWinsB)%nat
        then Some (inl (MergeState out (runA t) restB Galloping (S (minGallop t)) s))
        else Some (inl (MergeState out (runA t) restB (Pairs 0 (S nofWinsB)) (minGallop t) s))
      else
        let out := a :: placed t in
        if (length restA =? 1)%nat
        then Some (inr (rev out ++ runB t ++ restA, minGallop t, s))
        else if (minGallop t <=? S nofWinsA)%nat
        then Some (inl (MergeState out restA (runB t) Galloping (S (minGallop t)) s))
        else Some (inl (MergeState out restA (runB t) (Pairs (S nofWinsA) 0) (minGallop t) s))
  | _, _ => None
  end.

(** One round of [MergeLow] in galloping mode. *)
Definition MergeLow_gallop_body (t : merge_state) : option (merge_state + merged) :=
  let minGallop1 := Nat.max 1 (minGallop t - 1) in
  b ← head (runB t);
  '(nofWinsA, s1) ← GallopRight b (runA t) 0 (comparator t);
  let out1 := rev (take nofWinsA (runA t)) ++ placed t in
  let restA := drop nofWinsA (runA t) in
  if (0 <? nofWinsA)%nat && (length restA =? 1)%nat
  then Some (inr (rev out1 ++ runB t ++ restA, minGallop1, s1))
  else if (0 <? nofWinsA)%nat && (length restA =? 0)%nat
  then Some (inr (rev out1 ++ runB t, minGallop1, s1))
  else
    let out2 := b :: out1 in
    let restB := tail (runB t) in
    if (length restB =? 0)%nat
    then Some (inr (rev out2 ++ restA, minGallop1, s1))
    else
      a ← head restA;
      '(nofWinsB, s2) ← GallopLeft a restB 0 s1;
      let out3 := rev (take nofWinsB restB) ++ out2 in
      let restB' := drop nofWinsB restB in
      if (0 <? nofWinsB)%nat && (length restB' =? 0)%nat
      then Some (inr (rev out3 ++ restA, minGallop1, s2))
      else
        let out4 := a :: out3 in
        let restA' := tail restA in
        if (length restA' =? 1)%nat
        then Some (inr (rev out4 ++ restB' ++ restA', minGallop1, s2))
        else if (kMinGallopWins <=? nofWinsA)%nat || (kMinGallopWins <=? nofWinsB)%nat
        then Some (inl (MergeState out4 restA' restB' Galloping minGallop1 s2))
        else Some (inl (MergeState out4 restA' restB' (Pairs 0 0) (S minGallop1) s2)).

Definition MergeLow_body (t : merge_state) : option (merge_state + merged) :=
  match mode t with
  | Pairs nofWinsA nofWinsB => MergeLow_pairs_body t nofWinsA nofWinsB
  | Galloping => MergeLow_gallop_body t
  end.

(** [MergeLow]: run A is copied aside and the runs are merged from the
    left. *)
Definition MergeLow (A B : list V) (minGallop : nat) (s : St) : option merged :=
  match B with
  | b :: restB =>
      if (length restB =? 0)%nat then Some (b :: A, minGallop, s)
      else if (length A =? 1)%nat then Some (b :: restB ++ A, minGallop, s)
      else loop MergeLow_body (S (length A + length restB))
             (MergeState [b] A restB (Pairs 0 0) minGallop s)
  | [] => None
  end.

(** After a step of [MergeHigh] in one-pair mode; the runs are held last
    element first. *)
Definition MergeHigh_pairs_body (t : merge_state) (nofWinsA nofWinsB : nat)
  : option (merge_state + merged) :=
  match runA t, runB t with
  | a :: restA, b :: restB =>
      let '(negative, s) := Compare b a (comparator t) in
      if negative : bool then
        let out := a :: placed t in
        if (length restA =? 0)%nat
        then Some (inr (rev (runB t) ++ out, minGallop t, s))
        else if (minGallop t <=? S nofWinsA)%nat
        then Some (inl (MergeState out restA (runB t) Galloping (S (minGallop t)) s))
        else Some (inl (MergeState out restA (runB t) (Pairs (S nofWinsA) 0) (minGallop t) s))
      else
        let out := b :: placed t in
        if (length restB =? 1)%nat
        then Some (inr (restB ++ rev (runA t) ++ out, minGallop t, s))
        else if (minGallop t <=? S nofWinsB)%nat
        then Some (inl (MergeState out (runA t) restB Galloping (S (minGallop t)) s))
        else Some (inl (MergeState out (runA t) restB (Pairs 0 (S nofWinsB)) (minGallop t) s))
  | _, _ => None
  end.

(** One round of [MergeHigh] in galloping mode. *)
Definition MergeHigh_gallop_body (t : merge_state) : option (merge_state + merged) :=
  let minGallop1 := Nat.max 1 (minGallop t - 1) in
  b ← head (runB t);
  '(k, s1) ← GallopRight b (rev (runA t)) (length (runA t) - 1) (comparator t);
  let nofWinsA := (length (runA t) - k)%nat in
  let out1 := rev (take nofWinsA (runA t)) ++ placed t in
  let restA := drop nofWinsA (runA t) in
  if (0 <? nofWinsA)%nat && (length restA =? 0)%nat
  then Some (inr (rev (runB t) ++ out1, minGallop1, s1))
  else
    let out2 := b :: out1 in
    let restB := tail (runB t) in
    if (length restB =? 1)%nat
    then Some (inr (restB ++ rev restA ++ out2, minGallop1, s1))
    else
      a ← head restA;
      '(k', s2) ← GallopLeft a (rev restB) (length restB - 1) s1;
      let nofWinsB := (length restB - k')%nat in
      let out3 := rev (take nofWinsB restB) ++ out2 in
      let restB' := drop nofWinsB restB in
      if (0 <? nofWinsB)%nat && (length restB' =? 1)%nat
      then Some (inr (restB' ++ rev restA ++ out3, minGallop1, s2))
      else if (0 <? nofWinsB)%nat && (length restB' =? 0)%nat
      then Some (inr (rev restA ++ out3, minGallop1, s2))
      else
        let out4 := a :: out3 in
        let restA' := tail restA in
        if (length restA' =? 0)%nat
        then Some (inr (rev restB' ++ out4, minGallop1, s2))
        else if (kMinGallopWins <=? nofWinsA)%nat || (kMinGallopWins <=? nofWinsB)%nat
        then Some (inl (MergeState out4 restA' restB' Galloping minGallop1 s2))
        else Some (inl (MergeState out4 restA' restB' (Pairs 0 0) (S minGallop1) s2)).

Definition MergeHigh_body (t : merge_state) : option (merge_state + merged) :=
  match mode t with
  | Pairs nofWinsA nofWinsB => MergeHigh_pairs_body t nofWinsA nofWinsB
  | Galloping => MergeHigh_gallop_body t
  end.

(** [MergeHigh]: run B is copied aside and the runs are merged from the
    right. *)
Definition MergeHigh (A B : list V) (minGallop : nat) (s : St) : option merged :=
  match rev A with
  | a :: restA =>
      if (length restA =? 0)%nat then Some (B ++ [a], minGallop, s)
      else if (length B =? 1)%nat then Some (B ++ rev restA ++ [a], minGallop, s)
      else loop MergeHigh_body (S (length restA + length B))
             (MergeState [a] restA (rev B) (Pairs 0 0) minGallop s)
  | [] => None
  end.

(** [MergeAt]: two neighbouring runs, A in front of B, become one.  The
    elements of A that belong before B's first and the elements of B that
    belong after A's last stay where they are. *)
Definition MergeAt (A B : list V) (minGallop : nat) (s : St) : option merged :=
  keyRight ← head B;
  '(k, s1) ← GallopRight keyRight A 0 s;
  let A' := drop k A in
  if (length A' =? 0)%nat then Some (A ++ B, minGallop, s1)
  else
    keyLeft ← last A';
    '(lengthB, s2) ← GallopLeft keyLeft B (length B - 1) s1;
    if (lengthB =? 0)%nat then Some (A ++ B, minGallop, s2)
    else
      '(middle, minGallop', s3) ←
        (if (length A' <=? lengthB)%nat
         then MergeLow A' (take lengthB B) minGallop s2
         else MergeHigh A' (take lengthB B) minGallop s2);
      Some (take k A ++ middle ++ drop lengthB B, minGallop', s3).

(** The stack of pending runs, the latest run first, with [minGallop] and
    the comparator's state. *)
Definition pending : Type := list (list V) * nat * St.

(** Merging the two latest runs, or the two below the latest. *)
Definition merge_latest (t : pending) : option pending :=
  match t with
  | (run0 :: run1 :: below, minGallop, s) =>
      '(run, minGallop', s') ← MergeAt run1 run0 minGallop s;
      Some (run :: below, minGallop', s')
  | _ => None
  end.

Definition merge_below_latest (t : pending) : option pending :=
  match t with
  | (run0 :: run1 :: run2 :: below, minGallop, s) =>
      '(run, minGallop', s') ← MergeAt run2 run1 minGallop s;
      Some (run0 :: run :: below, minGallop', s')
  | _ => None
  end.

(** [MergeCollapse]: runs are merged until, from the latest run down, each
    run is longer than the two above it together and than the one above it. *)
Definition MergeCollapse_body (t : pending) : option (pending + pending) :=
  match t.1.1 with
  | run0 :: run1 :: below =>
      let invariant_broken :=
        match below with
        | run2 :: below' =>
            (length run2 <=? length run1 + length run0)%nat
            || match below' with
               | run3 :: _ => (length run3 <=? length run2 + length run1)%nat
               | [] => false
               end
        | [] => false
        end in
      if invariant_broken then
        match below with
        | run2 :: _ =>
            if (length run2 <? length run0)%nat
            then inl <$> merge_below_latest t
            else inl <$> merge_latest t
        | [] => None
        end
      else if (length run1 <=? length run0)%nat
      then inl <$> merge_latest t
      else Some (inr t)
  | _ => Some (inr t)
  end.

Definition MergeCollapse (t : pending) : option pending :=
  loop MergeCollapse_body (S (length t.1.1)) t.

(** [MergeForceCollapse]: runs are merged until one is left. *)
Definition MergeForceCollapse_body (t : pending) : option (pending + pending) :=
  match t.1.1 with
  | run0 :: run1 :: below =>
      match below with
      | run2 :: _ =>
          if (length run2 <? length run0)%nat
          then inl <$> merge_below_latest t
          else inl <$> merge_latest t
      | [] => inl <$> merge_latest t
      end
  | _ => Some (inr t)
  end.

Definition MergeForceCollapse (t : pending) : option pending :=
  loop MergeForceCollapse_body (S (length t.1.1)) t.

(** The loop of [ArrayTimSortImpl]: the next run of the remaining range is
    found, extended to the least run length when shorter, and pushed. *)
Definition ArrayTimSortImpl_body (minRunLength : nat) (t : pending * list V)
  : option (pending * list V + pending) :=
  let '(runs, minGallop, s, remaining) := t in
  if (length remaining =? 0)%nat then Some (inr (runs, minGallop, s))
  else
    let '(currentRunLength, range, s1) := CountAndMakeRun remaining s in
    '(currentRunLength, range, s2) ←
      (if (currentRunLength <? minRunLength)%nat
       then
         let forcedRunLength := Nat.min minRunLength (length remaining) in
         '(run, s2) ←
           BinaryInsertionSort (take currentRunLength range)
             (take (forcedRunLength - currentRunLength) (drop currentRunLength range)) s1;
         Some (forcedRunLength, run ++ drop forcedRunLength range, s2)
       else Some (currentRunLength, range, s1));
    '(runs', minGallop', s3) ←
      MergeCollapse (take currentRunLength range :: runs, minGallop, s2);
    Some (inl (runs', minGallop', s3, drop currentRunLength range)).

(** [ArrayTimSortImpl] on the elements to sort. *)
Definition ArrayTimSortImpl (l : list V) (s : St) : option (list V * St) :=
  if (length l <? 2)%nat then Some (l, s)
  else
    minRunLength ← ComputeMinRunLength (length l);
    t ← loop (ArrayTimSortImpl_body minRunLength) (S (length l))
          ([], kMinGallopWins, s, l);
    '(runs, _, s') ← MergeForceCollapse t;
    Some (concat (rev runs), s').

(** Whether an element is [undefined]. *)
Variable is_undefined : V -> bool.

(** [Array.prototype.sort(comparefn)] on the elements of an array: the
    elements other than [undefined] are sorted, the comparator is never
    given [undefined], and the [undefined] elements follow. *)
Definition sort (l : list V) (s : St) : option (list V * St) :=
  '(sorted, s') ← ArrayTimSortImpl (List.filter (fun x => negb (is_undefined x)) l) s;
  Some (sorted ++ List.filter is_undefined l, s').

End TimSort.

End ArraySort.

(** ** RandomUtils *)

Module RandomUtils.
Import Radix16.

(** [const characters] of [randomString]. *)
Definition characters : string :=
  "ABCDEFGHIJKLMNOPQRSTUVWXYZabcdefghijklmnopqrstuvwxyz0123456789".

(** [Array.prototype.join('')] over elements that are a character or
    [undefined]: an [undefined] element contributes the empty string. *)
Fixpoint join (xs : list (option ascii)) : string :=
  match xs with
  | [] => EmptyString
  | Some c :: xs' => String c (join xs')
  | None :: xs' => join xs'
  end.

(** 'A'-'Z', 'a'-'z', '0'-'9'. *)
Definition is_alnum (c : ascii) : bool :=
  let k := Z.of_nat (nat_of_ascii c) in
  ((65 <=? k) && (k <=? 90)) || ((97 <=? k) && (k <=? 122))
  || ((48 <=? k) && (k <=? 57)).

Section Oracle.

(** The values successive calls of [Math.random()] return. *)
Variable draws : nat -> Q.

(** [Math.floor(Math.random() * k)] at draw [i]. *)
Definition floor_scaled (i : nat) (k : Z) : Z :=
  Qfloor (draws i * inject_Z k).

(** The mapper of [randomString]:
    [characters[Math.floor(Math.random() * characters.length)]];
    indexing outside the string gives [undefined]. *)
Definition pick_character (i : nat) : option ascii :=
  let idx := floor_scaled i (Z.of_nat (String.length characters)) in
  if idx <? 0 then None else String.get (Z.to_nat idx) characters.

(** [Array.from({ length: n }, mapper)]: the mapper is called once per index,
    in order. *)
Fixpoint array_from (n : nat) (i : nat) : list (option ascii) * nat :=
  match n with
  | O => ([], i)
  | S n' =>
      let c := pick_character i in
      let '(rest, j) := array_from n' (S i) in
      (c :: rest, j)
  end.

(** [randomString(length)].  [Array.from] takes [ToLength(length)], which
    clamps a negative length to 0 (that is [Z.to_nat]), and creates the
    array before the mapper is called: a length of 2^32 or more is not an
    array length and is refused with a [RangeError].  The limits an engine
    sets on the memory of an array or of a string are not modelled. *)
Definition randomString (length : Z) (i : nat) : JS.completion string * nat :=
  if 4294967296 <=? length then (JS.Throw JS.RangeError, i)
  else
    let '(arr, j) := array_from (Z.to_nat length) i in
    (JS.Normal (join arr), j).

(** [randomColor()]: the recursion runs until a draw gives six digits;
    [fuel] bounds the number of attempts. *)
Fixpoint randomColor (fuel : nat) (i : nat) : option (string * nat) :=
  match fuel with
  | O => None
  | S f =>
      let randomColor_ := String "#" (toString16 (floor_scaled i 16777215)) in
      if Nat.eqb (String.length randomColor_) 7
      then Some (randomColor_, S i)
      else randomColor f (S i)
  end.

(** [randomNumber(min, max)]:
    [Math.floor(Math.random() * (max - min + 1) + min)]. *)
Definition randomNumber (min max : Z) (i : nat) : Z * nat :=
  (Qfloor (draws i * inject_Z (max - min + 1) + inject_Z min), S i).

(** [randomChoice(choices)]:
    [choices[Math.floor(Math.random() * choices.length)]]; reading an index
    the array does not have gives [undefined] ([None]). *)
Definition randomChoice {T : Type} (choices : list T) (i : nat) : option T * nat :=
  let idx := floor_scaled i (Z.of_nat (length choices)) in
  (if idx <? 0 then None else choices !! Z.to_nat idx, S i).

(** *** [shuffleArray]: [array.sort(() => Math.random() - 0.5)]

    Arrays are objects: a value of array type is a reference into a store,
    and [Array.prototype.sort] reorders the referenced array in place and
    returns the reference it was called on.  The comparator does not look
    at the elements: the order that results is the one the engine's
    algorithm arrives at, [ArraySort.sort].  Only the sign of
    [Math.random() - 0.5] is used, and it is the same in binary64 as in
    exact arithmetic. *)

Section Shuffle.

(** The element type ([any]), and which elements are [undefined]. *)
Variable V : Type.
Variable is_undefined : V -> bool.

(** The comparator: its arguments are ignored, one draw is consumed. *)
Definition comparefn (x y : V) (i : nat) : Q * nat := ((draws i - (1 # 2))%Q, S i).

(** [array.sort(comparefn)] on the store: the sorted elements are written
    back to the same object and its reference is returned.  [None] stands
    for a reference to nothing, which no JavaScript value is. *)
Definition Array_sort (h : gmap nat (list V)) (array : nat) (i : nat)
  : option (nat * gmap nat (list V) * nat) :=
  match h !! array with
  | Some xs =>
      match ArraySort.sort V nat comparefn is_undefined xs i with
      | Some (ys, j) => Some (array, <[array := ys]> h, j)
      | None => None
      end
  | None => None
  end.

Definition shuffleArray (h : gmap nat (list V)) (array : nat) (i : nat)
  : option (nat * gmap nat (list V) * nat) :=
  Array_sort h array i.

End Shuffle.

End Oracle.

Arguments comparefn draws {V} x y i.
Arguments Array_sort draws {V} is_undefined h array i.
Arguments shuffleArray draws {V} is_undefined h array i.

End RandomUtils.

(** ** The binary64 evaluation of [randomNumber]

    JavaScript numbers are IEEE 754 binary64 values; the kernel's primitive
    floats are the same format with the same rounding (to nearest, ties to
    even), so the expression of [randomNumber] can be evaluated as the
    engine evaluates it. *)

Module Binary64.

(** An integer as a number (exact below 2^53 in magnitude). *)
Definition Number_of_Z (z : Z) : float :=
  if z <? 0 then (- PrimFloat.of_uint63 (Uint63.of_Z (- z)))%float
  else PrimFloat.of_uint63 (Uint63.of_Z z).

(** [Math.floor] of a finite number, as an integer; [None] for NaN and the
    infinities.  A finite number is [m * 2^e] with a sign; shifting the
    signed mantissa by [e] (to the right when [e] is negative) is the floor. *)
Definition Math_floor (x : float) : option Z :=
  match Prim2SF x with
  | S754_zero _ => Some 0
  | S754_finite s m e => Some (Z.shiftl (if s then Z.neg m else Z.pos m) e)
  | _ => None
  end.

(** A value [Math.random()] may return: a number [r] with [0 <= r < 1]. *)
Definition is_draw (r : float) : bool :=
  (PrimFloat.leb 0 r && PrimFloat.ltb r 1)%bool.

(** [Math.floor(Math.random() * (max - min + 1) + min)] where the call of
    [Math.random()] returns [r]. *)
Definition randomNumber (r : float) (min max : Z) : option Z :=
  Math_floor (r * (Number_of_Z max - Number_of_Z min + 1) + Number_of_Z min)%float.

(** [Math.floor(Math.random() * k)], the index of [randomString] and the
    colour value of [randomColor]. *)
Definition floor_scaled (r : float) (k : Z) : option Z :=
  Math_floor (r * Number_of_Z k)%float.

(** [randomColor()] where the calls of [Math.random()] return [draws 0],
    [draws 1], ...: the recursion runs until the text has seven
    characters; [fuel] bounds the number of attempts.  A product that is
    not finite is printed as a word, which has another length. *)
Fixpoint randomColor (draws : nat -> float) (fuel : nat) (i : nat)
  : option (string * nat) :=
  match fuel with
  | O => None
  | S f =>
      match floor_scaled (draws i) 16777215 with
      | Some n =>
          let randomColor_ := String "#" (Radix16.toString16 n) in
          if Nat.eqb (String.length randomColor_) 7
          then Some (randomColor_, S i)
          else randomColor draws f (S i)
      | None => randomColor draws f (S i)
      end
  end.

(** The floored value of a draw has fewer than six hexadecimal digits, or
    six. *)
Definition short_draw (r : float) : bool :=
  match floor_scaled r 16777215 with
  | Some n => (0 <=? n) && (n <? 1048576)
  | None => false
  end.

Definition six_digit_draw (r : float) : bool :=
  match floor_scaled r 16777215 with
  | Some n => (1048576 <=? n) && (n <? 16777216)
  | None => false
  end.

(** The two largest binary64 numbers below 1: 1 - 2^-53, printed
    0.9999999999999999, and 1 - 2^-52, printed 0.9999999999999998. *)
Definition largest_draw : float := 0x1.fffffffffffffp-1%float.
Definition second_largest_draw : float := 0x1.ffffffffffffep-1%float.

End Binary64.

(** ** PermissionUtils *)

Module PermissionUtils.

(** [const permissionLocalizations], in the order of the source. *)
Definition permissionLocalizations_entries : list (string * string) :=
  [ ("AddReactions", "Reaktionen hinzufügen");
    ("Administrator", "Administrator");
    ("AttachFiles", "Dateien anhängen");
    ("BanMembers", "Mitglieder bannen");
    ("ChangeNickname", "Nickname ändern");
    ("Connect", "Verbinden");
    ("CreateEvents", "Events erstellen");
    ("CreateGuildExpressions", "Ausdrücke erstellen");
    ("CreateInstantInvite", "Einladung erstellen");
    ("CreatePrivateThreads", "Private Threads erstellen");
    ("CreatePublicThreads", "Öffentliche Threads erstellen");
    ("DeafenMembers", "Ein- und Ausgabe von Mitgliedern deaktivieren");
    ("EmbedLinks", "Links einbetten");
    ("KickMembers", "Mitglieder kicken");
    ("ManageChannels", "Kanäle verwalten");
    ("ManageEmojisAndStickers", "Ausdrücke verwalten");
    ("ManageEvents", "Events verwalten");
    ("ManageGuild", "Server verwalten");
    ("ManageGuildExpressions", "Ausdrücke verwalten");
    ("ManageMessages", "Nachrichten verwalten");
    ("ManageNicknames", "Nicknames verwalten");
    ("ManageRoles", "Rollen verwalten");
    ("ManageThreads", "Threads verwalten");
    ("ManageWebhooks", "Webhooks verwalten");
    ("MentionEveryone", "Erwähne @everyone, @here und „Alle Rollen“");
    ("ModerateMembers", "Mitglieder im Timeout");
    ("MoveMembers", "Mitglieder verschieben");
    ("MuteMembers", "Mitglieder stummschalten");
    ("PrioritySpeaker", "Very Important Speaker");
    ("ReadMessageHistory", "Nachrichtenverlauf anzeigen");
    ("RequestToSpeak", "Redeanfrage");
    ("SendMessages", "Nachrichten senden");
    ("SendMessagesInThreads", "Nachrichten in Threads senden");
    ("SendPolls", "Umfragen erstellen");
    ("SendTTSMessages", "Text-zu-Sprache-Nachrichten senden");
    ("SendVoiceMessages", "Sprachnachrichten senden");
    ("Speak", "Sprechen");
    ("Stream", "Streamen");
    ("UseApplicationCommands", "Anwendungsbefehle verwenden");
    ("UseEmbeddedActivities", "Aktivitäten nutzen");
    ("UseExternalEmojis", "Externe Emojis verwenden");
    ("UseExternalSounds", "Externe Sounds verwenden");
    ("UseExternalStickers", "Externe Sticker verwenden");
    ("UseSoundboard", "Soundboard verwenden");
    ("UseVAD", "Sprachaktivierung verwenden");
    ("ViewAuditLog", "Audit-Log einsehen");
    ("ViewChannel", "Kanäle ansehen");
    ("ViewCreatorMonetizationAnalytics", "Monetarisierungsanalysen einsehen");
    ("ViewGuildInsights", "Server-Insights einsehen") ]%string.

Definition permissionLocalizations : gmap string string :=
  list_to_map permissionLocalizations_entries.

(** The names the table has an entry for. *)
Definition permission_names : list string :=
  permissionLocalizations_entries.*1.

(** [getPermissionName(permission)]: [permissionLocalizations[permission]]. *)
Definition getPermissionName (permission : string) : JS.property string :=
  JS.get permissionLocalizations permission.

End PermissionUtils.

(** ** Regular expressions

    The matcher follows the language definition: a pattern denotes a
    function from a state (the end index reached so far and the captures)
    and a continuation to a final state or failure; alternatives and greedy
    repetition backtrack through the continuation.  Only the constructs the
    patterns of [ValidationUtils] below are built from are included. *)

Module RegExp.

Inductive node : Type :=
| Empty
| Char (c : ascii)
| Class (ranges : list (ascii * ascii))
| Seq (a b : node)
| Alt (a b : node)
| Repeat (a : node) (min max : nat)
| Group (n : nat) (a : node)
| AssertStart
| AssertEnd.

Record state : Type := State { endIndex : nat; captures : gmap nat string }.

Definition continuation : Type := state -> option state.
Definition matcher : Type := state -> continuation -> option state.

(** A pattern with its [i] flag. *)
Record regexp : Type := RegExp { source : node; ignoreCase : bool }.

(** What [exec] returns on success: the index of the match, the matched
    text (element 0) and the captured groups (elements 1, 2, ...). *)
Record match_array : Type :=
  MatchArray { index : nat; matched : string; groups : gmap nat string }.

(** Upper case of an ASCII letter; other code units are left as they are
    (a code unit above 127 never canonicalizes to an ASCII character). *)
Definition upcase (c : ascii) : ascii :=
  let k := nat_of_ascii c in
  if (97 <=? k)%nat && (k <=? 122)%nat then ascii_of_nat (k - 32) else c.

Definition range_chars (lo hi : ascii) : list ascii :=
  map ascii_of_nat (seq (nat_of_ascii lo) (S (nat_of_ascii hi) - nat_of_ascii lo)).

Section Matching.

Variable input : string.
Variable flag_i : bool.

Definition canonicalize (c : ascii) : ascii :=
  if flag_i then upcase c else c.

Definition char_matches (c ch : ascii) : bool :=
  Ascii.eqb (canonicalize c) (canonicalize ch).

(** [ch] matches a class when some member of the class canonicalizes to
    the same character. *)
Definition class_matches (ranges : list (ascii * ascii)) (ch : ascii) : bool :=
  existsb (fun r => existsb (fun a => char_matches a ch) (range_chars r.1 r.2)) ranges.

Definition character_matcher (p : ascii -> bool) : matcher :=
  fun x c =>
    match String.get (endIndex x) input with
    | Some ch => if p ch then c (State (S (endIndex x)) (captures x)) else None
    | None => None
    end.

(** Greedy [a{min,max}]: another iteration is tried first; one that
    consumes nothing once [min] is reached is refused. *)
Fixpoint repeat_matcher (m : matcher) (min max : nat) (x : state) (c : continuation)
  {struct max} : option state :=
  match max with
  | O => c x
  | S max' =>
      let d := fun y =>
        if (min =? 0)%nat && (endIndex y =? endIndex x)%nat then None
        else repeat_matcher m (pred min) max' y c in
      if (min =? 0)%nat
      then match m x d with Some z => Some z | None => c x end
      else m x d
  end.

Fixpoint compile (r : node) : matcher :=
  match r with
  | Empty => fun x c => c x
  | Char ch => character_matcher (char_matches ch)
  | Class ranges => character_matcher (class_matches ranges)
  | Seq a b => fun x c => compile a x (fun y => compile b y c)
  | Alt a b =>
      fun x c => match compile a x c with Some z => Some z | None => compile b x c end
  | Repeat a min max => repeat_matcher (compile a) min max
  | Group n a =>
      fun x c =>
        compile a x (fun y =>
          let text := substring (endIndex x) (endIndex y - endIndex x) input in
          c (State (endIndex y) (<[n := text]> (captures y))))
  | AssertStart => fun x c => if (endIndex x =? 0)%nat then c x else None
  | AssertEnd =>
      fun x c => if (endIndex x =? String.length input)%nat then c x else None
  end.

(** One attempt, at index [i]. *)
Definition match_at (r : node) (i : nat) : option match_array :=
  match compile r (State i ∅) Some with
  | Some y => Some (MatchArray i (substring i (endIndex y - i) input) (captures y))
  | None => None
  end.

(** The attempts at [i], [i + 1], ..., [i + fuel]. *)
Fixpoint scan (r : node) (fuel : nat) (i : nat) : option match_array :=
  match match_at r i with
  | Some a => Some a
  | None =>
      match fuel with
      | O => None
      | S fuel' => scan r fuel' (S i)
      end
  end.

(** *** What a pattern reads

    The matcher above searches; the relation below says what there is to
    find.  [iterate R min max x y]: [y] is reached from [x] by iterations of
    the step [R], as [repeat_matcher] counts them: at most [max], at least
    [min] unless [max] is used up, and none that consumes nothing once
    [min] is reached. *)
Inductive iterate (R : state -> state -> Prop) : nat -> nat -> state -> state -> Prop :=
| iterate_limit min x : iterate R min 0 x x
| iterate_stop max x : iterate R 0 max x x
| iterate_step min max x y z :
    R x y ->
    (min = 0%nat -> endIndex y <> endIndex x) ->
    iterate R (pred min) max y z ->
    iterate R min (S max) x z.

Definition reads_character (p : ascii -> bool) (x y : state) : Prop :=
  exists ch, String.get (endIndex x) input = Some ch /\ p ch = true
             /\ y = State (S (endIndex x)) (captures x).

(** [reads r x y]: the pattern [r] can take the state [x] to the state [y]. *)
Fixpoint reads (r : node) : state -> state -> Prop :=
  match r with
  | Empty => fun x y => y = x
  | Char ch => reads_character (char_matches ch)
  | Class ranges => reads_character (class_matches ranges)
  | Seq a b => fun x z => exists y, reads a x y /\ reads b y z
  | Alt a b => fun x y => reads a x y \/ reads b x y
  | Repeat a min max => iterate (reads a) min max
  | Group n a =>
      fun x z => exists y, reads a x y
        /\ z = State (endIndex y)
                 (<[n := substring (endIndex x) (endIndex y - endIndex x) input]> (captures y))
  | AssertStart => fun x y => endIndex x = 0%nat /\ y = x
  | AssertEnd => fun x y => endIndex x = String.length input /\ y = x
  end.

(** A matcher finds only what [R] reads, and finds something whenever [R]
    reads a state the continuation accepts. *)
Definition sound (m : matcher) (R : state -> state -> Prop) : Prop :=
  forall x c z, m x c = Some z -> exists y, R x y /\ c y = Some z.

Definition complete (m : matcher) (R : state -> state -> Prop) : Prop :=
  forall x y c, R x y -> is_Some (c y) -> is_Some (m x c).

End Matching.

(** [re.exec(str)] for a pattern without the [g] and [y] flags: the first
    index, from 0 to the length of [str], at which the pattern matches. *)
Definition exec (re : regexp) (str : string) : option match_array :=
  scan str (ignoreCase re) (source re) (String.length str) 0.

(** [a?] and [a{n}]. *)
Definition Optional (a : node) : node := Repeat a 0 1.
Definition Exactly (n : nat) (a : node) : node := Repeat a n n.

(** [\d]. *)
Definition Digit : node := Class [("0", "9")]%char.

(** [a*] and [a+] on an input of [n] characters.  The quantifiers have no
    upper bound; since an iteration that consumes nothing is refused once
    the minimum is reached, no more than [n] further iterations can
    succeed, and [S n] as the bound changes nothing. *)
Definition Star (n : nat) (a : node) : node := Repeat a 0 (S n).
Definition Plus (n : nat) (a : node) : node := Repeat a 1 (S n).

(** The characters of [s], one after the other. *)
Fixpoint Literal (s : string) : node :=
  match s with
  | EmptyString => Empty
  | String c s' => Seq (Char c) (Literal s')
  end.

(** [\w], [\S], [.] and [[^]], on code units up to 255: word characters;
    everything but white space (tab to carriage return, space, no-break
    space); everything but the line terminators; everything. *)
Definition Word : node := Class [("0", "9"); ("A", "Z"); ("_", "_"); ("a", "z")]%char.

Definition NonSpace : node :=
  Class [ (ascii_of_nat 0, ascii_of_nat 8); (ascii_of_nat 14, ascii_of_nat 31);
          (ascii_of_nat 33, ascii_of_nat 159); (ascii_of_nat 161, ascii_of_nat 255) ].

Definition Dot : node :=
  Class [ (ascii_of_nat 0, ascii_of_nat 9); (ascii_of_nat 11, ascii_of_nat 12);
          (ascii_of_nat 14, ascii_of_nat 255) ].

Definition Any : node := Class [ (ascii_of_nat 0, ascii_of_nat 255) ].

Definition is_digit (c : ascii) : bool :=
  let k := nat_of_ascii c in ((48 <=? k) && (k <=? 57))%nat.

Definition is_word (c : ascii) : bool :=
  let k := nat_of_ascii c in
  ((48 <=? k) && (k <=? 57) || (65 <=? k) && (k <=? 90) || (k =? 95)
   || (97 <=? k) && (k <=? 122))%nat.

Definition is_space (c : ascii) : bool :=
  let k := nat_of_ascii c in
  ((9 <=? k) && (k <=? 13) || (k =? 32) || (k =? 160))%nat.

Definition is_line_terminator (c : ascii) : bool :=
  let k := nat_of_ascii c in ((k =? 10) || (k =? 13))%nat.

(** The characters of [s] stand in [input] from index [i] on, compared as
    the pattern compares them. *)
Fixpoint literal_at (flag_i : bool) (s input : string) (i : nat) : bool :=
  match s with
  | EmptyString => true
  | String c s' =>
      match String.get i input with
      | Some ch => char_matches flag_i c ch && literal_at flag_i s' input (S i)
      | None => false
      end
  end.

(** The character at index [i] exists and satisfies [p]. *)
Definition char_at (p : ascii -> bool) (input : string) (i : nat) : bool :=
  match String.get i input with
  | Some ch => p ch
  | None => false
  end.

(** *** Strings with code units above 255

    A JavaScript string is a sequence of 16-bit code units, and a pattern
    without the [u] flag is matched code unit by code unit.  The matcher
    above works on 8-bit characters, which is every string whose code
    units are below 256.  The patterns here are written with ASCII
    characters and with classes: for them a code unit above 255 is white
    space or not, a line terminator or not, and nothing else; it is no word
    character, no digit, and under the [i] flag it is equal to no ASCII
    character (a code unit of 128 or more never canonicalizes to one).
    [narrow] gives the matcher, for each code unit above 255, an 8-bit
    character of the same kind: line feed for the line terminators U+2028
    and U+2029, no-break space for other white space, and U+0080 for the
    rest. *)
Definition utf16 : Type := list N.

(** White space of [\s], and the line terminators, as code units. *)
Definition is_space_unit (u : N) : bool :=
  ((9 <=? u) && (u <=? 13) || (u =? 32) || (u =? 160) || (u =? 5760)
   || (8192 <=? u) && (u <=? 8202) || (u =? 8232) || (u =? 8233) || (u =? 8239)
   || (u =? 8287) || (u =? 12288) || (u =? 65279))%N.

Definition is_line_terminator_unit (u : N) : bool :=
  ((u =? 10) || (u =? 13) || (u =? 8232) || (u =? 8233))%N.

Definition narrow_unit (u : N) : ascii :=
  if (u <? 256)%N then ascii_of_N u
  else if is_line_terminator_unit u then ascii_of_nat 10
  else if is_space_unit u then ascii_of_nat 160
  else ascii_of_nat 128.

Definition narrow (s : utf16) : string := string_of_list_ascii (map narrow_unit s).

(** The code units of a string of 8-bit characters. *)
Definition utf16_of_string (s : string) : utf16 := map N_of_ascii (list_ascii_of_string s).

(** The code unit at index [i] exists and satisfies [p]; so do the [n]
    code units from index [i] on. *)
Definition unit_at (p : N -> bool) (s : utf16) (i : nat) : bool :=
  match s !! i with
  | Some u => p u
  | None => false
  end.

Fixpoint units_at (p : N -> bool) (s : utf16) (i n : nat) : bool :=
  match n with
  | O => true
  | S n' => unit_at p s i && units_at p s (S i) n'
  end.

(** The code unit is the ASCII character [c], in either case. *)
Definition unit_matches (c : ascii) (u : N) : bool :=
  (u <? 256)%N && char_matches true c (ascii_of_N u).

(** The characters of [s] stand in [input] from index [i] on, in either
    case. *)
Fixpoint literal_units_at (s : string) (input : utf16) (i : nat) : bool :=
  match s with
  | EmptyString => true
  | String c s' => unit_at (unit_matches c) input i && literal_units_at s' input (S i)
  end.

(** A visible ASCII character, from '!' to '~'. *)
Definition is_visible (c : ascii) : bool :=
  let k := nat_of_ascii c in ((33 <=? k) && (k <=? 126))%nat.

End RegExp.

(** ** ValidationUtils *)

Module ValidationUtils.
Import RegExp.

(** [s.includes(sub)]. *)
Fixpoint includes (s sub : string) : bool :=
  String.prefix sub s ||
  match s with
  | EmptyString => false
  | String _ s' => includes s' sub
  end.

(** [s.startsWith(p)]. *)
Definition startsWith (s p : string) : bool := String.prefix p s.

(** *** [resolveUser] *)

(** The fields of a library [User] that [resolveUser] reads.  The library
    declares [username] a string; on a partial user it is [null]
    ([None]). *)
Record User : Type := { id : string; username : option string }.

(** [const USER_MENTION = /<?@?!?(\d{17,20})>?/]. *)
Definition USER_MENTION : regexp :=
  RegExp
    (Seq (Optional (Char "<"))
      (Seq (Optional (Char "@"))
        (Seq (Optional (Char "!"))
          (Seq (Group 1 (Repeat Digit 17 20))
            (Optional (Char ">"))))))
    false.

(** [collection.find(fn)] and [collection.filter(fn)] of the library's
    collections: the elements are visited in the order of the collection,
    and a throw of [fn] ends the call. *)
Fixpoint Collection_find {A} (fn : A -> JS.completion bool) (l : list A)
  : JS.completion (option A) :=
  match l with
  | [] => JS.Normal None
  | x :: l' =>
      JS.bind (fn x) (fun found =>
      if found : bool then JS.Normal (Some x) else Collection_find fn l')
  end.

Fixpoint Collection_filter {A} (fn : A -> JS.completion bool) (l : list A)
  : JS.completion (list A) :=
  match l with
  | [] => JS.Normal []
  | x :: l' =>
      JS.bind (fn x) (fun kept =>
      JS.bind (Collection_filter fn l') (fun rest =>
      JS.Normal (if kept : bool then x :: rest else rest)))
  end.

Section Text.

(** [String.prototype.toLowerCase]. *)
Variable toLowerCase : string -> string.

(** [text.toLowerCase().includes(query.toLowerCase())] where [text] was
    read from an object of the library: calling [toLowerCase] on [null]
    is a [TypeError]. *)
Definition lower_includes (text : option string) (query : string) : JS.completion bool :=
  match text with
  | Some t => JS.Normal (includes (toLowerCase t) (toLowerCase query))
  | None => JS.Throw JS.TypeError
  end.

End Text.

(** [user.username === query]. *)
Definition username_is (query : string) (x : User) : bool :=
  match username x with
  | Some name => String.eqb name query
  | None => false
  end.

Section Client.

(** [this.client.users.fetch(id, { cache: true })]: the promise the library
    returns for an id ([None] is [undefined]). *)
Variable fetch : option string -> JS.promise User.

(** [this.client.users.cache]: the cached users, in the order of the
    collection. *)
Variable cache : list User.

Variable toLowerCase : string -> string.

(** The predicate of the final [cache.find]:
    [x.username === query || x.username.toLowerCase().includes(...)]. *)
Definition loose_match (query : string) (x : User) : JS.completion bool :=
  if username_is query x then JS.Normal true
  else lower_includes toLowerCase (username x) query.

(** The part of [resolveUser] after the fetch: the cache lookups. *)
Definition resolve_cached (query : string) (exact : bool) : JS.completion (option User) :=
  let matchingUsernames := List.filter (username_is query) cache in
  if (length matchingUsernames =? 1)%nat then JS.Normal (head matchingUsernames)
  else if negb exact then Collection_find (loose_match query) cache
  else JS.Normal None.

(** [resolveUser(query, exact)]; [None] is [undefined]. *)
Definition resolveUser (query : string) (exact : bool) : JS.completion (option User) :=
  if String.eqb query "" then JS.Normal None
  else
    JS.bind
      (match exec USER_MENTION query with
       | Some patternMatch =>
           JS.await (JS.catch_void (fetch (groups patternMatch !! 1%nat)))
       | None => JS.Normal None
       end)
      (fun fetchedUser =>
         match fetchedUser with
         | Some user => JS.Normal (Some user)
         | None => resolve_cached query exact
         end).

(** The failed lookups.  No user is fetched: the query holds no mention,
    or the promise of the fetch is rejected. *)
Definition nothing_fetched (query : string) : Prop :=
  match exec USER_MENTION query with
  | Some patternMatch =>
      exists reason, fetch (groups patternMatch !! 1%nat) = JS.Rejected reason
  | None => True
  end.

(** What the cache lookups search for: the user name itself and, unless
    [exact] is set, a user name that includes the query in lower case. *)
Definition search_hit (query : string) (exact : bool) (x : User) : bool :=
  match username x with
  | Some name =>
      String.eqb name query
      || (negb exact && includes (toLowerCase name) (toLowerCase query))
  | None => false
  end.

End Client.

(** *** [resolveMember] *)

(** The fields of a library [GuildMember] that [resolveMember] reads.
    [member.user] is looked up in the cache of users and is [null] when
    the user is not there; [member.displayName] falls back on the user's
    names and is [null] when they are. *)
Record GuildMember : Type := { user : option User; displayName : option string }.

(** [member.user.username]; [None] when [member.user] is [null], where
    the read is a [TypeError], and when the user name is [null]. *)
Definition member_username (member : GuildMember) : option string :=
  match user member with
  | Some u => username u
  | None => None
  end.

Section Guild.

(** [guild.members.fetch({ user: id })]. *)
Variable fetch_member : option string -> JS.promise GuildMember.

(** [guild.members.fetch({ query })]; only the way it settles matters, its
    value is not used. *)
Variable fetch_query : string -> JS.promise (list GuildMember).

(** [guild.members.cache] as the lookups read it, after the fetch by query
    has settled. *)
Variable members_cache : list GuildMember.

Variable toLowerCase : string -> string.

(** The predicate of [cache.filter]: the user name or, if not, the display
    name includes the query, in lower case. *)
Definition member_matches (query : string) (member : GuildMember) : JS.completion bool :=
  JS.bind (lower_includes toLowerCase (member_username member) query) (fun found =>
  if found : bool then JS.Normal true
  else lower_includes toLowerCase (displayName member) query).

(** The same as a test: whether the predicate returns [true]. *)
Definition member_includes (query : string) (member : GuildMember) : bool :=
  match member_matches query member with
  | JS.Normal found => found
  | JS.Throw _ => false
  end.

(** The predicate of the final [find]: [member.user.username === query]. *)
Definition member_username_is (query : string) (member : GuildMember) : JS.completion bool :=
  match user member with
  | Some u => JS.Normal (username_is query u)
  | None => JS.Throw JS.TypeError
  end.

(** The part of [resolveMember] after the fetches. *)
Definition resolve_cached_member (query : string) (exact : bool)
  : JS.completion (option GuildMember) :=
  JS.bind (Collection_filter (member_matches query) members_cache) (fun matchingUsernames =>
  if (length matchingUsernames =? 1)%nat then JS.Normal (head matchingUsernames)
  else if negb exact
       then Collection_find (member_username_is query) matchingUsernames
       else JS.Normal None).

(** [resolveMember(guild, query, exact)]; the mention pattern is the one of
    [resolveUser], written out again in the source. *)
Definition resolveMember (query : string) (exact : bool)
  : JS.completion (option GuildMember) :=
  if String.eqb query "" then JS.Normal None
  else
    JS.bind
      (match exec USER_MENTION query with
       | Some patternMatch =>
           JS.await (JS.catch_void (fetch_member (groups patternMatch !! 1%nat)))
       | None => JS.Normal None
       end)
      (fun fetched =>
         match fetched with
         | Some member => JS.Normal (Some member)
         | None =>
             JS.bind (JS.await (JS.catch_void (fetch_query query))) (fun _ =>
             resolve_cached_member query exact)
         end).

End Guild.

(** [toLowerCase] on ASCII letters, for running [resolveUser] on examples. *)
Definition ascii_toLowerCase (s : string) : string :=
  string_of_list_ascii
    (map (fun c => let k := nat_of_ascii c in
                   if (65 <=? k)%nat && (k <=? 90)%nat then ascii_of_nat (k + 32) else c)
         (list_ascii_of_string s)).

(** *** [urlIsImage] *)

(** A value of the response's header table: absent, [null], a string or a
    list of strings. *)
Inductive header_value : Type :=
| HUndefined
| HNull
| HString (s : string)
| HList (l : list string).

(** [value.toString()]: a [TypeError] on [undefined] and [null]; a list
    is joined with commas. *)
Definition header_toString (v : header_value) : JS.completion string :=
  match v with
  | HUndefined | HNull => JS.Throw JS.TypeError
  | HString s => JS.Normal s
  | HList l => JS.Normal (String.concat "," l)
  end.

Record AxiosResponse : Type := { status : Z; headers : string -> header_value }.

Section Http.

(** [head(url)]: the promise of the request for [url]. *)
Variable head : string -> JS.promise AxiosResponse.

Definition urlIsImage (url : string) : JS.completion bool :=
  JS.try_catch
    (JS.bind (JS.await (head url)) (fun response =>
     JS.bind (header_toString (headers response "content-type")) (fun text =>
     JS.Normal (startsWith text "image/"))))
    (fun error => JS.Normal false).

End Http.

(** *** [stringIsHexColor] *)

(** [/^#?[0-9A-F]{6}$/i]. *)
Definition HEX_COLOR : regexp :=
  RegExp
    (Seq AssertStart
      (Seq (Optional (Char "#"))
        (Seq (Exactly 6 (Class [("0", "9"); ("A", "F")]%char))
          AssertEnd)))
    true.

Definition stringIsHexColor (str : string) : bool :=
  match exec HEX_COLOR str with
  | Some _ => true
  | None => false
  end.

(** A hexadecimal digit, in either case. *)
Definition is_hex_digit (c : ascii) : bool :=
  let k := nat_of_ascii c in
  ((48 <=? k) && (k <=? 57) || (65 <=? k) && (k <=? 70) || (97 <=? k) && (k <=? 102))%nat.

(** The strings the description of [stringIsHexColor] names: an optional
    leading '#', then exactly six hexadecimal digits. *)
Definition hex_color_shape (str : string) : Prop :=
  exists digits : string,
    (str = digits \/ str = String "#" digits)
    /\ String.length digits = 6%nat
    /\ Radix16.all_chars is_hex_digit digits = true.

(** *** [stringIsUrl], [urlHasImageExtension], [stringIsCustomEmoji] *)

(** The pattern of [stringIsUrl], with the [i] flag, for an input of [n]
    characters.  Its parts in order: [https?], [:\/\/], the optional group
    [\w+ :? \w*], the group [\S+], the optional group [: \d+], and the
    optional group of [\/] or [\/] and one character of
    [[\w#!:.?+=&%!\-\/]]. *)
Definition URL (n : nat) : regexp :=
  RegExp
    (Seq (Literal "http")
      (Seq (Optional (Char "s"))
        (Seq (Literal "://")
          (Seq (Optional (Group 1
                  (Seq (Plus n Word) (Seq (Optional (Char ":")) (Star n Word)))))
            (Seq (Group 2 (Plus n NonSpace))
              (Seq (Optional (Group 3 (Seq (Char ":") (Plus n Digit))))
                (Optional (Group 4
                   (Alt (Char "/")
                     (Seq (Char "/")
                       (Group 5
                          (Class [ ("0", "9"); ("A", "Z"); ("_", "_"); ("a", "z");
                                   ("#", "#"); ("!", "!"); (":", ":"); (".", ".");
                                   ("?", "?"); ("+", "+"); ("=", "="); ("&", "&");
                                   ("%", "%"); ("!", "!"); ("-", "-"); ("/", "/")
                                 ]%char))))))))))))
    true.

(** [RegExp(URL).exec(url) != null] on 8-bit characters. *)
Definition matches_URL (url : string) : bool :=
  match exec (URL (String.length url)) url with
  | Some _ => true
  | None => false
  end.

(** [stringIsUrl(url)], for any string. *)
Definition stringIsUrl (url : utf16) : bool := matches_URL (narrow url).

(** The alternatives of [(jpg|jpeg|gif|png)]. *)
Definition image_extensions : list string := ["jpg"; "jpeg"; "gif"; "png"]%string.

(** The pattern of [urlHasImageExtension], with the [i] flag, for an input
    of [n] characters.  Its parts in order: [^http], any characters
    ([[^]] starred), [.], the group [jpg|jpeg|gif|png], the optional group
    of [\?] and characters matching [.], and [$].  The [.] before the
    extensions is not escaped in the source: it is the pattern for any
    character but a line terminator. *)
Definition IMAGE_EXTENSION (n : nat) : regexp :=
  RegExp
    (Seq AssertStart
      (Seq (Literal "http")
        (Seq (Star n Any)
          (Seq Dot
            (Seq (Group 1
                    (Alt (Literal "jpg")
                      (Alt (Literal "jpeg") (Alt (Literal "gif") (Literal "png")))))
              (Seq (Optional (Group 2 (Seq (Char "?") (Group 3 (Star n Dot)))))
                AssertEnd))))))
    true.

Definition matches_IMAGE_EXTENSION (url : string) : bool :=
  match exec (IMAGE_EXTENSION (String.length url)) url with
  | Some _ => true
  | None => false
  end.

(** [urlHasImageExtension(url)], for any string. *)
Definition urlHasImageExtension (url : utf16) : bool :=
  matches_IMAGE_EXTENSION (narrow url).

(** [/<?(a)?:?(\w{2,32}):(\d{17,19})>?/]. *)
Definition CUSTOM_EMOJI : regexp :=
  RegExp
    (Seq (Optional (Char "<"))
      (Seq (Optional (Group 1 (Char "a")))
        (Seq (Optional (Char ":"))
          (Seq (Group 2 (Repeat Word 2 32))
            (Seq (Char ":")
              (Seq (Group 3 (Repeat Digit 17 19))
                (Optional (Char ">"))))))))
    false.

Definition stringIsCustomEmoji (str : string) : bool :=
  match exec CUSTOM_EMOJI str with
  | Some _ => true
  | None => false
  end.

(** *** Runs of characters, for stating what a pattern matches *)

(** The [n] characters of [input] from index [i] exist and satisfy [p]. *)
Fixpoint all_at (p : ascii -> bool) (input : string) (i n : nat) : bool :=
  match n with
  | O => true
  | S n' =>
      match String.get i input with
      | Some ch => p ch && all_at p input (S i) n'
      | None => false
      end
  end.

(** The six characters from index [i] are hexadecimal digits and end the
    string. *)
Definition six_digits_at (str : string) (i : nat) : bool :=
  all_at is_hex_digit str i 6 && (i + 6 =? String.length str)%nat.

(** *** [stringIsRgbColor] *)

(** [\s] on code units up to 255. *)
Definition Space : node :=
  Class [ (ascii_of_nat 9, ascii_of_nat 13); (" ", " ")%char;
          (ascii_of_nat 160, ascii_of_nat 160) ].

(** The pattern of [stringIsRgbColor], with the [i] flag, for an input of
    [n] characters: two anchored alternatives.  The first is [rgb], an
    optional [a], a parenthesis, three groups of one to three digits
    separated by commas, an optional group of a comma and [0], [1] or
    an optional [0], a point and digits, and the closing parenthesis; the
    second is the three groups of digits and their commas alone.  White
    space is allowed around every group. *)
Definition RGB_COLOR (n : nat) : regexp :=
  let ws := Star n Space in
  let component := Repeat Digit 1 3 in
  RegExp
    (Alt
      (Seq AssertStart
        (Seq (Literal "rgb")
          (Seq (Optional (Char "a"))
            (Seq (Char "(")
              (Seq ws (Seq (Group 1 component)
                (Seq ws (Seq (Char ",")
                  (Seq ws (Seq (Group 2 component)
                    (Seq ws (Seq (Char ",")
                      (Seq ws (Seq (Group 3 component)
                        (Seq ws
                          (Seq (Optional (Group 4
                                 (Seq (Char ",")
                                   (Seq ws
                                     (Seq (Group 5
                                            (Alt (Char "0")
                                              (Alt (Char "1")
                                                (Seq (Optional (Char "0"))
                                                  (Seq (Char ".") (Plus n Digit))))))
                                       ws)))))
                            (Seq (Char ")") AssertEnd)))))))))))))))))
      (Seq AssertStart
        (Seq ws (Seq (Group 6 component)
          (Seq ws (Seq (Char ",")
            (Seq ws (Seq (Group 7 component)
              (Seq ws (Seq (Char ",")
                (Seq ws (Seq (Group 8 component)
                  (Seq ws AssertEnd)))))))))))))
    true.

(** [pattern.test(str)]. *)
Definition stringIsRgbColor (str : string) : bool :=
  match exec (RGB_COLOR (String.length str)) str with
  | Some _ => true
  | None => false
  end.

(** One to three digits: what [\d{1,3}] takes for a colour component. *)
Definition is_component (s : string) : Prop :=
  (1 <= String.length s <= 3)%nat /\ Radix16.all_chars is_digit s = true.

(** *** What the patterns accept, by index *)

(** At index [i]: two word characters, a colon and seventeen digits. *)
Definition custom_emoji_at (str : string) (i : nat) : bool :=
  all_at is_word str i 2
  && char_at (Ascii.eqb ":") str (i + 2)
  && all_at is_digit str (i + 3) 17.

(** At index [i]: [http://] or [https://] in any case, and then a
    character that is not white space. *)
Definition not_space (c : ascii) : bool := negb (is_space c).

Definition url_start_at (url : string) (i : nat) : bool :=
  (literal_at true "http://" url i && char_at not_space url (i + 7))
  || (literal_at true "https://" url i && char_at not_space url (i + 8)).

Definition not_line_terminator (c : ascii) : bool := negb (is_line_terminator c).

(** The string starts with [http] in any case; at some index [e], at
    least 5, one of the extensions stands in any case, after a character
    that is not a line terminator; and the extension ends the string or is
    followed by '?' and characters that are not line terminators up to the
    end. *)
Definition image_url_shape (url : string) : Prop :=
  literal_at true "http" url 0 = true
  /\ exists (e : nat) (ext : string),
       ext ∈ image_extensions
       /\ (5 <= e)%nat
       /\ char_at not_line_terminator url (e - 1) = true
       /\ literal_at true ext url e = true
       /\ ((e + String.length ext)%nat = String.length url
           \/ (char_at (Ascii.eqb "?") url (e + String.length ext) = true
               /\ all_at not_line_terminator url (e + String.length ext + 1)
                    (String.length url - (e + String.length ext + 1)) = true)).

(** The same on code units: what [stringIsUrl] and [urlHasImageExtension]
    accept. *)
Definition not_space_unit (u : N) : bool := negb (is_space_unit u).
Definition not_line_terminator_unit (u : N) : bool := negb (is_line_terminator_unit u).

(** At index [i]: [http://] or [https://] in any case, and then a code
    unit that is not white space. *)
Definition url_start_units_at (url : utf16) (i : nat) : bool :=
  (literal_units_at "http://" url i && unit_at not_space_unit url (i + 7))
  || (literal_units_at "https://" url i && unit_at not_space_unit url (i + 8)).

(** [image_url_shape] on code units. *)
Definition image_url_units_shape (url : utf16) : Prop :=
  literal_units_at "http" url 0 = true
  /\ exists (e : nat) (ext : string),
       ext ∈ image_extensions
       /\ (5 <= e)%nat
       /\ unit_at not_line_terminator_unit url (e - 1) = true
       /\ literal_units_at ext url e = true
       /\ ((e + String.length ext)%nat = length url
           \/ (unit_at (N.eqb 63) url (e + String.length ext) = true
               /\ units_at not_line_terminator_unit url (e + String.length ext + 1)
                    (length url - (e + String.length ext + 1)) = true)).

End ValidationUtils.

(** ** The bootstrap script: dispatch on the process arguments *)

Module Bootstrap.

(** The calls the script makes on the services and on the process. *)
Inductive call : Type :=
| CommandManager_view
| CommandManager_unregister
| CommandManager_delete (argument : option string)
| CommandManager_register
| Loader_loadCommands (argument : option bool)
| Loader_loadEvents
| Loader_login
| Database_initiate
| Logger_error (message : string)
| Object_prototype (member : string)
| Process_exit (code : Z).

(** How the part of the script modelled here ends: [process.exit] was
    called, the top-level [await] threw, or [initiate] was started and the
    script went on. *)
Inductive ending : Type :=
| Exited (code : Z)
| Threw (e : JS.error)
| Initiated.

(** The keys of [commandActions]. *)
Inductive action : Type :=
| view
| unregister
| delete
| register.

Definition commandActions : gmap string action :=
  list_to_map
    [ ("view", view); ("unregister", unregister);
      ("delete", delete); ("register", register) ]%string.

(** [process.argv[n]]; [None] is [undefined]. *)
Definition argv_at (argv : list string) (n : nat) : option string := argv !! n.

(** A value used as a property key: [undefined] reads the key "undefined". *)
Definition property_key (v : option string) : string :=
  match v with
  | Some s => s
  | None => "undefined"
  end.

(** The service calls of an entry of [commandActions], in order. *)
Definition action_calls (a : action) (argv : list string) : list call :=
  match a with
  | view => [CommandManager_view]
  | unregister => [CommandManager_unregister]
  | delete => [CommandManager_delete (argv_at argv 4)]
  | register => [Loader_loadCommands (Some true); CommandManager_register]
  end.


Definition is_log (c : call) : bool :=
  match c with
  | Logger_error _ => true
  | _ => false
  end.

Section Services.

(** What a call on a service does: it throws, or it returns a promise,
    given by the way it settles.  The services and the logger are classes
    the script imports; nothing is assumed of them.  For the logger, whose
    result is what a [catch] handler returns, a result that is no promise
    counts as a promise fulfilled. *)
Variable service : call -> JS.completion (JS.promise unit).

(** The call returns a promise that is fulfilled; it returns a promise
    that is rejected; it throws. *)
Definition fulfilled (c : call) : bool :=
  match service c with
  | JS.Normal (JS.Fulfilled _) => true
  | _ => false
  end.

Definition rejected (c : call) : bool :=
  match service c with
  | JS.Normal (JS.Rejected _) => true
  | _ => false
  end.


(** [await service.call()] with no handler, inside an [async] function:
    the call is recorded; a throw of the call and a rejection of its
    promise both end the function with the error. *)
Definition awaited (c : call) : list call * JS.completion unit :=
  ([c], JS.bind (service c) JS.await).

(** [await service.call().catch(error => loggerInstance.error(message, error))]:
    the handler is attached to the promise the call returns, so a throw
    of the call itself is not caught.  A rejection is handed to the logger,
    and the promise that is awaited settles as the handler does: when the
    logger returns the function goes on, and when the logger throws, or
    returns a promise that is rejected, the [await] throws. *)
Definition logged (c : call) (message : string) : list call * JS.completion unit :=
  match service c with
  | JS.Normal (JS.Fulfilled _) => ([c], JS.Normal tt)
  | JS.Normal (JS.Rejected _) =>
      ([c; Logger_error message], JS.bind (service (Logger_error message)) JS.await)
  | JS.Throw e => ([c], JS.Throw e)
  end.


(** Two statements in sequence: the second is run when the first
    completes. *)
Definition and_then (first second : list call * JS.completion unit)
  : list call * JS.completion unit :=
  match first with
  | (t, JS.Normal _) => (t ++ second.1, second.2)
  | (t, JS.Throw e) => (t, JS.Throw e)
  end.

(** The body of an entry of [commandActions]. *)
Definition run_action (a : action) (argv : list string) : list call * JS.completion unit :=
  match a with
  | view => awaited CommandManager_view
  | unregister => awaited CommandManager_unregister
  | delete => awaited (CommandManager_delete (argv_at argv 4))
  | register =>
      and_then (awaited (Loader_loadCommands (Some true))) (awaited CommandManager_register)
  end.

(** [initiate()]: the calls made, and whether the promise it returns is
    fulfilled. *)
Definition initiate : list call * JS.completion unit :=
  and_then (logged (Loader_loadCommands None) "Error while loading commands")
    (and_then (logged Loader_loadEvents "Error while loading events")
       (and_then (logged Database_initiate "Error while initializing database")
          (logged Loader_login "Error while logging in bot"))).

(** [await commandActions[process.argv[3]](); process.exit(0);] *)
Definition invoke_then_exit (called : list call * JS.completion unit)
  : list call * ending :=
  match called with
  | (t, JS.Normal _) => (t ++ [Process_exit 0], Exited 0)
  | (t, JS.Throw e) => (t, Threw e)
  end.

(** The calls up to the first one that [stops], that one included. *)
Fixpoint through_first (stops : call -> bool) (calls : list call) : list call :=
  match calls with
  | [] => []
  | c :: rest => if stops c then [c] else c :: through_first stops rest
  end.

(** The [if] that handles the command action: the calls made, in order,
    and how the script ends.  [initiate] is started and not awaited: the
    script goes on whatever becomes of it. *)
Definition dispatch (argv : list string) : list call * ending :=
  if bool_decide (argv_at argv 2 = Some "commands"%string)
  then
    match JS.get commandActions (property_key (argv_at argv 3)) with
    | JS.Own a => invoke_then_exit (run_action a argv)
    | JS.Inherited member =>
        invoke_then_exit ([Object_prototype member], JS.call_inherited member)
    | JS.Undefined => (initiate.1, Initiated)
    end
  else (initiate.1, Initiated).

End Services.

End Bootstrap.

(** * Properties *)

(** ** Hexadecimal text *)

Module Radix16Facts.
Import Radix16.

Lemma hex_value_digit (d : Z) : 0 <= d < 16 -> hex_value (hex_digit d) = Some d.
Proof.
  intros Hd.
  assert (Hcases : d = 0 \/ d = 1 \/ d = 2 \/ d = 3 \/ d = 4 \/ d = 5 \/ d = 6
                   \/ d = 7 \/ d = 8 \/ d = 9 \/ d = 10 \/ d = 11 \/ d = 12
                   \/ d = 13 \/ d = 14 \/ d = 15) by lia.
  repeat (destruct Hcases as [-> | Hcases]; [reflexivity |]).
  subst d. reflexivity.
Qed.

Lemma is_lower_hex_digit (d : Z) : 0 <= d < 16 -> is_lower_hex (hex_digit d) = true.
Proof.
  intros Hd. unfold is_lower_hex. by rewrite hex_value_digit.
Qed.

(** Every character [hex_digits] puts in front of [acc] is a digit. *)
Lemma hex_digits_all_hex (fuel : nat) :
  forall n acc, 0 <= n ->
    all_chars is_lower_hex acc = true ->
    all_chars is_lower_hex (hex_digits fuel n acc) = true.
Proof.
  induction fuel as [| fuel IH]; intros n acc Hn Hacc; simpl; [done |].
  destruct (Z.ltb_spec n 16) as [Hlt | Hge].
  - simpl. rewrite is_lower_hex_digit by lia. done.
  - apply IH.
    + apply Z.div_pos; lia.
    + simpl. rewrite is_lower_hex_digit, Hacc; [done |].
      apply Z.mod_pos_bound. lia.
Qed.

(** Reading back what [hex_digits] wrote: the digits of [n] extend the
    number read so far by [n]. *)
Lemma parse_hex_digits (fuel : nat) :
  forall n acc a, 0 <= n < 16 ^ Z.of_nat fuel ->
    exists k, 0 <= k /\
      parse_hex a (hex_digits fuel n acc) = parse_hex (a * 16 ^ k + n) acc.
Proof.
  induction fuel as [| fuel IH]; intros n acc a Hn.
  - exists 0. simpl in *. split; [lia |]. f_equal. lia.
  - simpl hex_digits.
    destruct (Z.ltb_spec n 16) as [Hlt | Hge].
    + exists 1. split; [lia |]. simpl. rewrite hex_value_digit by lia.
      f_equal. lia.
    + assert (Hdiv : 0 <= n / 16 < 16 ^ Z.of_nat fuel).
      { split; [apply Z.div_pos; lia |].
        apply Z.div_lt_upper_bound; [lia |].
        rewrite Nat2Z.inj_succ, Z.pow_succ_r in Hn by lia. lia. }
      destruct (IH (n / 16) (String (hex_digit (n mod 16)) acc) a Hdiv)
        as (k & Hk & Heq).
      exists (k + 1). split; [lia |]. rewrite Heq. simpl.
      rewrite hex_value_digit by (apply Z.mod_pos_bound; lia).
      f_equal. rewrite Z.pow_add_r by lia.
      pose proof (Z.div_mod n 16). lia.
Qed.

Lemma digits_fuel (n : Z) : 0 <= n -> n < 16 ^ Z.of_nat (S (Z.to_nat (Z.log2 n))).
Proof.
  intros Hn.
  rewrite Nat2Z.inj_succ, Z2Nat.id by apply Z.log2_nonneg.
  destruct (Z.eq_dec n 0) as [-> | Hne]; [reflexivity |].
  pose proof (Z.log2_spec n ltac:(lia)) as [_ Hup].
  eapply Z.lt_le_trans; [exact Hup |].
  apply Z.pow_le_mono_l. lia.
Qed.

(** [toString(16)] is read back to the number it was given. *)
Lemma parse_toString16 (n : Z) : 0 <= n -> parse_hex 0 (toString16 n) = Some n.
Proof.
  intros Hn. unfold toString16.
  destruct (Z.ltb_spec n 0) as [Hneg | _]; [lia |].
  destruct (parse_hex_digits _ n EmptyString 0 (conj Hn (digits_fuel n Hn)))
    as (k & _ & ->).
  simpl. f_equal.
Qed.

Lemma toString16_all_hex (n : Z) :
  0 <= n -> all_chars is_lower_hex (toString16 n) = true.
Proof.
  intros Hn. unfold toString16.
  destruct (Z.ltb_spec n 0) as [Hneg | _]; [lia |].
  by apply hex_digits_all_hex.
Qed.

(** A number with [k] hexadecimal digits is written with [k] characters. *)
Lemma hex_digits_length (fuel : nat) :
  forall (k : nat) n acc, (0 < k <= fuel)%nat ->
    16 ^ (Z.of_nat k - 1) <= n < 16 ^ Z.of_nat k ->
    String.length (hex_digits fuel n acc) = (k + String.length acc)%nat.
Proof.
  induction fuel as [| fuel IH]; intros k n acc Hk Hn; [lia |].
  assert (Hpos : 0 < 16 ^ (Z.of_nat k - 1)) by (apply Z.pow_pos_nonneg; lia).
  simpl hex_digits. destruct (Z.ltb_spec n 16) as [Hlt | Hge].
  - destruct (decide (k = 1%nat)) as [-> | Hne]; [reflexivity |].
    pose proof (Z.pow_le_mono_r 16 1 (Z.of_nat k - 1) ltac:(lia) ltac:(lia)).
    lia.
  - destruct k as [| [| k]]; [lia | simpl in Hn; lia |].
    rewrite (IH (S k)); [simpl; lia | lia |].
    replace (Z.of_nat (S (S k)) - 1) with (Z.succ (Z.of_nat (S k) - 1)) in Hn by lia.
    replace (Z.of_nat (S (S k))) with (Z.succ (Z.of_nat (S k))) in Hn by lia.
    rewrite !Z.pow_succ_r in Hn by lia.
    split; [apply Z.div_le_lower_bound; lia | apply Z.div_lt_upper_bound; lia].
Qed.

Lemma toString16_six_digits (n : Z) :
  1048576 <= n < 16777216 -> String.length (toString16 n) = 6%nat.
Proof.
  intros Hn. unfold toString16.
  destruct (Z.ltb_spec n 0) as [Hneg | _]; [lia |].
  rewrite (hex_digits_length _ 6); [reflexivity | | simpl; lia].
  split; [lia |].
  pose proof (Z.log2_le_mono 1048576 n ltac:(lia)) as Hlog.
  change (Z.log2 1048576) with 20 in Hlog. lia.
Qed.

(** A number below [16^k] is written with at most [k] characters. *)
Lemma hex_digits_length_le (fuel : nat) :
  forall (k : nat) n acc, (0 < k)%nat -> 0 <= n < 16 ^ Z.of_nat k ->
    (String.length (hex_digits fuel n acc) <= k + String.length acc)%nat.
Proof.
  induction fuel as [| fuel IH]; intros k n acc Hk Hn; [simpl; lia |].
  simpl hex_digits. destruct (Z.ltb_spec n 16) as [Hlt | Hge]; [simpl; lia |].
  destruct k as [| [| k]]; [lia | simpl in Hn; lia |].
  etransitivity; [apply (IH (S k)); [lia |] | simpl; lia].
  replace (Z.of_nat (S (S k))) with (Z.succ (Z.of_nat (S k))) in Hn by lia.
  rewrite Z.pow_succ_r in Hn by lia.
  split; [apply Z.div_pos; lia | apply Z.div_lt_upper_bound; lia].
Qed.

Lemma toString16_short (n : Z) :
  0 <= n < 1048576 -> (String.length (toString16 n) <= 5)%nat.
Proof.
  intros Hn. unfold toString16.
  destruct (Z.ltb_spec n 0) as [Hneg | _]; [lia |].
  assert (Hpow : 0 <= n < 16 ^ Z.of_nat 5)
    by (change (16 ^ Z.of_nat 5) with 1048576; lia).
  pose proof (hex_digits_length_le (S (Z.to_nat (Z.log2 n))) 5 n EmptyString
                ltac:(lia) Hpow) as Hle.
  cbn [String.length] in Hle. lia.
Qed.

End Radix16Facts.

(** ** The engine's sort returns a permutation *)

Module ArraySortFacts.
Import ArraySort.

Section Loop.

Context {State Result : Type}.
Variable body : State -> option (State + Result).

(** A loop whose iterations keep an invariant and lower a measure leaves
    with a result, given fuel above the measure. *)
Lemma loop_spec (measure : State -> nat) (Inv : State -> Prop) (Post : Result -> Prop) :
  (forall s, Inv s ->
     match body s with
     | Some (inl s') => Inv s' /\ (measure s' < measure s)%nat
     | Some (inr r) => Post r
     | None => False
     end) ->
  forall fuel s, Inv s -> (measure s < fuel)%nat ->
    exists r, loop body fuel s = Some r /\ Post r.
Proof.
  intros Hbody. induction fuel as [| fuel IH]; intros s Hinv Hfuel; [lia |].
  cbn [loop]. specialize (Hbody s Hinv).
  destruct (body s) as [[s' | r] |]; [| eauto | done].
  destruct Hbody as [Hinv' Hless]. apply IH; [done | lia].
Qed.

End Loop.

Section TimSort.

Variable V : Type.
Variable St : Type.
Variable comparefn : V -> V -> St -> Q * St.

Lemma ComputeMinRunLength_total (n : nat) : is_Some (ComputeMinRunLength n).
Proof.
  unfold ComputeMinRunLength.
  destruct (loop_spec ComputeMinRunLength_body (fun t => t.1) (fun _ => True) (fun _ => True))
    with (fuel := S n) (s := (n, 0%nat)) as (r & -> & _); [| done | simpl; lia | eauto].
  intros [m r] _. unfold ComputeMinRunLength_body.
  destruct (Nat.leb_spec 64 m) as [Hm |]; [| done].
  split; [done |]. cbn [fst]. apply Nat.div_lt; lia.
Qed.

Lemma run_extension_le (descending : bool) (rest : list V) :
  forall previous s, ((run_extension V St comparefn descending previous rest s).1 <= length rest)%nat.
Proof.
  induction rest as [| current rest IH]; intros previous s; cbn [run_extension]; [done |].
  destruct (Compare V St comparefn current previous s) as [negative s'].
  destruct (Bool.eqb negative descending); [| simpl; lia].
  specialize (IH current s').
  destruct (run_extension V St comparefn descending current rest s') as [n s''].
  simpl in *. lia.
Qed.

(** The run found is not empty, it is within the range, and the range
    keeps its elements. *)
Lemma CountAndMakeRun_spec (range : list V) (s : St) :
  range <> [] ->
  let '(runLength, range', _) := CountAndMakeRun V St comparefn range s in
  (1 <= runLength <= length range)%nat /\ range' ≡ₚ range.
Proof.
  intros Hrange. unfold CountAndMakeRun.
  destruct range as [| first [| second rest]]; [done | simpl; split; [lia | done] |].
  destruct (Compare V St comparefn second first s) as [descending s'].
  pose proof (run_extension_le descending rest second s') as Hle.
  destruct (run_extension V St comparefn descending second rest s') as [n s''].
  cbn [fst] in Hle. split; [simpl; lia |].
  destruct descending; [| done].
  rewrite <- (take_drop (2 + n) (first :: second :: rest)) at 3.
  apply Permutation_app_tail. symmetry. apply Permutation_rev.
Qed.

Lemma compare_at_total (element_first : bool) (key : V) (l : list V) (index : nat) (s : St) :
  (index < length l)%nat -> is_Some (compare_at V St comparefn element_first key l index s).
Proof.
  intros Hindex. unfold compare_at.
  destruct (lookup_lt_is_Some_2 l index Hindex) as [x ->]. cbn. eauto.
Qed.

Lemma bisect_total (element_first : bool) (key : V) (l : list V) (lo hi : nat) (s : St) :
  (hi <= length l)%nat -> is_Some (bisect V St comparefn element_first key l lo hi s).
Proof.
  intros Hhi. unfold bisect.
  destruct (loop_spec (bisect_body V St comparefn element_first key l)
              (fun t => (t.1.2 - t.1.1)%nat) (fun t => (t.1.2 <= length l)%nat) (fun _ => True))
    with (fuel := S (hi - lo)) (s := (lo, hi, s)) as (r & -> & _);
    [| done | simpl; lia | eauto].
  intros [[lo' hi'] s'] Hinv. cbn [fst snd] in Hinv. unfold bisect_body.
  destruct (Nat.ltb_spec lo' hi') as [Hlt |]; [| done].
  pose proof (Nat.div_lt (hi' - lo') 2 ltac:(lia) ltac:(lia)) as Hhalf.
  set (half := ((hi' - lo') / 2)%nat) in *.
  destruct (compare_at_total element_first key l (lo' + half) s' ltac:(lia))
    as [[negative s''] ->]. cbn -[Nat.div]. fold half.
  destruct (Bool.eqb negative element_first); cbn [fst snd]; lia.
Qed.

(** Binary insertion keeps the elements. *)
Lemma BinaryInsertionSort_spec (todo : list V) :
  forall run s,
    exists run' s', BinaryInsertionSort V St comparefn run todo s = Some (run', s')
                    /\ run' ≡ₚ run ++ todo.
Proof.
  induction todo as [| pivot todo IH]; intros run s; cbn [BinaryInsertionSort].
  - exists run, s. by rewrite app_nil_r.
  - destruct (bisect_total false pivot run 0 (length run) s ltac:(done))
      as [[[position hi] s'] ->]. cbn.
    destruct (IH (take position run ++ pivot :: drop position run) s')
      as (run' & s'' & -> & Hperm).
    exists run', s''. split; [done |]. rewrite Hperm.
    rewrite <- (take_drop position run) at 3.
    rewrite <- !app_assoc. apply Permutation_app_head.
    cbn. by rewrite Permutation_middle.
Qed.

Lemma gallop_total (element_first continue_if_negative : bool) (key : V) (l : list V)
    (index_of : nat -> nat) (maxOfs : nat) (s : St) :
  (forall o, (o < maxOfs)%nat -> (index_of o < length l)%nat) ->
  exists lastOfs offset s',
    gallop V St comparefn element_first continue_if_negative key l index_of maxOfs s
    = Some (lastOfs, offset, s')
    /\ (offset <= maxOfs)%nat /\ (lastOfs < maxOfs \/ lastOfs = 0)%nat.
Proof.
  intros Hindex. unfold gallop.
  destruct (loop_spec
              (gallop_body V St comparefn element_first continue_if_negative key l index_of maxOfs)
              (fun t => (maxOfs - t.1.2)%nat)
              (fun t => (t.1.1 < maxOfs \/ t.1.1 = 0)%nat)
              (fun t => (t.1.1 < maxOfs \/ t.1.1 = 0)%nat))
    with (fuel := S maxOfs) (s := (0%nat, 1%nat, s)) as ([[lastOfs offset] s'] & -> & Hpost);
    [| cbn; lia | cbn; lia |].
  - intros [[lastOfs offset] s'] Hinv. cbn [fst snd] in *. unfold gallop_body.
    destruct (Nat.ltb_spec offset maxOfs) as [Hlt |]; [| done].
    destruct (compare_at_total element_first key l (index_of offset) s' (Hindex _ Hlt))
      as [[negative s''] ->]. cbn.
    destruct (Bool.eqb negative continue_if_negative); cbn [fst snd]; lia.
  - cbn. exists lastOfs, (Nat.min offset maxOfs), s'. cbn [fst snd] in Hpost.
    split; [done |]. lia.
Qed.

Lemma GallopLeft_total (key : V) (l : list V) (hint : nat) (s : St) :
  (hint < length l)%nat -> is_Some (GallopLeft V St comparefn key l hint s).
Proof.
  intros Hhint. unfold GallopLeft.
  destruct (compare_at_total true key l hint s Hhint) as [[negative s1] ->]. cbn [mbind option_bind].
  destruct negative.
  - destruct (gallop_total true true key l (fun o => (hint + o)%nat) (length l - hint) s1)
      as (lastOfs & offset & s2 & -> & Hoffset & _); [intros; lia |]. cbn [mbind option_bind].
    destruct (bisect_total true key l (S (lastOfs + hint)) (offset + hint) s2 ltac:(lia))
      as [[[lo hi] s3] ->]. cbn [mbind option_bind]. eauto.
  - destruct (gallop_total true false key l (fun o => (hint - o)%nat) (S hint) s1)
      as (lastOfs & offset & s2 & -> & _ & _); [intros; lia |]. cbn [mbind option_bind].
    destruct (bisect_total true key l (S hint - offset) (hint - lastOfs) s2 ltac:(lia))
      as [[[lo hi] s3] ->]. cbn [mbind option_bind]. eauto.
Qed.

Lemma GallopRight_total (key : V) (l : list V) (hint : nat) (s : St) :
  (hint < length l)%nat -> is_Some (GallopRight V St comparefn key l hint s).
Proof.
  intros Hhint. unfold GallopRight.
  destruct (compare_at_total false key l hint s Hhint) as [[negative s1] ->]. cbn [mbind option_bind].
  destruct negative.
  - destruct (gallop_total false true key l (fun o => (hint - o)%nat) (S hint) s1)
      as (lastOfs & offset & s2 & -> & _ & _); [intros; lia |]. cbn [mbind option_bind].
    destruct (bisect_total false key l (S hint - offset) (hint - lastOfs) s2 ltac:(lia))
      as [[[lo hi] s3] ->]. cbn [mbind option_bind]. eauto.
  - destruct (gallop_total false false key l (fun o => (hint + o)%nat) (length l - hint) s1)
      as (lastOfs & offset & s2 & -> & Hoffset & _); [intros; lia |]. cbn [mbind option_bind].
    destruct (bisect_total false key l (S (lastOfs + hint)) (offset + hint) s2 ltac:(lia))
      as [[[lo hi] s3] ->]. cbn [mbind option_bind]. eauto.
Qed.


(** Tests on lengths, as facts. *)
Ltac length_tests :=
  repeat match goal with
  | H : (_ =? _)%nat = true |- _ => apply Nat.eqb_eq in H
  | H : (_ =? _)%nat = false |- _ => apply Nat.eqb_neq in H
  | H : (_ <=? _)%nat = true |- _ => apply Nat.leb_le in H
  | H : (_ <=? _)%nat = false |- _ => apply Nat.leb_gt in H
  | H : (_ <? _)%nat = true |- _ => apply Nat.ltb_lt in H
  | H : (_ <? _)%nat = false |- _ => apply Nat.ltb_ge in H
  | H : _ && _ = true |- _ => apply andb_true_iff in H as [? ?]
  | H : _ || _ = true |- _ => apply orb_true_iff in H
  | H : _ || _ = false |- _ => apply orb_false_iff in H as [? ?]
  end.

(** A permutation of concatenations, once reversals are dropped. *)
Ltac rearranged :=
  repeat rewrite <- Permutation_rev; solve_Permutation.

(** What a merge loop keeps: the lengths that let it go on, and the
    elements. *)
Definition merging (minA minB : nat) (all : list V) (t : merge_state V St) : Prop :=
  (minA <= length (runA V St t))%nat /\ (minB <= length (runB V St t))%nat
  /\ placed V St t ++ runA V St t ++ runB V St t ≡ₚ all.

Definition merge_measure (t : merge_state V St) : nat :=
  (length (runA V St t) + length (runB V St t))%nat.

Lemma MergeLow_pairs_body_spec (all : list V) (t : merge_state V St) (nofWinsA nofWinsB : nat) :
  merging 2 1 all t ->
  match MergeLow_pairs_body V St comparefn t nofWinsA nofWinsB with
  | Some (inl t') => merging 2 1 all t' /\ (merge_measure t' < merge_measure t)%nat
  | Some (inr r) => r.1.1 ≡ₚ all
  | None => False
  end.
Proof.
  destruct t as [out A B m mg s]. unfold merging, merge_measure, MergeLow_pairs_body.
  cbn [placed runA runB mode minGallop comparator].
  intros (HA & HB & Hall).
  destruct A as [| a restA]; [simpl in HA; lia |].
  destruct B as [| b restB]; [simpl in HB; lia |].
  destruct (Compare V St comparefn b a s) as [[] s'].
  - destruct (length restB =? 0)%nat eqn:HrestB; length_tests.
    + destruct restB; [| done]. cbn [fst]. rewrite <- Hall. rearranged.
    + cbn [length] in *.
      destruct (mg <=? S nofWinsB)%nat;
        cbn [placed runA runB mode minGallop comparator length];
        (split; [split; [lia | split; [lia | rewrite <- Hall; rearranged]] | lia]).
  - destruct (length restA =? 1)%nat eqn:HrestA; length_tests.
    + cbn [fst]. rewrite <- Hall. rearranged.
    + cbn [length] in *.
      destruct (mg <=? S nofWinsA)%nat;
        cbn [placed runA runB mode minGallop comparator length];
        (split; [split; [lia | split; [lia | rewrite <- Hall; rearranged]] | lia]).
Qed.


Lemma MergeLow_gallop_body_spec (all : list V) (t : merge_state V St) :
  merging 2 1 all t ->
  match MergeLow_gallop_body V St comparefn t with
  | Some (inl t') => merging 2 1 all t' /\ (merge_measure t' < merge_measure t)%nat
  | Some (inr r) => r.1.1 ≡ₚ all
  | None => False
  end.
Proof.
  destruct t as [out A B m mg s]. unfold merging, merge_measure, MergeLow_gallop_body.
  cbn [placed runA runB mode minGallop comparator].
  intros (HA & HB & Hall).
  destruct B as [| b restB]; [simpl in HB; lia |]. cbn [head tail mbind option_bind].
  destruct (GallopRight_total b A 0 s ltac:(lia)) as [[nofWinsA s1] ->].
  cbn [mbind option_bind].
  rewrite <- (take_drop nofWinsA A) in Hall.
  pose proof (length_drop A nofWinsA) as HlenA.
  destruct (drop nofWinsA A) as [| a restA] eqn:HdropA.
  { cbn [length] in HlenA.
    destruct (0 <? nofWinsA)%nat eqn:Hwins; length_tests; [| lia].
    cbn [length Nat.eqb andb fst]. rewrite <- Hall. rearranged. }
  cbn [length] in HlenA.
  destruct ((0 <? nofWinsA)%nat && (length (a :: restA) =? 1)%nat) eqn:Hone.
  { cbn [fst]. rewrite <- Hall. rearranged. }
  destruct ((0 <? nofWinsA)%nat && (length (a :: restA) =? 0)%nat) eqn:Hnone.
  { length_tests. done. }
  assert (HrestA : (1 <= length restA)%nat).
  { destruct (0 <? nofWinsA)%nat eqn:Hwins; cbn [andb length] in Hone; length_tests; lia. }
  clear Hone Hnone.
  destruct (length restB =? 0)%nat eqn:HrestB; length_tests.
  { destruct restB; [| done]. cbn [fst]. rewrite <- Hall. rearranged. }
  cbn [head mbind option_bind].
  destruct (GallopLeft_total a restB 0 s1 ltac:(lia)) as [[nofWinsB s2] ->].
  cbn [mbind option_bind].
  rewrite <- (take_drop nofWinsB restB) in Hall.
  pose proof (length_drop restB nofWinsB) as HlenB.
  destruct ((0 <? nofWinsB)%nat && (length (drop nofWinsB restB) =? 0)%nat) eqn:Hdone.
  { length_tests. destruct (drop nofWinsB restB); [| done].
    cbn [fst]. rewrite <- Hall. rearranged. }
  assert (HrestB' : (1 <= length (drop nofWinsB restB))%nat).
  { destruct (0 <? nofWinsB)%nat eqn:Hwins; cbn [andb] in Hdone; length_tests; lia. }
  clear Hdone. cbn [tail].
  destruct (length restA =? 1)%nat eqn:Hlast; length_tests.
  { cbn [fst]. rewrite <- Hall. rearranged. }
  destruct ((kMinGallopWins <=? nofWinsA)%nat || (kMinGallopWins <=? nofWinsB)%nat);
    cbn [placed runA runB mode minGallop comparator length];
    (split; [split; [lia | split; [lia | rewrite <- Hall; rearranged]] | lia]).
Qed.

Lemma MergeLow_spec (A B : list V) (minGallop : nat) (s : St) :
  A <> [] -> B <> [] ->
  exists r, MergeLow V St comparefn A B minGallop s = Some r /\ r.1.1 ≡ₚ A ++ B.
Proof.
  intros HA HB. unfold MergeLow.
  destruct B as [| b restB]; [done |].
  destruct (length restB =? 0)%nat eqn:HrestB; length_tests.
  { destruct restB; [| done]. eexists. split; [done |]. cbn [fst]. rearranged. }
  destruct (length A =? 1)%nat eqn:HlenA; length_tests.
  { eexists. split; [done |]. cbn [fst]. rearranged. }
  apply (loop_spec (MergeLow_body V St comparefn) merge_measure (merging 2 1 (A ++ b :: restB))).
  - intros t Ht. unfold MergeLow_body. destruct (mode V St t).
    + by apply MergeLow_pairs_body_spec.
    + by apply MergeLow_gallop_body_spec.
  - unfold merging. cbn [placed runA runB]. destruct A as [| a [| a' A]]; [done | done |].
    split; [simpl; lia |]. split; [lia |]. rearranged.
  - unfold merge_measure. cbn [runA runB]. lia.
Qed.


Lemma MergeHigh_pairs_body_spec (all : list V) (t : merge_state V St) (nofWinsA nofWinsB : nat) :
  merging 1 2 all t ->
  match MergeHigh_pairs_body V St comparefn t nofWinsA nofWinsB with
  | Some (inl t') => merging 1 2 all t' /\ (merge_measure t' < merge_measure t)%nat
  | Some (inr r) => r.1.1 ≡ₚ all
  | None => False
  end.
Proof.
  destruct t as [out A B m mg s]. unfold merging, merge_measure, MergeHigh_pairs_body.
  cbn [placed runA runB mode minGallop comparator].
  intros (HA & HB & Hall).
  destruct A as [| a restA]; [simpl in HA; lia |].
  destruct B as [| b restB]; [simpl in HB; lia |].
  destruct (Compare V St comparefn b a s) as [[] s'].
  - destruct (length restA =? 0)%nat eqn:HrestA; length_tests.
    + destruct restA; [| done]. cbn [fst]. rewrite <- Hall. rearranged.
    + cbn [length] in *.
      destruct (mg <=? S nofWinsA)%nat;
        cbn [placed runA runB mode minGallop comparator length];
        (split; [split; [lia | split; [lia | rewrite <- Hall; rearranged]] | lia]).
  - destruct (length restB =? 1)%nat eqn:HrestB; length_tests.
    + cbn [fst]. rewrite <- Hall. rearranged.
    + cbn [length] in *.
      destruct (mg <=? S nofWinsB)%nat;
        cbn [placed runA runB mode minGallop comparator length];
        (split; [split; [lia | split; [lia | rewrite <- Hall; rearranged]] | lia]).
Qed.

Lemma MergeHigh_gallop_body_spec (all : list V) (t : merge_state V St) :
  merging 1 2 all t ->
  match MergeHigh_gallop_body V St comparefn t with
  | Some (inl t') => merging 1 2 all t' /\ (merge_measure t' < merge_measure t)%nat
  | Some (inr r) => r.1.1 ≡ₚ all
  | None => False
  end.
Proof.
  destruct t as [out A B m mg s]. unfold merging, merge_measure, MergeHigh_gallop_body.
  cbn [placed runA runB mode minGallop comparator].
  intros (HA & HB & Hall).
  destruct B as [| b restB]; [simpl in HB; lia |]. cbn [head tail mbind option_bind].
  cbn [length] in HB.
  destruct (GallopRight_total b (rev A) (length A - 1) s ltac:(rewrite length_rev; lia))
    as [[k s1] ->].
  cbn [mbind option_bind].
  set (nofWinsA := (length A - k)%nat).
  rewrite <- (take_drop nofWinsA A) in Hall.
  pose proof (length_drop A nofWinsA) as HlenA.
  destruct ((0 <? nofWinsA)%nat && (length (drop nofWinsA A) =? 0)%nat) eqn:Hdone.
  { length_tests. destruct (drop nofWinsA A); [| done].
    cbn [fst]. rewrite <- Hall. rearranged. }
  assert (HrestA : (1 <= length (drop nofWinsA A))%nat).
  { destruct (0 <? nofWinsA)%nat eqn:Hwins; cbn [andb] in Hdone; length_tests; lia. }
  clear Hdone.
  destruct (length restB =? 1)%nat eqn:HrestB; length_tests.
  { cbn [fst]. rewrite <- Hall. rearranged. }
  destruct (drop nofWinsA A) as [| a restA] eqn:HdropA; [simpl in HrestA; lia |].
  cbn [head tail mbind option_bind].
  destruct (GallopLeft_total a (rev restB) (length restB - 1) s1 ltac:(rewrite length_rev; lia))
    as [[k' s2] ->].
  cbn [mbind option_bind].
  set (nofWinsB := (length restB - k')%nat).
  rewrite <- (take_drop nofWinsB restB) in Hall.
  pose proof (length_drop restB nofWinsB) as HlenB.
  destruct ((0 <? nofWinsB)%nat && (length (drop nofWinsB restB) =? 1)%nat) eqn:Hone.
  { cbn [fst]. rewrite <- Hall. rearranged. }
  destruct ((0 <? nofWinsB)%nat && (length (drop nofWinsB restB) =? 0)%nat) eqn:Hnone.
  { length_tests. destruct (drop nofWinsB restB); [| done].
    cbn [fst]. rewrite <- Hall. rearranged. }
  assert (HrestB' : (2 <= length (drop nofWinsB restB))%nat).
  { destruct (0 <? nofWinsB)%nat eqn:Hwins; cbn [andb] in Hone, Hnone; length_tests; lia. }
  clear Hone Hnone.
  destruct (length restA =? 0)%nat eqn:Hlast; length_tests.
  { destruct restA; [| done]. cbn [fst]. rewrite <- Hall. rearranged. }
  cbn [length] in *.
  destruct ((kMinGallopWins <=? nofWinsA)%nat || (kMinGallopWins <=? nofWinsB)%nat);
    cbn [placed runA runB mode minGallop comparator length];
    (split; [split; [lia | split; [lia | rewrite <- Hall; rearranged]] | lia]).
Qed.

Lemma MergeHigh_spec (A B : list V) (minGallop : nat) (s : St) :
  A <> [] -> B <> [] ->
  exists r, MergeHigh V St comparefn A B minGallop s = Some r /\ r.1.1 ≡ₚ A ++ B.
Proof.
  intros HA HB. unfold MergeHigh.
  assert (HrevA : A ≡ₚ rev A) by apply Permutation_rev.
  pose proof (length_rev A) as HlenA.
  destruct (rev A) as [| a restA].
  { destruct A; [done | simpl in HlenA; lia]. }
  setoid_rewrite HrevA. clear HrevA HlenA HA.
  destruct (length restA =? 0)%nat eqn:HrestA; length_tests.
  { destruct restA; [| done]. eexists. split; [done |]. cbn [fst]. rearranged. }
  destruct (length B =? 1)%nat eqn:HlenB; length_tests.
  { eexists. split; [done |]. cbn [fst]. rearranged. }
  apply (loop_spec (MergeHigh_body V St comparefn) merge_measure
           (merging 1 2 ((a :: restA) ++ B))).
  - intros t Ht. unfold MergeHigh_body. destruct (mode V St t).
    + by apply MergeHigh_pairs_body_spec.
    + by apply MergeHigh_gallop_body_spec.
  - unfold merging. cbn [placed runA runB]. rewrite length_rev.
    destruct B as [| b [| b' B]]; [done | done |].
    split; [lia |]. split; [simpl; lia |]. rearranged.
  - unfold merge_measure. cbn [runA runB]. rewrite length_rev. lia.
Qed.

(** [MergeAt] makes one run of two, with the elements of both. *)
Lemma MergeAt_spec (A B : list V) (minGallop : nat) (s : St) :
  A <> [] -> B <> [] ->
  exists r, MergeAt V St comparefn A B minGallop s = Some r
            /\ r.1.1 ≡ₚ A ++ B /\ r.1.1 <> [].
Proof.
  intros HA HB.
  assert (Hne : forall r : list V, r ≡ₚ A ++ B -> r <> []).
  { intros r Hperm ->. apply Permutation_nil in Hperm.
    destruct A; [done | discriminate Hperm]. }
  enough (exists r, MergeAt V St comparefn A B minGallop s = Some r /\ r.1.1 ≡ₚ A ++ B)
    as (r & Hr & Hperm) by (exists r; eauto).
  unfold MergeAt.
  destruct B as [| keyRight restB]; [done |].
  cbn [head mbind option_bind]. remember (keyRight :: restB) as B eqn:HeqB.
  destruct (GallopRight_total keyRight A 0 s) as [[k s1] ->].
  { destruct A; [done | simpl; lia]. }
  cbn [mbind option_bind].
  destruct (length (drop k A) =? 0)%nat eqn:HdropA; length_tests.
  { eexists. split; [done |]. done. }
  assert (HA' : drop k A <> []) by (by destruct (drop k A)).
  destruct (last (drop k A)) as [keyLeft |] eqn:Hlast;
    [| by apply last_None in Hlast].
  cbn [mbind option_bind].
  destruct (GallopLeft_total keyLeft B (length B - 1) s1) as [[lengthB s2] ->].
  { subst B. simpl. lia. }
  cbn [mbind option_bind].
  destruct (lengthB =? 0)%nat eqn:HlengthB; length_tests.
  { eexists. split; [done |]. done. }
  assert (HB' : take lengthB B <> []).
  { subst B. destruct lengthB; [lia | done]. }
  assert (Hparts : forall middle : list V,
             middle ≡ₚ drop k A ++ take lengthB B ->
             take k A ++ middle ++ drop lengthB B ≡ₚ A ++ B).
  { intros middle ->.
    transitivity ((take k A ++ drop k A) ++ (take lengthB B ++ drop lengthB B));
      [rearranged | by rewrite !take_drop]. }
  destruct (length (drop k A) <=? lengthB)%nat.
  - destruct (MergeLow_spec (drop k A) (take lengthB B) minGallop s2 HA' HB')
      as ([[middle minGallop'] s3] & -> & Hperm).
    cbn [mbind option_bind]. eexists. split; [done |]. cbn [fst] in *. by apply Hparts.
  - destruct (MergeHigh_spec (drop k A) (take lengthB B) minGallop s2 HA' HB')
      as ([[middle minGallop'] s3] & -> & Hperm).
    cbn [mbind option_bind]. eexists. split; [done |]. cbn [fst] in *. by apply Hparts.
Qed.


(** What the stack of pending runs keeps: no run is empty, and the runs
    hold the elements of [all]. *)
Definition stacked (all : list V) (t : pending V St) : Prop :=
  Forall (fun run => run <> []) t.1.1 /\ concat t.1.1 ≡ₚ all.

Lemma merge_latest_spec (all : list V) (t : pending V St) :
  stacked all t -> (2 <= length t.1.1)%nat ->
  exists t', merge_latest V St comparefn t = Some t'
             /\ stacked all t' /\ (length t'.1.1 < length t.1.1)%nat.
Proof.
  destruct t as [[runs minGallop] s]. unfold stacked. cbn [fst snd].
  intros [Hruns Hall] Hlen.
  destruct runs as [| run0 [| run1 below]]; [simpl in Hlen; lia | simpl in Hlen; lia |].
  apply Forall_cons in Hruns as [Hrun0 Hruns]. apply Forall_cons in Hruns as [Hrun1 Hbelow].
  unfold merge_latest.
  destruct (MergeAt_spec run1 run0 minGallop s Hrun1 Hrun0)
    as ([[run minGallop'] s'] & -> & Hperm & Hne).
  cbn [mbind option_bind fst snd] in *. eexists. split; [done |]. cbn [fst snd].
  split; [split |].
  - by apply Forall_cons.
  - rewrite <- Hall. cbn [concat]. rewrite Hperm. rearranged.
  - simpl. lia.
Qed.

Lemma merge_below_latest_spec (all : list V) (t : pending V St) :
  stacked all t -> (3 <= length t.1.1)%nat ->
  exists t', merge_below_latest V St comparefn t = Some t'
             /\ stacked all t' /\ (length t'.1.1 < length t.1.1)%nat.
Proof.
  destruct t as [[runs minGallop] s]. unfold stacked. cbn [fst snd].
  intros [Hruns Hall] Hlen.
  destruct runs as [| run0 [| run1 [| run2 below]]]; try (simpl in Hlen; lia).
  apply Forall_cons in Hruns as [Hrun0 Hruns]. apply Forall_cons in Hruns as [Hrun1 Hruns].
  apply Forall_cons in Hruns as [Hrun2 Hbelow].
  unfold merge_below_latest.
  destruct (MergeAt_spec run2 run1 minGallop s Hrun2 Hrun1)
    as ([[run minGallop'] s'] & -> & Hperm & Hne).
  cbn [mbind option_bind fst snd] in *. eexists. split; [done |]. cbn [fst snd].
  split; [split |].
  - apply Forall_cons. split; [done |]. by apply Forall_cons.
  - rewrite <- Hall. cbn [concat]. rewrite Hperm. rearranged.
  - simpl. lia.
Qed.

Ltac merged_runs t Ht :=
  first
    [ destruct (merge_latest_spec _ t Ht ltac:(simpl; lia)) as (? & -> & ? & ?)
    | destruct (merge_below_latest_spec _ t Ht ltac:(simpl; lia)) as (? & -> & ? & ?) ];
  cbn [fmap option_fmap option_map]; split; assumption.

Lemma MergeCollapse_spec (all : list V) (t : pending V St) :
  stacked all t ->
  exists t', MergeCollapse V St comparefn t = Some t' /\ stacked all t'.
Proof.
  intros Ht. unfold MergeCollapse.
  apply (loop_spec (MergeCollapse_body V St comparefn) (fun t => length t.1.1) (stacked all));
    [| done | lia].
  clear t Ht. intros t Ht. unfold MergeCollapse_body.
  destruct t as [[runs minGallop] s]. cbn [fst snd] in *.
  destruct runs as [| run0 [| run1 below]]; [done | done |].
  set (t := (run0 :: run1 :: below, minGallop, s)) in *.
  destruct below as [| run2 below'].
  - destruct (length run1 <=? length run0)%nat; [| done]. merged_runs t Ht.
  - destruct (_ || _).
    + destruct (length run2 <? length run0)%nat; merged_runs t Ht.
    + destruct (length run1 <=? length run0)%nat; [| done]. merged_runs t Ht.
Qed.

Lemma MergeForceCollapse_spec (all : list V) (t : pending V St) :
  stacked all t ->
  exists t', MergeForceCollapse V St comparefn t = Some t'
             /\ stacked all t' /\ (length t'.1.1 <= 1)%nat.
Proof.
  intros Ht. unfold MergeForceCollapse.
  apply (loop_spec (MergeForceCollapse_body V St comparefn) (fun t => length t.1.1)
           (stacked all)); [| done | lia].
  clear t Ht. intros t Ht. unfold MergeForceCollapse_body.
  destruct t as [[runs minGallop] s]. cbn [fst snd] in *.
  destruct runs as [| run0 [| run1 below]]; [split; [done | simpl; lia] .. |].
  set (t := (run0 :: run1 :: below, minGallop, s)) in *.
  destruct below as [| run2 below'].
  - merged_runs t Ht.
  - destruct (length run2 <? length run0)%nat; merged_runs t Ht.
Qed.


(** The loop of [ArrayTimSortImpl] keeps the elements: those of the
    pending runs and of the remaining range are those to sort. *)
Definition sorting (all : list V) (t : pending V St * list V) : Prop :=
  Forall (fun run => run <> []) t.1.1.1 /\ concat t.1.1.1 ++ t.2 ≡ₚ all.

Lemma ArrayTimSortImpl_body_spec (minRunLength : nat) (all : list V)
    (t : pending V St * list V) :
  sorting all t ->
  match ArrayTimSortImpl_body V St comparefn minRunLength t with
  | Some (inl t') => sorting all t' /\ (length t'.2 < length t.2)%nat
  | Some (inr r) => stacked all r
  | None => False
  end.
Proof.
  destruct t as [[[runs minGallop] s] remaining]. unfold sorting, ArrayTimSortImpl_body.
  cbn [fst snd]. intros [Hruns Hall].
  destruct (length remaining =? 0)%nat eqn:Hremaining; length_tests.
  { destruct remaining; [| done]. split; [done |]. by rewrite app_nil_r in Hall. }
  assert (Hne : remaining <> []) by (by destruct remaining).
  pose proof (CountAndMakeRun_spec remaining s Hne) as Hrun.
  destruct (CountAndMakeRun V St comparefn remaining s) as [[found range] s1].
  destruct Hrun as [Hfound Hrange].
  pose proof (Permutation_length Hrange) as Hlength.
  assert (Hpushed : forall (n : nat) (range' : list V) (s2 : St),
            (1 <= n)%nat -> range' ≡ₚ remaining ->
            match
              '(runs', minGallop', s3) ←
                MergeCollapse V St comparefn (take n range' :: runs, minGallop, s2);
              Some (inl (runs', minGallop', s3, drop n range'))
            with
            | Some (inl t') =>
                (Forall (fun run => run <> []) t'.1.1.1 /\ concat t'.1.1.1 ++ t'.2 ≡ₚ all)
                /\ (length t'.2 < length remaining)%nat
            | Some (inr r) => stacked all (r : pending V St)
            | None => False
            end).
  { intros n range' s2 Hn Hrange'.
    pose proof (Permutation_length Hrange') as Hlength'.
    assert (Htake : take n range' <> []).
    { destruct range'; [simpl in Hlength'; lia |]. destruct n; [lia | done]. }
    destruct (MergeCollapse_spec (take n range' ++ concat runs)
                (take n range' :: runs, minGallop, s2))
      as ([[runs' minGallop'] s3] & -> & Hruns' & Hperm).
    { split; [by apply Forall_cons | done]. }
    cbn [mbind option_bind fst snd] in *. split; [split; [done |] |].
    - rewrite Hperm, <- Hall, <- Hrange'.
      transitivity (concat runs ++ (take n range' ++ drop n range'));
        [rearranged | by rewrite take_drop].
    - rewrite length_drop. lia. }
  destruct (found <? minRunLength)%nat eqn:Hshort; length_tests.
  - set (forced := Nat.min minRunLength (length remaining)).
    destruct (BinaryInsertionSort_spec
                (take (forced - found) (drop found range)) (take found range) s1)
      as (run & s2 & -> & Hperm).
    cbn [mbind option_bind]. apply Hpushed; [lia |].
    rewrite Hperm, <- Hrange.
    replace (drop forced range) with (drop (forced - found) (drop found range))
      by (rewrite drop_drop; f_equal; lia).
    by rewrite <- app_assoc, !take_drop.
  - cbn [mbind option_bind]. apply Hpushed; [lia | done].
Qed.

(** [ArrayTimSortImpl] returns, and what it returns is a permutation of
    the elements it was given. *)
Lemma ArrayTimSortImpl_spec (l : list V) (s : St) :
  exists sorted s', ArrayTimSortImpl V St comparefn l s = Some (sorted, s')
                    /\ sorted ≡ₚ l.
Proof.
  unfold ArrayTimSortImpl. destruct (length l <? 2)%nat; [eauto |].
  destruct (ComputeMinRunLength_total (length l)) as [minRunLength ->].
  cbn [mbind option_bind].
  destruct (loop_spec (ArrayTimSortImpl_body V St comparefn minRunLength)
              (fun t => length t.2) (sorting l) (stacked l))
    with (fuel := S (length l)) (s := ([] : list (list V), kMinGallopWins, s, l))
    as (t & -> & Ht).
  - intros t Ht. by apply ArrayTimSortImpl_body_spec.
  - split; [constructor | done].
  - cbn [snd]. lia.
  - cbn [mbind option_bind].
    destruct (MergeForceCollapse_spec l t Ht)
      as ([[runs minGallop] s'] & -> & [_ Hperm] & Hone).
    cbn [mbind option_bind fst snd] in *. eexists _, _. split; [done |].
    by destruct runs as [| run [| run' runs]]; [| | simpl in Hone; lia].
Qed.

(** With fewer than two elements no comparator call is made. *)
Lemma ArrayTimSortImpl_short (l : list V) (s : St) :
  (length l <= 1)%nat -> ArrayTimSortImpl V St comparefn l s = Some (l, s).
Proof.
  intros Hlen. unfold ArrayTimSortImpl.
  by destruct (Nat.ltb_spec (length l) 2) as [_ |]; [| lia].
Qed.

Variable is_undefined : V -> bool.

(** The engine's sort returns, with a permutation of the elements. *)
Theorem sort_spec (l : list V) (s : St) :
  exists sorted s', sort V St comparefn is_undefined l s = Some (sorted, s')
                    /\ sorted ≡ₚ l.
Proof.
  unfold sort.
  destruct (ArrayTimSortImpl_spec (List.filter (fun x => negb (is_undefined x)) l) s)
    as (sorted & s' & -> & Hperm).
  cbn [mbind option_bind]. eexists _, _. split; [done |].
  rewrite Hperm. clear.
  induction l as [| x l IH]; [done |]. cbn [List.filter].
  destruct (is_undefined x); cbn [negb app].
  - rewrite <- Permutation_middle. by constructor.
  - by constructor.
Qed.

Lemma sort_short (l : list V) (s : St) :
  (length l <= 1)%nat -> sort V St comparefn is_undefined l s = Some (l, s).
Proof.
  intros Hlen. unfold sort.
  destruct l as [| x [| y l]]; [done | | simpl in Hlen; lia].
  cbn [List.filter]. by destruct (is_undefined x).
Qed.

End TimSort.
End ArraySortFacts.

(** ** RandomUtils *)

Module RandomUtilsFacts.
Import Radix16 Radix16Facts RandomUtils.

Lemma join_defined (xs : list (option ascii)) :
  Forall (fun o => exists c, o = Some c /\ is_alnum c = true) xs ->
  String.length (join xs) = length xs /\ all_chars is_alnum (join xs) = true.
Proof.
  induction 1 as [| o xs (c & -> & Hc) _ [IHlen IHall]]; simpl; [done |].
  rewrite IHlen, Hc, IHall. done.
Qed.

(** Every index below the length of [characters] holds a letter or digit. *)
Lemma characters_get (n : nat) :
  (n < String.length characters)%nat ->
  exists c, String.get n characters = Some c /\ is_alnum c = true.
Proof.
  intros Hn. simpl in Hn.
  do 62 (destruct n as [| n]; [eexists; split; reflexivity |]).
  lia.
Qed.

Section Oracle.

Variable draws : nat -> Q.
Hypothesis draws_range : forall i, (0 <= draws i < 1)%Q.

(** [Math.floor(Math.random() * k)] is one of [0 .. k - 1]. *)
Lemma floor_scaled_range (i : nat) (k : Z) :
  0 < k -> 0 <= floor_scaled draws i k < k.
Proof.
  intros Hk. unfold floor_scaled.
  destruct (draws_range i) as [Hlo Hhi].
  destruct (draws i) as [n d].
  unfold Qle in Hlo. unfold Qlt in Hhi. cbn [Qnum Qden] in Hlo, Hhi.
  unfold Qfloor, Qmult, inject_Z. cbn [Qnum Qden].
  rewrite Pos.mul_1_r. split.
  - apply Z.div_pos; nia.
  - apply Z.div_lt_upper_bound; nia.
Qed.

Lemma pick_character_defined (i : nat) :
  exists c, pick_character draws i = Some c /\ is_alnum c = true.
Proof.
  unfold pick_character.
  pose proof (floor_scaled_range i (Z.of_nat (String.length characters))
                ltac:(simpl; lia)) as [Hlo Hhi].
  destruct (Z.ltb_spec (floor_scaled draws i (Z.of_nat (String.length characters))) 0);
    [lia |].
  apply characters_get. lia.
Qed.

Lemma array_from_defined (n : nat) :
  forall i,
    length (array_from draws n i).1 = n
    /\ (array_from draws n i).2 = (i + n)%nat
    /\ Forall (fun o => exists c, o = Some c /\ is_alnum c = true)
              (array_from draws n i).1.
Proof.
  induction n as [| n IH]; intros i; simpl.
  - repeat split; [lia | constructor].
  - specialize (IH (S i)). destruct (array_from draws n (S i)) as [rest j].
    simpl in *. destruct IH as (Hlen & Hj & Hall).
    repeat split; [lia | lia |].
    constructor; [apply pick_character_defined | done].
Qed.

(** C1, as the code has it.  For an integer length from 0 to 2^32 - 1,
    [randomString] returns a string of exactly that length, and every
    character of it is one of 'A'-'Z', 'a'-'z', '0'-'9', the 62 characters
    of [characters]. *)
Theorem randomString_length_and_charset (length : Z) (i : nat) :
  0 <= length < 4294967296 ->
  exists result,
    (randomString draws length i).1 = JS.Normal result
    /\ Z.of_nat (String.length result) = length
    /\ all_chars is_alnum result = true
    /\ String.length characters = 62%nat.
Proof.
  intros Hlen. unfold randomString.
  destruct (Z.leb_spec 4294967296 length) as [Hbig | _]; [lia |].
  pose proof (array_from_defined (Z.to_nat length) i) as (Hn & _ & Hall).
  destruct (array_from draws (Z.to_nat length) i) as [arr j]. simpl in *.
  destruct (join_defined arr Hall) as [Hjoin Halnum].
  exists (join arr). repeat split; [lia | done].
Qed.

(** A negative length is clamped: the result is the empty string, and no
    draw is used. *)
Theorem randomString_negative (length : Z) (i : nat) :
  length < 0 -> randomString draws length i = (JS.Normal EmptyString, i).
Proof.
  intros Hneg. unfold randomString.
  destruct (Z.leb_spec 4294967296 length) as [Hbig | _]; [lia |].
  replace (Z.to_nat length) with 0%nat by lia. reflexivity.
Qed.

(** A length that is no array length is refused before any draw. *)
Lemma randomString_too_long (length : Z) (i : nat) :
  4294967296 <= length -> randomString draws length i = (JS.Throw JS.RangeError, i).
Proof.
  intros Hbig. unfold randomString.
  by destruct (Z.leb_spec 4294967296 length) as [_ |]; [| lia].
Qed.

(** C9.  Whenever [randomColor] returns, the result has length 7: a '#'
    followed by six lower-case hexadecimal digits; and since the draw is
    floored against 16777215, the digits are never "ffffff". *)
Theorem randomColor_shape (fuel i : nat) (color : string) (j : nat) :
  randomColor draws fuel i = Some (color, j) ->
  String.length color = 7%nat
  /\ (exists digits, color = String "#" digits
        /\ String.length digits = 6%nat
        /\ all_chars is_lower_hex digits = true)
  /\ color <> "#ffffff"%string.
Proof.
  revert i. induction fuel as [| fuel IH]; intros i; [done |].
  cbn [randomColor].
  pose proof (floor_scaled_range i 16777215 ltac:(lia)) as Hrange.
  set (n := floor_scaled draws i 16777215) in *.
  destruct (Nat.eqb_spec (String.length (String "#" (toString16 n))) 7)
    as [Hlen | _]; [| apply IH].
  intros [= <- <-]. split; [exact Hlen |]. split.
  - exists (toString16 n). cbn [String.length] in Hlen.
    repeat split; [lia |].
    apply toString16_all_hex. lia.
  - intros [= Heq].
    pose proof (parse_toString16 n ltac:(lia)) as Hparse.
    rewrite Heq in Hparse.
    change (parse_hex 0 "ffffff") with (Some 16777215) in Hparse.
    injection Hparse. lia.
Qed.

(** [randomColor] returns as soon as a draw gives a six-digit value: with
    such a draw among the next [fuel] ones, the recursion ends within
    [fuel] attempts. *)
Lemma randomColor_returns (fuel : nat) :
  forall i k, (k < fuel)%nat ->
    1048576 <= floor_scaled draws (i + k) 16777215 ->
    exists color j, randomColor draws fuel i = Some (color, j).
Proof.
  induction fuel as [| fuel IH]; intros i k Hk Hbig; [lia |].
  cbn [randomColor].
  destruct (Nat.eqb_spec
              (String.length (String "#" (toString16 (floor_scaled draws i 16777215)))) 7)
    as [_ | Hlen]; [eauto |].
  destruct k as [| k].
  - exfalso. apply Hlen. cbn [String.length].
    rewrite Nat.add_0_r in Hbig.
    pose proof (floor_scaled_range i 16777215 ltac:(lia)).
    rewrite toString16_six_digits; lia.
  - apply (IH (S i) k); [lia |].
    by replace (S i + k)%nat with (i + S k)%nat by lia.
Qed.

(** In exact arithmetic the expression of [randomNumber] stays in range. *)
Lemma randomNumber_exact_range (min max : Z) (i : nat) :
  min <= max -> min <= (randomNumber draws min max i).1 <= max.
Proof.
  intros Hle. unfold randomNumber. cbn [fst].
  destruct (draws_range i) as [Hlo Hhi].
  destruct (draws i) as [n d].
  unfold Qle in Hlo. unfold Qlt in Hhi. cbn [Qnum Qden] in Hlo, Hhi.
  unfold Qfloor, Qplus, Qmult, inject_Z. cbn [Qnum Qden].
  rewrite !Pos.mul_1_r, !Z.mul_1_r. split.
  - apply Z.div_le_lower_bound; nia.
  - apply Z.lt_succ_r. apply Z.div_lt_upper_bound; nia.
Qed.

End Oracle.

(** *** [shuffleArray] *)

Section Shuffle.

Variable draws : nat -> Q.
Variable V : Type.
Variable is_undefined : V -> bool.

(** What a call does to the store: the order the engine's sort arrives at
    replaces the array's elements. *)
Lemma shuffleArray_store (h : gmap nat (list V)) (array : nat) (xs : list V) (i : nat) :
  h !! array = Some xs ->
  exists ys j,
    ArraySort.sort V nat (comparefn draws) is_undefined xs i = Some (ys, j)
    /\ ys ≡ₚ xs
    /\ shuffleArray draws is_undefined h array i = Some (array, <[array := ys]> h, j).
Proof.
  intros Hxs.
  destruct (ArraySortFacts.sort_spec V nat (comparefn draws) is_undefined xs i)
    as (ys & j & Hsort & Hperm).
  exists ys, j. split; [done |]. split; [done |].
  unfold shuffleArray, Array_sort. by rewrite Hxs, Hsort.
Qed.

(** C8.  The array [shuffleArray] returns holds a permutation of the
    elements the argument held: the same length and the same elements with
    the same multiplicities, for any sequence of draws. *)
Theorem shuffleArray_permutation
    (h : gmap nat (list V)) (array : nat) (xs : list V) (i : nat) :
  h !! array = Some xs ->
  exists result h' j ys,
    shuffleArray draws is_undefined h array i = Some (result, h', j)
    /\ h' !! result = Some ys
    /\ ys ≡ₚ xs
    /\ length ys = length xs.
Proof.
  intros Hxs.
  destruct (shuffleArray_store h array xs i Hxs) as (ys & j & _ & Hperm & Hcall).
  exists array, (<[array := ys]> h), j, ys.
  split; [done |]. split; [apply lookup_insert_eq |].
  split; [done | by apply Permutation_length].
Qed.

(** C5, as the code has it.  [shuffleArray] keeps no state of its own, but
    it works on the caller's array: the reference it returns is the
    argument, the order the sort arrives at is written into that array,
    and every other array of the store is left as it was. *)
Theorem shuffleArray_in_place
    (h : gmap nat (list V)) (array : nat) (xs : list V) (i : nat) :
  h !! array = Some xs ->
  exists h' j ys,
    shuffleArray draws is_undefined h array i = Some (array, h', j)
    /\ ArraySort.sort V nat (comparefn draws) is_undefined xs i = Some (ys, j)
    /\ h' !! array = Some ys
    /\ forall other, other <> array -> h' !! other = h !! other.
Proof.
  intros Hxs.
  destruct (shuffleArray_store h array xs i Hxs) as (ys & j & Hsort & _ & Hcall).
  exists (<[array := ys]> h), j, ys.
  split; [done |]. split; [done |]. split; [apply lookup_insert_eq |].
  intros other Hne. by apply lookup_insert_ne.
Qed.

End Shuffle.

(** *** The theorems at concrete draws: every call of [Math.random()]
    returns 1/4. *)

Lemma randomString_length_and_charset_witness :
  exists result,
    (randomString (fun _ => 1 # 4) 5 0).1 = JS.Normal result
    /\ Z.of_nat (String.length result) = 5
    /\ all_chars is_alnum result = true
    /\ String.length characters = 62%nat.
Proof.
  apply (randomString_length_and_charset (fun _ => 1 # 4)).
  - intros i. split; [discriminate | reflexivity].
  - lia.
Defined.

(** C1, as stated, fails outside these lengths: for the length -1 the
    result is the empty string, whose length is 0, and for the length 2^32
    no string is returned. *)
Lemma randomString_not_every_length :
  (randomString (fun _ => 1 # 4) (-1) 0).1 = JS.Normal EmptyString
  /\ Z.of_nat (String.length EmptyString) <> -1
  /\ (randomString (fun _ => 1 # 4) 4294967296 0).1 = JS.Throw JS.RangeError.
Proof. repeat split. discriminate. Qed.

Lemma randomColor_shape_witness :
  String.length "#3fffff" = 7%nat
  /\ (exists digits, "#3fffff"%string = String "#" digits
        /\ String.length digits = 6%nat
        /\ all_chars is_lower_hex digits = true)
  /\ "#3fffff"%string <> "#ffffff"%string.
Proof.
  apply (randomColor_shape (fun _ => 1 # 4)) with (fuel := 1%nat) (i := 0%nat) (j := 1%nat).
  - intros i. split; [discriminate | reflexivity].
  - reflexivity.
Defined.

Lemma shuffleArray_permutation_witness :
  exists result h' j ys,
    shuffleArray (fun _ => 1 # 4) (fun _ => false) {[ 0%nat := [1; 2; 3] ]} 0 0
    = Some (result, h', j)
    /\ h' !! result = Some ys
    /\ ys ≡ₚ [1; 2; 3]
    /\ length ys = length [1; 2; 3].
Proof.
  apply (shuffleArray_permutation (fun _ => 1 # 4) Z (fun _ => false)
           {[ 0%nat := [1; 2; 3] ]} 0 [1; 2; 3] 0).
  reflexivity.
Defined.

Lemma shuffleArray_in_place_witness :
  exists h' j ys,
    shuffleArray (fun _ => 1 # 4) (fun _ => false) {[ 0%nat := [1; 2] ]} 0 0
    = Some (0%nat, h', j)
    /\ ArraySort.sort Z nat (comparefn (fun _ => 1 # 4)) (fun _ => false) [1; 2] 0%nat
       = Some (ys, j)
    /\ h' !! 0%nat = Some ys
    /\ forall other, other <> 0%nat ->
         h' !! other = ({[ 0%nat := [1; 2] ]} : gmap nat (list Z)) !! other.
Proof.
  apply (shuffleArray_in_place (fun _ => 1 # 4) Z (fun _ => false)
           {[ 0%nat := [1; 2] ]} 0 [1; 2] 0).
  reflexivity.
Defined.

(** C5, as stated, fails: called on the array [1, 2] with a draw of 1/4
    the function returns the reference it was given, and the caller's array
    then reads [2, 1]. *)
Lemma shuffleArray_changes_argument :
  ({[ 0%nat := [1; 2] ]} : gmap nat (list Z)) !! 0%nat = Some [1; 2]
  /\ shuffleArray (fun _ => 1 # 4) (fun _ => false) {[ 0%nat := [1; 2] ]} 0 0
     = Some (0%nat, {[ 0%nat := [2; 1] ]}, 1%nat)
  /\ ({[ 0%nat := [2; 1] ]} : gmap nat (list Z)) !! 0%nat = Some [2; 1].
Proof. repeat split. Qed.

(** The engine's order on three elements: with the draws 3/4, 1/4, 3/4
    the array [1, 2, 3] stays as it is after three comparator calls, and
    with every draw below 1/2 it is reversed after two. *)
Example shuffleArray_three :
  shuffleArray (fun i => if Nat.eqb i 1 then 1 # 4 else 3 # 4) (fun _ => false)
    {[ 0%nat := [1; 2; 3] ]} 0 0
  = Some (0%nat, {[ 0%nat := [1; 2; 3] ]}, 3%nat)
  /\ shuffleArray (fun _ => 1 # 4) (fun _ => false) {[ 0%nat := [1; 2; 3] ]} 0 0
     = Some (0%nat, {[ 0%nat := [3; 2; 1] ]}, 2%nat).
Proof. split; reflexivity. Qed.

(** *** Further properties of [randomChoice], [randomString], [randomColor]
    and [shuffleArray] *)

Section OracleMore.

Variable draws : nat -> Q.
Hypothesis draws_range : forall i, (0 <= draws i < 1)%Q.

(** [randomChoice] on an array that is not empty returns one of its
    elements. *)
Theorem randomChoice_element {T : Type} (choices : list T) (i : nat) :
  choices <> [] ->
  exists x, (randomChoice draws choices i).1 = Some x /\ x ∈ choices.
Proof.
  intros Hne. unfold randomChoice. cbn [fst].
  assert (Hlen : 0 < Z.of_nat (length choices)) by (destruct choices; [done | simpl; lia]).
  pose proof (floor_scaled_range draws draws_range i _ Hlen) as [Hlo Hhi].
  destruct (Z.ltb_spec (floor_scaled draws i (Z.of_nat (length choices))) 0); [lia |].
  destruct (lookup_lt_is_Some_2 choices (Z.to_nat (floor_scaled draws i (Z.of_nat (length choices))))
              ltac:(lia)) as [x Hx].
  exists x. split; [done |]. by eapply list_elem_of_lookup_2.
Qed.

(** A colour [randomColor] returns reads back as a number from 0x100000
    to 0xfffffe: the first digit is never 0. *)
Theorem randomColor_value_range (fuel i : nat) (color : string) (j : nat) :
  randomColor draws fuel i = Some (color, j) ->
  exists digits n,
    color = String "#" digits
    /\ parse_hex 0 digits = Some n
    /\ 1048576 <= n <= 16777214.
Proof.
  revert i. induction fuel as [| fuel IH]; intros i; [done |].
  cbn [randomColor].
  pose proof (floor_scaled_range draws draws_range i 16777215 ltac:(lia)) as Hrange.
  set (n := floor_scaled draws i 16777215) in *.
  destruct (Nat.eqb_spec (String.length (String "#" (toString16 n))) 7)
    as [Hlen | _]; [| apply IH].
  intros [= <- <-]. exists (toString16 n), n.
  split; [done |]. split; [apply parse_toString16; lia |].
  cbn [String.length] in Hlen.
  destruct (Z.lt_ge_cases n 1048576) as [Hsmall | Hbig]; [| lia].
  pose proof (toString16_short n ltac:(lia)). lia.
Qed.

End OracleMore.

Section DrawsMore.

Variable draws : nat -> Q.

(** [randomChoice] on the empty array returns [undefined], whatever the
    draw is. *)
Theorem randomChoice_empty {T : Type} (i : nat) :
  randomChoice draws (@nil T) i = (None, S i).
Proof. unfold randomChoice. by destruct (_ <? 0). Qed.

(** [Array.from] calls the mapper from left to right, one draw each. *)
Lemma array_from_app (m n : nat) :
  forall i,
    array_from draws (m + n) i
    = ((array_from draws m i).1 ++ (array_from draws n (i + m)).1, (i + (m + n))%nat).
Proof.
  induction m as [| m IH]; intros i; cbn [Nat.add array_from].
  - rewrite Nat.add_0_r. cbn [fst app].
    assert (Hj : forall k j, (array_from draws k j).2 = (j + k)%nat).
    { induction k as [| k IHk]; intros j; cbn [array_from]; [simpl; lia |].
      specialize (IHk (S j)). destruct (array_from draws k (S j)). simpl in *. lia. }
    specialize (Hj n i). destruct (array_from draws n i). simpl in *. by subst.
  - rewrite IH. destruct (array_from draws m (S i)) as [rest j]. cbn [fst app].
    replace (S i + m)%nat with (i + S m)%nat by lia.
    f_equal. lia.
Qed.

Lemma join_app (xs ys : list (option ascii)) :
  join (xs ++ ys) = (join xs ++ join ys)%string.
Proof.
  induction xs as [| [c |] xs IH]; simpl; [done | by rewrite IH | done].
Qed.

(** [randomString] uses one draw per character, in order: a string of
    length [m + n] is the string of length [m] followed by the string of
    length [n] made from the draws that come next. *)
Theorem randomString_concat (m n : Z) (i : nat) :
  0 <= m -> 0 <= n -> m + n < 4294967296 ->
  exists front back,
    (randomString draws m i).1 = JS.Normal front
    /\ (randomString draws n (i + Z.to_nat m)).1 = JS.Normal back
    /\ randomString draws (m + n) i
       = (JS.Normal (front ++ back)%string, (i + Z.to_nat (m + n))%nat).
Proof.
  intros Hm Hn Hsum. unfold randomString.
  destruct (Z.leb_spec 4294967296 m) as [Hbig | _]; [lia |].
  destruct (Z.leb_spec 4294967296 n) as [Hbig | _]; [lia |].
  destruct (Z.leb_spec 4294967296 (m + n)) as [Hbig | _]; [lia |].
  rewrite Z2Nat.inj_add by done. rewrite array_from_app.
  destruct (array_from draws (Z.to_nat m) i) as [xs j].
  destruct (array_from draws (Z.to_nat n) (i + Z.to_nat m)) as [ys k].
  cbn [fst]. eexists _, _. split; [done |]. split; [done |]. by rewrite join_app.
Qed.

(** An array with at most one element is left as it is, and no draw is
    used. *)
Theorem shuffleArray_short {V : Type} (is_undefined : V -> bool)
    (h : gmap nat (list V)) (array : nat) (xs : list V) (i : nat) :
  h !! array = Some xs -> (length xs <= 1)%nat ->
  shuffleArray draws is_undefined h array i = Some (array, h, i).
Proof.
  intros Hxs Hlen. unfold shuffleArray, Array_sort.
  rewrite Hxs, ArraySortFacts.sort_short by done. by rewrite insert_id.
Qed.

End DrawsMore.

Lemma randomChoice_element_witness :
  exists x, (randomChoice (fun _ => 1 # 4) ["a"; "b"; "c"; "d"]%string 0).1 = Some x
            /\ x ∈ ["a"; "b"; "c"; "d"]%string.
Proof.
  apply (randomChoice_element (fun _ => 1 # 4)).
  - intros i. split; [discriminate | reflexivity].
  - discriminate.
Defined.

Lemma randomColor_value_range_witness :
  exists digits n,
    "#3fffff"%string = String "#" digits
    /\ parse_hex 0 digits = Some n
    /\ 1048576 <= n <= 16777214.
Proof.
  apply (randomColor_value_range (fun _ => 1 # 4)) with (fuel := 1%nat) (i := 0%nat) (j := 1%nat).
  - intros i. split; [discriminate | reflexivity].
  - reflexivity.
Defined.

Lemma randomString_concat_witness :
  exists front back,
    (randomString (fun _ => 1 # 4) 2 0).1 = JS.Normal front
    /\ (randomString (fun _ => 1 # 4) 3 (0 + Z.to_nat 2)).1 = JS.Normal back
    /\ randomString (fun _ => 1 # 4) (2 + 3) 0
       = (JS.Normal (front ++ back)%string, (0 + Z.to_nat (2 + 3))%nat).
Proof. apply (randomString_concat (fun _ => 1 # 4) 2 3 0); lia. Defined.

Lemma randomString_negative_witness :
  randomString (fun _ => 1 # 4) (-3) 7 = (JS.Normal EmptyString, 7%nat).
Proof. apply (randomString_negative (fun _ => 1 # 4) (-3) 7). lia. Defined.

Lemma shuffleArray_short_witness :
  shuffleArray (fun _ => 1 # 4) (fun _ => false)
    ({[ 0%nat := [5] ]} : gmap nat (list Z)) 0 0
  = Some (0%nat, {[ 0%nat := [5] ]}, 0%nat).
Proof.
  apply (shuffleArray_short (fun _ => 1 # 4) (fun _ => false) {[ 0%nat := [5] ]} 0 [5] 0).
  - reflexivity.
  - simpl. lia.
Defined.

End RandomUtilsFacts.

(** ** [randomNumber] in binary64 *)

Module Binary64Facts.
Import Binary64.

(** Rounding is monotone, so the largest draw gives the largest product:
    the floor of the product alone stays below the factor, for the index
    of [randomString] and for the value of [randomColor]. *)
Example floor_scaled_62 : floor_scaled largest_draw 62 = Some 61.
Proof. reflexivity. Qed.

Example floor_scaled_16777215 : floor_scaled largest_draw 16777215 = Some 16777214.
Proof. reflexivity. Qed.

(** With [min] added before the floor the sum is rounded once more. *)
Example randomNumber_dice : randomNumber largest_draw 1 6 = Some 6.
Proof. reflexivity. Qed.

Example randomNumber_1_2 : randomNumber largest_draw 1 2 = Some 3.
Proof. reflexivity. Qed.

(** C10 on the code: [randomNumber(100, 101)] with a draw of
    0.9999999999999998.  The product with 2 is 1.9999999999999996; the sum
    with 100 is rounded to the nearest binary64 number, which is 102, and
    [Math.floor] returns 102, above [max]. *)
Theorem randomNumber_above_max :
  is_draw second_largest_draw = true
  /\ randomNumber second_largest_draw 100 101 = Some 102.
Proof. split; reflexivity. Qed.

(** *** [randomColor] in binary64 *)

(** [randomColor] is rejection sampling on the product the engine
    computes: draws whose floored product has fewer than six hexadecimal
    digits are discarded, and the first draw whose floored product has six
    gives the result. *)
Theorem randomColor_first_six_digit_draw (draws : nat -> float) (fuel : nat) :
  forall i k, (k < fuel)%nat ->
    (forall k', (k' < k)%nat -> short_draw (draws (i + k')%nat) = true) ->
    six_digit_draw (draws (i + k)%nat) = true ->
    exists n,
      floor_scaled (draws (i + k)%nat) 16777215 = Some n
      /\ randomColor draws fuel i
         = Some (String "#" (Radix16.toString16 n), S (i + k)).
Proof.
  unfold short_draw, six_digit_draw.
  induction fuel as [| fuel IH]; intros i k Hk Hshort Hsix; [lia |].
  cbn [randomColor]. destruct k as [| k].
  - rewrite Nat.add_0_r in *.
    destruct (floor_scaled (draws i) 16777215) as [n |]; [| done].
    apply andb_true_iff in Hsix as [Hlo%Z.leb_le Hhi%Z.ltb_lt].
    exists n. split; [done |]. cbn [String.length].
    by rewrite Radix16Facts.toString16_six_digits by lia.
  - specialize (Hshort 0%nat ltac:(lia)) as Hfirst. rewrite Nat.add_0_r in Hfirst.
    replace (i + S k)%nat with (S i + k)%nat in * by lia.
    assert (Hnext : exists n,
               floor_scaled (draws (S i + k)%nat) 16777215 = Some n
               /\ randomColor draws fuel (S i)
                  = Some (String "#" (Radix16.toString16 n), S (S i + k))).
    { apply IH; [lia | | done].
      intros k' Hk'. replace (S i + k')%nat with (i + S k')%nat by lia.
      apply Hshort. lia. }
    destruct (floor_scaled (draws i) 16777215) as [n0 |]; [| done].
    apply andb_true_iff in Hfirst as [Hlo%Z.leb_le Hhi%Z.ltb_lt].
    pose proof (Radix16Facts.toString16_short n0 ltac:(lia)) as Hlen.
    destruct (Nat.eqb_spec (String.length (String "#" (Radix16.toString16 n0))) 7)
      as [Hseven | _]; [cbn [String.length] in Hseven; lia | done].
Qed.

(** A draw of 0.01 is discarded and a draw of 0.25 gives "#3fffff". *)
Lemma randomColor_first_six_digit_draw_witness :
  exists n,
    floor_scaled 0x1p-2%float 16777215 = Some n
    /\ randomColor (fun i => if Nat.eqb i 0 then 0x1.47ae147ae147bp-7 else 0x1p-2)%float 2 0
       = Some (String "#" (Radix16.toString16 n), 2%nat).
Proof.
  apply (randomColor_first_six_digit_draw
           (fun i => if Nat.eqb i 0 then 0x1.47ae147ae147bp-7 else 0x1p-2)%float 2 0 1).
  - lia.
  - intros k' Hk'. replace k' with 0%nat by lia. reflexivity.
  - reflexivity.
Defined.

(** The product is rounded before it is floored: for the draw
    0x1.000001000001p-4 the exact product is below 2^20 by 2^-52, the
    product the engine computes is 2^20, and the colour is returned at once;
    the floor of the exact product has five digits. *)
Example randomColor_rounded_product :
  is_draw 0x1.000001000001p-4 = true
  /\ randomColor (fun _ => 0x1.000001000001p-4%float) 1 0 = Some ("#100000"%string, 1%nat)
  /\ Qfloor ((281474993487873 # 4503599627370496) * inject_Z 16777215) = 1048575.
Proof. repeat split. Qed.

End Binary64Facts.

(** ** PermissionUtils *)

Module PermissionUtilsFacts.
Import PermissionUtils.

Example permission_names_count : length permission_names = 49%nat.
Proof. reflexivity. Qed.

(** The names with an entry are the keys of the table. *)
Lemma permissionLocalizations_None (permission : string) :
  permissionLocalizations !! permission = None <-> permission ∉ permission_names.
Proof.
  unfold permissionLocalizations, permission_names. symmetry.
  apply not_elem_of_list_to_map.
Qed.

(** C2, as the code has it.  For a name the table has an entry for,
    [getPermissionName] returns that entry, a string; for any other name
    that is not a member of [Object.prototype] it returns [undefined]. *)
Theorem getPermissionName_table (permission : string) :
  (permission ∈ permission_names ->
   exists name, getPermissionName permission = JS.Own name
                /\ (permission, name) ∈ permissionLocalizations_entries)
  /\ (permission ∉ permission_names ->
      permission ∉ JS.object_prototype_properties ->
      getPermissionName permission = JS.Undefined).
Proof.
  unfold getPermissionName, JS.get. split.
  - intros Hin.
    destruct (permissionLocalizations !! permission) as [name |] eqn:Hlookup.
    + exists name. split; [done |]. by apply elem_of_list_to_map_2.
    + by apply permissionLocalizations_None in Hlookup.
  - intros Hnotin Hproto.
    apply permissionLocalizations_None in Hnotin. rewrite Hnotin.
    by rewrite bool_decide_eq_false_2.
Qed.

Lemma getPermissionName_table_witness :
  (exists name, getPermissionName "Speak" = JS.Own name
                /\ ("Speak"%string, name) ∈ permissionLocalizations_entries)
  /\ getPermissionName "UseExternalApps" = JS.Undefined.
Proof.
  split.
  - apply (proj1 (getPermissionName_table "Speak")). compute_done.
  - apply (proj2 (getPermissionName_table "UseExternalApps")); compute_done.
Defined.

(** C2, as stated, fails: a name without an entry gives [undefined], not
    a string. *)
Lemma getPermissionName_not_always_defined :
  getPermissionName "UseExternalApps" = JS.Undefined
  /\ permissionLocalizations !! "UseExternalApps"%string = None.
Proof. split; reflexivity. Qed.

(** A name of a member of [Object.prototype] reads that member. *)
Example getPermissionName_inherited :
  getPermissionName "toString" = JS.Inherited "toString".
Proof. reflexivity. Qed.

(** No key is written twice in the table. *)
Lemma permission_names_NoDup : NoDup permission_names.
Proof. compute_done. Qed.

(** Every entry of the table is returned for its key: no entry is
    shadowed by another. *)
Theorem getPermissionName_entry (permission name : string) :
  (permission, name) ∈ permissionLocalizations_entries ->
  getPermissionName permission = JS.Own name.
Proof.
  intros Hin. unfold getPermissionName, JS.get, permissionLocalizations.
  by rewrite (elem_of_list_to_map_1 _ _ _ permission_names_NoDup Hin).
Qed.

Lemma getPermissionName_entry_witness :
  getPermissionName "ViewGuildInsights" = JS.Own "Server-Insights einsehen".
Proof. apply getPermissionName_entry. compute_done. Defined.

End PermissionUtilsFacts.

(** ** Regular expressions: the matcher against what a pattern reads *)

Module RegExpFacts.
Import RegExp.

Section Reading.

Variable input : string.
Variable flag_i : bool.

Lemma character_matcher_sound p : sound (character_matcher input p) (reads_character input p).
Proof.
  intros x c z. unfold character_matcher, reads_character.
  destruct (String.get (endIndex x) input) as [ch |]; [| done].
  destruct (p ch) eqn:Hp; [| done]. eauto 10.
Qed.

Lemma character_matcher_complete p : complete (character_matcher input p) (reads_character input p).
Proof.
  intros x y c (ch & Hget & Hp & ->). unfold character_matcher. by rewrite Hget, Hp.
Qed.

Lemma repeat_matcher_sound m R : sound m R -> forall max min, sound (repeat_matcher m min max) (iterate R min max).
Proof.
  intros Hm. induction max as [| max IH]; intros min x c z; cbn [repeat_matcher].
  - intros Hc. exists x. split; [constructor | done].
  - assert (Hstep : m x (fun y => if (min =? 0)%nat && (endIndex y =? endIndex x)%nat then None
                     else repeat_matcher m (pred min) max y c) = Some z ->
            exists y, iterate R min (S max) x y /\ c y = Some z).
    { intros (y & Hxy & Hd)%Hm.
      destruct ((min =? 0)%nat && (endIndex y =? endIndex x)%nat) eqn:Hempty; [done |].
      apply IH in Hd as (y' & Hiter & Hc). exists y'. split; [| done].
      eapply iterate_step; [exact Hxy | | exact Hiter].
      intros ->. cbn in Hempty. by apply Nat.eqb_neq. }
    destruct (min =? 0)%nat eqn:Hmin; [| exact Hstep].
    apply Nat.eqb_eq in Hmin as ->.
    destruct (m x _) as [z' |] eqn:Hmx.
    + intros [= <-]. by apply Hstep.
    + intros Hc. exists x. split; [constructor | done].
Qed.

Lemma repeat_matcher_complete m R : complete m R -> forall max min, complete (repeat_matcher m min max) (iterate R min max).
Proof.
  intros Hm max min x y c Hiter Hc.
  induction Hiter as [min x | max x | min max x y z Hxy Hne Hiter IH].
  - done.
  - destruct max; cbn [repeat_matcher Nat.eqb]; [done |].
    by destruct (m x _).
  - cbn [repeat_matcher].
    assert (Hstep : is_Some (m x (fun y => if (min =? 0)%nat && (endIndex y =? endIndex x)%nat then None
                     else repeat_matcher m (pred min) max y c))).
    { eapply Hm; [exact Hxy |].
      destruct (min =? 0)%nat eqn:Hmin; cbn [andb]; [| by apply IH].
      apply Nat.eqb_eq in Hmin. rewrite (proj2 (Nat.eqb_neq _ _) (Hne Hmin)). by apply IH. }
    destruct (min =? 0)%nat; [| done].
    destruct Hstep as [z' ->]. done.
Qed.

Theorem compile_sound (r : node) : sound (compile input flag_i r) (reads input flag_i r).
Proof.
  induction r as [| ch | ranges | a IHa b IHb | a IHa b IHb | a IHa min max | n a IHa | |];
    cbn [compile reads].
  - intros x c z Hc. eauto.
  - apply character_matcher_sound.
  - apply character_matcher_sound.
  - intros x c z (y & Hxy & (y' & Hyy' & Hc)%IHb)%IHa. eauto.
  - intros x c z. destruct (compile input flag_i a x c) as [z' |] eqn:Ha.
    + intros [= <-]. apply IHa in Ha as (y & ? & ?). eauto.
    + intros (y & ? & ?)%IHb. eauto.
  - by apply repeat_matcher_sound.
  - intros x c z (y & Hxy & Hc)%IHa. eauto.
  - intros x c z. destruct (Nat.eqb_spec (endIndex x) 0); [| done]. eauto.
  - intros x c z. destruct (Nat.eqb_spec (endIndex x) (String.length input)); [| done]. eauto.
Qed.

Theorem compile_complete (r : node) : complete (compile input flag_i r) (reads input flag_i r).
Proof.
  induction r as [| ch | ranges | a IHa b IHb | a IHa b IHb | a IHa min max | n a IHa | |];
    cbn [compile reads].
  - by intros x y c ->.
  - apply character_matcher_complete.
  - apply character_matcher_complete.
  - intros x z c (y & Hxy & Hyz) Hc. eapply IHa; [exact Hxy |]. by eapply IHb.
  - intros x y c [Ha | Hb] Hc.
    + by destruct (IHa x y c Ha Hc) as [z ->].
    + destruct (compile input flag_i a x c); [done |]. by eapply IHb.
  - by apply repeat_matcher_complete.
  - intros x z c (y & Hxy & ->) Hc. by eapply IHa.
  - intros x y c [Hx ->] Hc. by rewrite Hx.
  - intros x y c [Hx ->] Hc. by rewrite Hx, Nat.eqb_refl.
Qed.

(** An attempt at index [i] succeeds exactly when the pattern reads from [i]. *)
Lemma match_at_is_Some (r : node) (i : nat) :
  is_Some (match_at input flag_i r i) <-> exists y, reads input flag_i r (State i ∅) y.
Proof.
  unfold match_at. split.
  - destruct (compile input flag_i r (State i ∅) Some) as [z |] eqn:Hz; [| by intros [? ?]].
    intros _. apply compile_sound in Hz as (y & ? & _). eauto.
  - intros [y Hy].
    by destruct (compile_complete r _ _ Some Hy ltac:(done)) as [z ->].
Qed.

Lemma scan_is_Some (r : node) (fuel : nat) :
  forall i, is_Some (scan input flag_i r fuel i)
    <-> exists k, (k <= fuel)%nat /\ is_Some (match_at input flag_i r (i + k)).
Proof.
  induction fuel as [| fuel IH]; intros i; cbn [scan].
  - destruct (match_at input flag_i r i) as [a |] eqn:Ha.
    + split; [| done]. intros _. exists 0%nat. by rewrite Nat.add_0_r, Ha.
    + split; [by intros [? ?] |]. intros (k & Hk & Hsome).
      replace k with 0%nat in Hsome by lia. by rewrite Nat.add_0_r, Ha in Hsome.
  - destruct (match_at input flag_i r i) as [a |] eqn:Ha.
    + split; [| done]. intros _. exists 0%nat. rewrite Nat.add_0_r, Ha. split; [lia | done].
    + rewrite IH. split.
      * intros (k & Hk & Hsome). exists (S k). split; [lia |].
        by replace (i + S k)%nat with (S i + k)%nat by lia.
      * intros (k & Hk & Hsome). destruct k as [| k].
        { by rewrite Nat.add_0_r, Ha in Hsome. }
        exists k. split; [lia |]. by replace (S i + k)%nat with (i + S k)%nat by lia.
Qed.

End Reading.

(** [exec] finds a match exactly when the pattern reads from some index. *)
Theorem exec_is_Some (re : regexp) (str : string) :
  is_Some (exec re str)
  <-> exists i y, (i <= String.length str)%nat
                  /\ reads str (ignoreCase re) (source re) (State i ∅) y.
Proof.
  unfold exec. rewrite scan_is_Some. cbn [Nat.add]. split.
  - intros (k & Hk & (y & Hy)%match_at_is_Some). eauto.
  - intros (i & y & Hi & Hy). exists i. split; [done |]. apply match_at_is_Some. eauto.
Qed.

End RegExpFacts.

(** ** ValidationUtils *)

Module ValidationUtilsFacts.
Import RegExp ValidationUtils.

(** *** [stringIsHexColor] *)

(** With the [i] flag the class [[0-9A-F]] matches the digits and the
    letters a-f in both cases, and '#' matches itself only. *)
Lemma hex_class_matches (c : ascii) :
  class_matches true [("0", "9"); ("A", "F")]%char c = is_hex_digit c.
Proof. destruct c as [[] [] [] [] [] [] [] []]; vm_compute; reflexivity. Qed.

Lemma hash_matches (c : ascii) : char_matches true "#" c = Ascii.eqb "#" c.
Proof. destruct c as [[] [] [] [] [] [] [] []]; vm_compute; reflexivity. Qed.

(** A pattern that starts with [^] matches at index 0 or nowhere. *)
Lemma scan_anchored (str : string) (flag_i : bool) (r : node) (fuel : nat) :
  forall i, scan str flag_i (Seq AssertStart r) fuel (S i) = None.
Proof.
  induction fuel as [| fuel IH]; intros i; simpl; [done | apply IH].
Qed.

Lemma exec_HEX_COLOR (str : string) :
  exec HEX_COLOR str = match_at str true (source HEX_COLOR) 0.
Proof.
  unfold exec. cbn [source ignoreCase HEX_COLOR].
  destruct (String.length str) as [| n]; cbn [scan].
  - by destruct (match_at _ _ _ _).
  - destruct (match_at _ _ _ _); [done |]. apply scan_anchored.
Qed.

(** [a{n}] over a single character: the next [n] characters match. *)
Lemma repeat_exactly (input : string) (p : ascii -> bool) (n : nat) :
  forall x c,
    repeat_matcher (character_matcher input p) n n x c
    = if all_at p input (endIndex x) n
      then c (State (endIndex x + n) (captures x))
      else None.
Proof.
  induction n as [| n IH]; intros [i caps] c;
    cbn [repeat_matcher all_at endIndex captures].
  - by rewrite Nat.add_0_r.
  - cbn [Nat.eqb andb pred]. unfold character_matcher at 1. cbn [endIndex captures].
    destruct (String.get i input) as [ch |]; [| done].
    destruct (p ch); [| done]. cbn [andb].
    rewrite IH. cbn [endIndex captures]. by rewrite Nat.add_succ_r.
Qed.

(** [a?] over a single character: the character is taken when the rest
    then matches, and skipped otherwise. *)
Lemma optional_character (input : string) (p : ascii -> bool) (x : state) (c : continuation) :
  repeat_matcher (character_matcher input p) 0 1 x c
  = match
      match String.get (endIndex x) input with
      | Some ch => if p ch then c (State (S (endIndex x)) (captures x)) else None
      | None => None
      end
    with
    | Some z => Some z
    | None => c x
    end.
Proof.
  cbn [repeat_matcher Nat.eqb andb pred]. unfold character_matcher. cbn [endIndex].
  destruct (String.get (endIndex x) input) as [ch |]; [| done].
  destruct (p ch); [| done].
  by rewrite (proj2 (Nat.eqb_neq _ _) (Nat.neq_succ_diag_l (endIndex x))).
Qed.

Lemma all_at_tail (p : ascii -> bool) (c : ascii) (s : string) (n : nat) :
  forall i, all_at p (String c s) (S i) n = all_at p s i n.
Proof.
  induction n as [| n IH]; intros i; cbn [all_at String.get]; [done |].
  by rewrite IH.
Qed.

Lemma all_at_all_chars (p : ascii -> bool) (s : string) :
  all_at p s 0 (String.length s) = Radix16.all_chars p s.
Proof.
  induction s as [| c s IH];
    cbn [all_at String.length String.get Radix16.all_chars]; [done |].
  by rewrite all_at_tail, IH.
Qed.

Lemma all_at_ext (p q : ascii -> bool) (s : string) (n : nat) :
  (forall c, p c = q c) -> forall i, all_at p s i n = all_at q s i n.
Proof.
  intros Hpq. induction n as [| n IH]; intros i; cbn [all_at]; [done |].
  destruct (String.get i s); [| done]. by rewrite Hpq, IH.
Qed.

Lemma six_digits_at_0 (str : string) :
  six_digits_at str 0 = true
  <-> String.length str = 6%nat /\ Radix16.all_chars is_hex_digit str = true.
Proof.
  unfold six_digits_at. rewrite andb_true_iff, Nat.eqb_eq. split.
  - intros [Hall Hlen]. by rewrite <- all_at_all_chars, <- Hlen.
  - intros [Hlen Hall]. by rewrite <- all_at_all_chars, Hlen in Hall.
Qed.

Lemma six_digits_at_1 (c : ascii) (str : string) :
  six_digits_at (String c str) 1 = six_digits_at str 0.
Proof. unfold six_digits_at. by rewrite all_at_tail. Qed.

(** What running the pattern comes to. *)
Lemma stringIsHexColor_unfold (str : string) :
  stringIsHexColor str =
    match str with
    | String c rest =>
        (Ascii.eqb "#" c && six_digits_at rest 0) || six_digits_at str 0
    | EmptyString => false
    end.
Proof.
  unfold stringIsHexColor. rewrite exec_HEX_COLOR. unfold match_at.
  cbn [source HEX_COLOR compile Optional Exactly endIndex captures Nat.eqb].
  rewrite optional_character. cbn [endIndex captures].
  rewrite !repeat_exactly. cbn [endIndex captures].
  rewrite !(all_at_ext _ _ _ _ hex_class_matches).
  destruct str as [| c rest]; [reflexivity |].
  cbn [String.get]. rewrite hash_matches.
  rewrite <- (six_digits_at_1 c rest). unfold six_digits_at.
  cbn [Nat.add].
  destruct (Ascii.eqb "#" c);
    destruct (all_at is_hex_digit (String c rest) 1 6);
    destruct (7 =? String.length (String c rest))%nat;
    destruct (all_at is_hex_digit (String c rest) 0 6);
    destruct (6 =? String.length (String c rest))%nat; reflexivity.
Qed.

(** C6.  [stringIsHexColor] returns [true] exactly on the strings made of
    an optional leading '#' followed by exactly six hexadecimal digits, in
    either case, and [false] on every other string. *)
Theorem stringIsHexColor_iff (str : string) :
  stringIsHexColor str = true <-> hex_color_shape str.
Proof.
  rewrite stringIsHexColor_unfold. unfold hex_color_shape. split.
  - destruct str as [| c rest]; [done |].
    intros [[Hhash Hrest]%andb_true_iff | Hstr]%orb_true_iff.
    + apply Ascii.eqb_eq in Hhash as <-.
      apply six_digits_at_0 in Hrest as [Hlen Hall].
      exists rest. auto.
    + apply six_digits_at_0 in Hstr as [Hlen Hall]. eauto.
  - intros (digits & [-> | ->] & Hlen & Hall).
    + destruct digits as [| c rest]; [done |].
      apply orb_true_iff. right. by apply six_digits_at_0.
    + apply orb_true_iff. left. rewrite Ascii.eqb_refl. by apply six_digits_at_0.
Qed.

Example stringIsHexColor_examples :
  stringIsHexColor "#ff00AA" = true
  /\ stringIsHexColor "FF00aa" = true
  /\ stringIsHexColor "#ff00a" = false
  /\ stringIsHexColor "#ff00aag" = false
  /\ stringIsHexColor "x#ff00aa" = false
  /\ stringIsHexColor "##ff00aa" = false
  /\ stringIsHexColor "" = false.
Proof. repeat split. Qed.

(** *** [urlIsImage] *)

Section Http.

Variable head : string -> JS.promise AxiosResponse.

(** C3.  [urlIsImage] never throws.  It returns [false] when the request
    is rejected and when reading the content type of the response throws;
    it returns [true] exactly when the request is fulfilled and the text of
    its content-type header starts with "image/". *)
Theorem urlIsImage_never_throws (url : string) :
  (exists b, urlIsImage head url = JS.Normal b)
  /\ (forall reason,
        head url = JS.Rejected reason -> urlIsImage head url = JS.Normal false)
  /\ (forall response e,
        head url = JS.Fulfilled response ->
        header_toString (headers response "content-type") = JS.Throw e ->
        urlIsImage head url = JS.Normal false)
  /\ (urlIsImage head url = JS.Normal true
      <-> exists response text,
            head url = JS.Fulfilled response
            /\ header_toString (headers response "content-type") = JS.Normal text
            /\ startsWith text "image/" = true).
Proof.
  unfold urlIsImage.
  destruct (head url) as [response | reason]; cbn [JS.await JS.bind JS.try_catch].
  - destruct (header_toString (headers response "content-type")) as [text | e] eqn:Htext;
      cbn [JS.bind JS.try_catch].
    + split; [eauto |]. split; [done |]. split; [by intros ? ? [= <-]; rewrite Htext |].
      split.
      * intros [= Hstarts]. exists response, text. by rewrite Htext.
      * intros (response' & text' & [= <-] & Htext' & Hstarts).
        rewrite Htext in Htext'. by injection Htext' as ->; rewrite Hstarts.
    + split; [eauto |]. split; [done |]. split; [done |].
      split; [done |].
      intros (response' & text' & [= <-] & Htext' & _). congruence.
  - split; [eauto |]. split; [done |]. split; [done |].
    split; [done |]. by intros (? & ? & ? & _).
Qed.

End Http.

Lemma urlIsImage_never_throws_witness :
  urlIsImage (fun _ => JS.Rejected JS.Rejection) "https://example.org/a.png"
  = JS.Normal false.
Proof.
  apply (proj1 (proj2 (urlIsImage_never_throws
                         (fun _ => JS.Rejected JS.Rejection) "https://example.org/a.png"))
           JS.Rejection).
  reflexivity.
Defined.

Example urlIsImage_examples :
  let respond := fun value =>
    (fun _ : string => JS.Fulfilled {| status := 200; headers := fun _ => value |}) in
  urlIsImage (respond (HString "image/png")) "u" = JS.Normal true
  /\ urlIsImage (respond (HString "text/html")) "u" = JS.Normal false
  /\ urlIsImage (respond HUndefined) "u" = JS.Normal false
  /\ urlIsImage (respond (HList ["image/png"; "x"]%string)) "u" = JS.Normal true.
Proof. repeat split. Qed.

(** *** [resolveUser] *)

Section Collections.

Context {A : Type}.
Variable fn : A -> JS.completion bool.

Lemma Collection_find_Throw (l : list A) (e : JS.error) :
  Collection_find fn l = JS.Throw e -> exists x, x ∈ l /\ fn x = JS.Throw e.
Proof.
  induction l as [| x l IH]; cbn [Collection_find]; [done |].
  destruct (fn x) as [[] | e'] eqn:Hx; cbn [JS.bind]; [done | |].
  - intros (y & Hin & Hy)%IH. exists y. split; [by right | done].
  - intros [= ->]. exists x. split; [by left | done].
Qed.

Lemma Collection_find_Some (l : list A) (x : A) :
  Collection_find fn l = JS.Normal (Some x) -> x ∈ l /\ fn x = JS.Normal true.
Proof.
  induction l as [| y l IH]; cbn [Collection_find]; [done |].
  destruct (fn y) as [[] | e'] eqn:Hy; cbn [JS.bind]; [| | done].
  - intros [= <-]. split; [by left | done].
  - intros [Hin Hx]%IH. split; [by right | done].
Qed.

Lemma Collection_find_None (l : list A) :
  Forall (fun x => fn x = JS.Normal false) l -> Collection_find fn l = JS.Normal None.
Proof.
  induction 1 as [| x l Hx _ IH]; cbn [Collection_find]; [done |]. by rewrite Hx.
Qed.

(** What [filter] keeps, when no call of the predicate throws. *)
Lemma Collection_filter_Normal (l kept : list A) :
  Collection_filter fn l = JS.Normal kept ->
  kept = List.filter (fun x => match fn x with JS.Normal b => b | JS.Throw _ => false end) l
  /\ Forall (fun x => exists b, fn x = JS.Normal b) l.
Proof.
  revert kept. induction l as [| x l IH]; intros kept; cbn [Collection_filter List.filter].
  - intros [= <-]. split; [done | constructor].
  - destruct (fn x) as [b | e] eqn:Hx; cbn [JS.bind]; [| done].
    destruct (Collection_filter fn l) as [rest | e]; cbn [JS.bind]; [| done].
    intros [= <-]. destruct (IH rest eq_refl) as [-> Hall].
    split; [by destruct b | constructor; eauto].
Qed.

Lemma Collection_filter_Throw (l : list A) (e : JS.error) :
  Collection_filter fn l = JS.Throw e -> exists x, x ∈ l /\ fn x = JS.Throw e.
Proof.
  induction l as [| x l IH]; cbn [Collection_filter]; [done |].
  destruct (fn x) as [b | e'] eqn:Hx; cbn [JS.bind].
  - destruct (Collection_filter fn l) as [rest | e'']; cbn [JS.bind]; [done |].
    intros [= ->]. destruct (IH eq_refl) as (y & Hin & Hy).
    exists y. split; [by right | done].
  - intros [= ->]. exists x. split; [by left | done].
Qed.

End Collections.

Section Client.

Variable fetch : option string -> JS.promise User.
Variable cache : list User.
Variable toLowerCase : string -> string.

Lemma filter_username_nil (query : string) (l : list User) :
  Forall (fun x => username_is query x = false) l ->
  List.filter (username_is query) l = [].
Proof.
  induction 1 as [| x l Hx _ IH]; [done |]. cbn [List.filter]. by rewrite Hx.
Qed.

(** The search throws only on a user without user name. *)
Lemma loose_match_Throw (query : string) (x : User) (e : JS.error) :
  loose_match toLowerCase query x = JS.Throw e -> e = JS.TypeError /\ username x = None.
Proof.
  unfold loose_match, username_is, lower_includes.
  destruct (username x) as [name |]; [by destruct (String.eqb name query) |].
  by intros [= <-].
Qed.

Lemma resolve_cached_Throw (query : string) (exact : bool) (e : JS.error) :
  resolve_cached cache toLowerCase query exact = JS.Throw e ->
  e = JS.TypeError /\ exact = false /\ exists x, x ∈ cache /\ username x = None.
Proof.
  unfold resolve_cached.
  destruct (length _ =? 1)%nat; [done |].
  destruct exact; cbn [negb]; [done |].
  intros (x & Hin & [-> Hx]%loose_match_Throw)%Collection_find_Throw. eauto.
Qed.

(** With no cache entry the search looks for, and a user name on every
    entry the search reads, the cache lookups find nothing. *)
Lemma resolve_cached_none (query : string) (exact : bool) :
  Forall (fun x => search_hit toLowerCase query exact x = false
                   /\ (exact = false -> is_Some (username x))) cache ->
  resolve_cached cache toLowerCase query exact = JS.Normal None.
Proof.
  intros Hmiss. unfold resolve_cached.
  rewrite filter_username_nil.
  - cbn [length Nat.eqb]. destruct exact; cbn [negb]; [done |].
    apply Collection_find_None. eapply Forall_impl; [exact Hmiss |].
    intros x [Hx Hname]. destruct (Hname eq_refl) as [name Hname'].
    unfold search_hit, loose_match, username_is, lower_includes in *.
    rewrite Hname' in *. cbn [negb andb] in Hx.
    apply orb_false_iff in Hx as [-> ->]. done.
  - eapply Forall_impl; [exact Hmiss |].
    intros x [Hx _]. unfold search_hit, username_is in *.
    destruct (username x); [| done]. by apply orb_false_iff in Hx as [-> _].
Qed.

(** C4, as the code has it.  A rejection of the fetch is caught and never
    leaves [resolveUser].  The one error that does is the [TypeError] of
    the search that is not exact, when it reads the user name of a cached
    user that has none; with a user name on every cached user, as the
    library declares it, [resolveUser] never throws.  On a failed lookup
    it returns [undefined]: for the empty query, and when no user is
    fetched and no cache entry is what the search looks for. *)
Theorem resolveUser_fetch_caught (query : string) (exact : bool) :
  (forall e, resolveUser fetch cache toLowerCase query exact = JS.Throw e ->
     e = JS.TypeError /\ exact = false /\ exists x, x ∈ cache /\ username x = None)
  /\ (Forall (fun x => is_Some (username x)) cache ->
      exists result, resolveUser fetch cache toLowerCase query exact = JS.Normal result)
  /\ (query = ""%string ->
      resolveUser fetch cache toLowerCase query exact = JS.Normal None)
  /\ (nothing_fetched fetch query ->
      Forall (fun x => search_hit toLowerCase query exact x = false
                       /\ (exact = false -> is_Some (username x))) cache ->
      resolveUser fetch cache toLowerCase query exact = JS.Normal None).
Proof.
  assert (Hthrow : forall e, resolveUser fetch cache toLowerCase query exact = JS.Throw e ->
            e = JS.TypeError /\ exact = false /\ exists x, x ∈ cache /\ username x = None).
  { intros e. unfold resolveUser.
    destruct (String.eqb_spec query "") as [-> | Hquery]; [done |].
    destruct (exec USER_MENTION query) as [patternMatch |]; cbn [JS.bind].
    - destruct (fetch (groups patternMatch !! 1%nat)) as [user | reason];
        cbn [JS.catch_void JS.await JS.bind]; [done |].
      apply resolve_cached_Throw.
    - apply resolve_cached_Throw. }
  split; [exact Hthrow |]. split; [| split].
  - intros Hnames.
    destruct (resolveUser fetch cache toLowerCase query exact) as [result | e] eqn:Hres;
      [eauto |].
    destruct (Hthrow e eq_refl) as (_ & _ & x & Hin & Hnone).
    rewrite Forall_forall in Hnames. destruct (Hnames x Hin) as [name Hname]. congruence.
  - intros ->. reflexivity.
  - unfold resolveUser, nothing_fetched.
    destruct (String.eqb_spec query "") as [-> | Hquery]; [done |].
    intros Hfetch Hmiss.
    destruct (exec USER_MENTION query) as [patternMatch |]; cbn [JS.bind].
    + destruct Hfetch as [reason ->]. cbn [JS.catch_void JS.await JS.bind].
      by apply resolve_cached_none.
    + by apply resolve_cached_none.
Qed.

End Client.

(** A mention whose fetch is rejected, with no cached user of that name. *)
Lemma resolveUser_fetch_caught_witness :
  resolveUser (fun _ => JS.Rejected JS.Rejection)
    [ {| id := "1"; username := Some "alice"%string |} ] ascii_toLowerCase
    "<@123456789012345678>" false
  = JS.Normal None.
Proof.
  apply (proj2 (proj2 (proj2 (resolveUser_fetch_caught
                         (fun _ => JS.Rejected JS.Rejection)
                         [ {| id := "1"; username := Some "alice"%string |} ]
                         ascii_toLowerCase "<@123456789012345678>" false)))).
  - vm_compute. exists JS.Rejection. reflexivity.
  - repeat constructor. eauto.
Defined.

(** C4, as stated, fails: with a cached user that has no user name (a
    partial user) a query that is no mention makes the search read
    [toLowerCase] of [null], and the [TypeError] leaves [resolveUser]. *)
Lemma resolveUser_throws_on_partial_user :
  resolveUser (fun _ => JS.Rejected JS.Rejection)
    [ {| id := "1"; username := None |} ] ascii_toLowerCase "bob" false
  = JS.Throw JS.TypeError.
Proof. reflexivity. Qed.

Example resolveUser_examples :
  let alice := {| id := "123456789012345678"; username := Some "Alice"%string |} in
  let bob := {| id := "2"; username := Some "bob"%string |} in
  let partial := {| id := "3"; username := None |} in
  let fetch := fun i : option string =>
    if decide (i = Some "123456789012345678"%string)
    then JS.Fulfilled alice else JS.Rejected JS.Rejection in
  resolveUser fetch [bob] ascii_toLowerCase "<@123456789012345678>" false
    = JS.Normal (Some alice)
  /\ resolveUser fetch [alice; bob] ascii_toLowerCase "bob" true = JS.Normal (Some bob)
  /\ resolveUser fetch [alice; bob] ascii_toLowerCase "LIC" false = JS.Normal (Some alice)
  /\ resolveUser fetch [alice; bob] ascii_toLowerCase "LIC" true = JS.Normal None
  /\ resolveUser fetch [alice; bob] ascii_toLowerCase "" false = JS.Normal None
  /\ resolveUser fetch [alice; partial; bob] ascii_toLowerCase "LIC" false
     = JS.Normal (Some alice)
  /\ resolveUser fetch [partial; alice; bob] ascii_toLowerCase "LIC" true = JS.Normal None
  /\ resolveUser fetch [partial; alice; bob] ascii_toLowerCase "bob" false
     = JS.Normal (Some bob).
Proof. repeat split. Qed.

(** The mention pattern captures at most twenty digits, at the first index
    where it matches. *)
Example USER_MENTION_examples :
  (groups <$> exec USER_MENTION "hi <@!12345678901234567890123>") = Some {[ 1%nat := "12345678901234567890"%string ]}
  /\ exec USER_MENTION "<@1234567890123456>" = None.
Proof. split; reflexivity. Qed.

End ValidationUtilsFacts.

(** ** ValidationUtils: what the patterns accept, and the two resolvers *)

Module ValidatorsFacts.
Import RegExp ValidationUtils RegExpFacts ValidationUtilsFacts.

(** *** Characters by index *)

Lemma get_Some_lt (s : string) :
  forall i c, String.get i s = Some c -> (i < String.length s)%nat.
Proof.
  induction s as [| a s IH]; intros [| i] c; cbn [String.get String.length]; try done.
  - lia.
  - intros H%IH. lia.
Qed.

Lemma get_lt_Some (s : string) :
  forall i, (i < String.length s)%nat -> exists c, String.get i s = Some c.
Proof.
  induction s as [| a s IH]; intros [| i]; cbn [String.get String.length]; try lia.
  - eauto.
  - intros Hi. apply IH. lia.
Qed.

Lemma all_at_app (p : ascii -> bool) (s : string) (a b : nat) :
  forall i, all_at p s i (a + b) = all_at p s i a && all_at p s (i + a) b.
Proof.
  induction a as [| a IH]; intros i; cbn [Nat.add all_at andb].
  - by rewrite Nat.add_0_r.
  - destruct (String.get i s) as [ch |]; [| done].
    rewrite IH, Nat.add_succ_r. cbn [Nat.add]. by rewrite andb_assoc.
Qed.

Lemma all_at_le (p : ascii -> bool) (s : string) (k : nat) :
  forall i, all_at p s i k = true -> (0 < k)%nat -> (i + k <= String.length s)%nat.
Proof.
  induction k as [| k IH]; intros i; cbn [all_at]; [lia |].
  destruct (String.get i s) as [ch |] eqn:Hget; [| done].
  intros [_ Hrest]%andb_true_iff _. apply get_Some_lt in Hget.
  destruct k; [lia |]. specialize (IH (S i) Hrest). lia.
Qed.

Lemma all_at_total (p : ascii -> bool) (s : string) (k : nat) :
  (forall c, p c = true) ->
  forall i, (i + k <= String.length s)%nat -> all_at p s i k = true.
Proof.
  intros Hp. induction k as [| k IH]; intros i Hi; cbn [all_at]; [done |].
  destruct (get_lt_Some s i ltac:(lia)) as [c ->].
  rewrite Hp, IH; [done | lia].
Qed.


(** *** What the parts of a pattern read *)

Section Parts.

Variable input : string.
Variable flag_i : bool.

Lemma reads_character_intro (p : ascii -> bool) (i : nat) (caps : gmap nat string) :
  char_at p input i = true ->
  reads_character input p (State i caps) (State (S i) caps).
Proof.
  unfold char_at, reads_character. cbn [endIndex captures].
  destruct (String.get i input) as [ch |]; [eauto | done].
Qed.

Lemma reads_character_inv (p : ascii -> bool) (x y : state) :
  reads_character input p x y ->
  char_at p input (endIndex x) = true /\ y = State (S (endIndex x)) (captures x).
Proof.
  intros (ch & Hget & Hp & ->). unfold char_at. by rewrite Hget.
Qed.

(** A quantified single character reads a run of matching characters. *)
Lemma iterate_characters (p : ascii -> bool) (caps : gmap nat string) (k : nat) :
  forall min max i,
    (min <= k <= max)%nat ->
    all_at p input i k = true ->
    iterate (reads_character input p) min max (State i caps) (State (i + k) caps).
Proof.
  induction k as [| k IH]; intros min max i Hk Hall.
  - replace min with 0%nat by lia. rewrite Nat.add_0_r. apply iterate_stop.
  - destruct max as [| max]; [lia |].
    cbn [all_at] in Hall.
    destruct (String.get i input) as [ch |] eqn:Hget; [| done].
    apply andb_true_iff in Hall as [Hp Hrest].
    apply iterate_step with (y := State (S i) caps).
    + apply reads_character_intro. unfold char_at. by rewrite Hget.
    + cbn [endIndex]. lia.
    + replace (i + S k)%nat with (S i + k)%nat by lia. apply IH; [lia | done].
Qed.

Lemma iterate_characters_inv (p : ascii -> bool) (min max : nat) (x y : state) :
  iterate (reads_character input p) min max x y ->
  exists k, (k <= max)%nat /\ (min <= k \/ k = max)%nat
            /\ all_at p input (endIndex x) k = true
            /\ y = State (endIndex x + k) (captures x).
Proof.
  induction 1 as [min x | max x | min max x y z Hxy _ _ (k & Hk & Hmin & Hall & ->)].
  - exists 0%nat. destruct x. cbn. rewrite Nat.add_0_r. repeat split; lia || auto.
  - exists 0%nat. destruct x. cbn. rewrite Nat.add_0_r. repeat split; lia || auto.
  - apply reads_character_inv in Hxy as [Hchar ->]. cbn [endIndex captures] in *.
    exists (S k). split; [lia |]. split; [lia |]. split.
    + cbn [all_at]. unfold char_at in Hchar.
      destruct (String.get (endIndex x) input); [| done]. by rewrite Hchar.
    + f_equal. lia.
Qed.

(** [a?]: nothing, or one [a] that consumes something. *)
Lemma iterate_optional (R : state -> state -> Prop) (x y : state) :
  iterate R 0 1 x y <-> y = x \/ (R x y /\ endIndex y <> endIndex x).
Proof.
  split.
  - inversion 1 as [| | ? ? ? ? ? Hxy Hne Hrest]; subst; [by left |].
    right. inversion Hrest; subst; auto.
  - intros [-> | [Hxy Hne]]; [apply iterate_stop |].
    eapply iterate_step; [exact Hxy | done | apply iterate_limit].
Qed.

Lemma reads_Literal (s : string) :
  forall x y,
    reads input flag_i (Literal s) x y
    <-> literal_at flag_i s input (endIndex x) = true
        /\ y = State (endIndex x + String.length s) (captures x).
Proof.
  induction s as [| c s IH]; intros [i caps] y; cbn [Literal reads literal_at String.length endIndex captures].
  - rewrite Nat.add_0_r. split; [by intros -> | by intros [_ ->]].
  - split.
    + intros (z & (ch & Hget & Hp & ->) & Hrest). cbn [endIndex captures] in *.
      apply IH in Hrest as [Hlit ->]. cbn [endIndex captures] in *.
      rewrite Hget, Hp, Hlit. split; [done |]. f_equal. lia.
    + intros [Hlit ->]. destruct (String.get i input) as [ch |] eqn:Hget; [| done].
      apply andb_true_iff in Hlit as [Hp Hlit].
      exists (State (S i) caps). split.
      * exists ch. cbn [endIndex captures]. by rewrite Hget.
      * apply IH. cbn [endIndex captures]. split; [done |]. f_equal. lia.
Qed.

Lemma literal_at_app (s t : string) :
  forall i, literal_at flag_i (s ++ t) input i
            = literal_at flag_i s input i && literal_at flag_i t input (i + String.length s).
Proof.
  induction s as [| c s IH]; intros i.
  - change (EmptyString +:+ t) with t. cbn [literal_at String.length andb].
    by rewrite Nat.add_0_r.
  - change (String c s +:+ t) with (String c (s +:+ t)).
    cbn [literal_at String.length].
    destruct (String.get i input) as [ch |]; [| done].
    rewrite IH, Nat.add_succ_r. cbn [Nat.add]. by rewrite andb_assoc.
Qed.

End Parts.

(** The classes, as predicates on a character. *)
Lemma digit_class_matches (flag_i : bool) (c : ascii) :
  class_matches flag_i [("0", "9")]%char c = is_digit c.
Proof. destruct flag_i, c as [[] [] [] [] [] [] [] []]; vm_compute; reflexivity. Qed.

Lemma word_class_matches (flag_i : bool) (c : ascii) :
  class_matches flag_i [("0", "9"); ("A", "Z"); ("_", "_"); ("a", "z")]%char c = is_word c.
Proof. destruct flag_i, c as [[] [] [] [] [] [] [] []]; vm_compute; reflexivity. Qed.

(** *** The mention pattern of [resolveUser] and [resolveMember] *)

Lemma substring_all_at (p : ascii -> bool) (s : string) :
  forall i k, all_at p s i k = true ->
    String.length (substring i k s) = k
    /\ Radix16.all_chars p (substring i k s) = true.
Proof.
  induction s as [| a s IH]; intros i k Hall.
  - destruct k; [by destruct i |]. cbn [all_at] in Hall. by destruct i.
  - destruct i as [| i].
    + destruct k as [| k]; [done |].
      cbn [all_at String.get] in Hall. apply andb_true_iff in Hall as [Hp Hall].
      rewrite all_at_tail in Hall. apply IH in Hall as [Hlen Hchars].
      cbn [substring String.length Radix16.all_chars]. by rewrite Hlen, Hp, Hchars.
    + cbn [substring]. apply IH.
      destruct k; [done |]. by rewrite <- (all_at_tail p a s (S k) i).
Qed.

(** A match that [exec] returns is something the pattern reads, from the
    index of the match, and its groups are the captures read. *)
Lemma exec_Some_reads (re : regexp) (str : string) (m : match_array) :
  exec re str = Some m ->
  exists y, reads str (ignoreCase re) (source re) (State (index m) ∅) y
            /\ groups m = captures y.
Proof.
  unfold exec.
  generalize (String.length str) at 1. generalize 0%nat.
  intros i fuel. revert i. induction fuel as [| fuel IH]; intros i; cbn [scan].
  all: destruct (match_at str (ignoreCase re) (source re) i) as [a |] eqn:Ha;
    [| by (done || apply IH)].
  all: intros [= <-]; unfold match_at in Ha;
    destruct (compile _ _ _ _ _) as [z |] eqn:Hz in Ha; [| done];
    injection Ha as <-; cbn [index groups];
    apply compile_sound in Hz as (y & Hy & [= ->]); eauto.
Qed.

(** The mention pattern matches exactly the queries that hold seventeen
    digits in a row: these are the queries a fetch by id is made for. *)
Theorem USER_MENTION_matches (query : string) :
  is_Some (exec USER_MENTION query)
  <-> exists i, all_at is_digit query i 17 = true.
Proof.
  rewrite exec_is_Some. cbn [source ignoreCase USER_MENTION reads Optional Digit]. split.
  - intros (i & y & _ & x1 & _ & x2 & _ & x3 & _ & x4 & (y' & Hdigits & _) & _).
    apply iterate_characters_inv in Hdigits as (k & _ & Hmin & Hall & _).
    rewrite (all_at_ext _ _ _ _ (digit_class_matches false)) in Hall.
    exists (endIndex x3).
    replace k with (17 + (k - 17))%nat in Hall by lia.
    rewrite all_at_app in Hall. by apply andb_true_iff in Hall as [? _].
  - intros [i Hall]. exists i. eexists. split; [pose proof (all_at_le _ _ _ _ Hall); lia |].
    exists (State i ∅). split; [apply iterate_stop |].
    exists (State i ∅). split; [apply iterate_stop |].
    exists (State i ∅). split; [apply iterate_stop |].
    eexists. split.
    + eexists. split; [| reflexivity].
      apply (iterate_characters query _ ∅ 17); [lia |].
      by rewrite (all_at_ext _ _ _ _ (digit_class_matches false)).
    + apply iterate_stop.
Qed.

(** The id taken from a query, the first group of the match, is a string
    of 17 to 20 digits. *)
Theorem USER_MENTION_id (query : string) (m : match_array) :
  exec USER_MENTION query = Some m ->
  exists id, groups m !! 1%nat = Some id
             /\ (17 <= String.length id <= 20)%nat
             /\ Radix16.all_chars is_digit id = true.
Proof.
  intros (y & Hreads & Hgroups)%exec_Some_reads. rewrite Hgroups. clear Hgroups.
  cbn [source ignoreCase USER_MENTION reads Optional Digit] in Hreads.
  destruct Hreads as (x1 & _ & x2 & _ & x3 & _ & x4 & (y' & Hdigits & ->) & Hlast).
  apply iterate_characters_inv in Hdigits as (k & Hmax & Hmin & Hall & ->).
  rewrite (all_at_ext _ _ _ _ (digit_class_matches false)) in Hall.
  cbn [endIndex captures] in Hlast.
  apply iterate_characters_inv in Hlast as (k' & _ & _ & _ & ->). cbn [captures].
  replace (endIndex x3 + k - endIndex x3)%nat with k by lia.
  apply substring_all_at in Hall as [Hlen Hchars].
  eexists. split; [apply lookup_insert_eq |]. split; [lia | done].
Qed.

(** *** [stringIsCustomEmoji] *)

Lemma all_at_S (p : ascii -> bool) (s : string) (i k : nat) :
  all_at p s i (S k) = char_at p s i && all_at p s (S i) k.
Proof. cbn [all_at]. unfold char_at. by destruct (String.get i s). Qed.

Lemma is_Some_true {A} (o : option A) :
  match o with Some _ => true | None => false end = true <-> is_Some o.
Proof.
  destruct o as [a |]; split; [eauto | done | done | by intros [? ?]].
Qed.

(** [stringIsCustomEmoji] accepts exactly the strings that hold, at some
    index, two word characters, a colon and seventeen digits: the angle
    brackets are not needed and the pattern is not anchored. *)
Theorem stringIsCustomEmoji_iff (str : string) :
  stringIsCustomEmoji str = true <-> exists i, custom_emoji_at str i = true.
Proof.
  unfold stringIsCustomEmoji. rewrite is_Some_true, exec_is_Some.
  cbn [source ignoreCase CUSTOM_EMOJI reads Optional Digit Word]. split.
  - intros (i & y & _ & x1 & _ & x2 & _ & x3 & _ & x4 & (y2 & Hname & ->)
            & x5 & Hcolon & x6 & (y3 & Hdigits & _) & _).
    apply iterate_characters_inv in Hname as (k & _ & Hk & Hname & ->).
    cbn [endIndex captures] in Hcolon.
    apply reads_character_inv in Hcolon as [Hcolon ->].
    cbn [endIndex captures] in Hcolon, Hdigits.
    apply iterate_characters_inv in Hdigits as (k' & _ & Hk' & Hdigits & _).
    cbn [endIndex] in Hdigits.
    rewrite (all_at_ext _ _ _ _ (word_class_matches false)) in Hname.
    rewrite (all_at_ext _ _ _ _ (digit_class_matches false)) in Hdigits.
    exists (endIndex x3 + (k - 2))%nat. unfold custom_emoji_at.
    replace k with ((k - 2) + 2)%nat in Hname at 1 by lia.
    rewrite all_at_app in Hname. apply andb_true_iff in Hname as [_ ->].
    replace (endIndex x3 + (k - 2) + 2)%nat with (endIndex x3 + k)%nat by lia.
    replace (endIndex x3 + (k - 2) + 3)%nat with (S (endIndex x3 + k)) by lia.
    change (char_at (Ascii.eqb ":") str (endIndex x3 + k))
      with (char_at (char_matches false ":") str (endIndex x3 + k)).
    rewrite Hcolon.
    replace k' with (17 + (k' - 17))%nat in Hdigits by lia.
    rewrite all_at_app in Hdigits. by apply andb_true_iff in Hdigits as [-> _].
  - intros [i Hat]. unfold custom_emoji_at in Hat.
    apply andb_true_iff in Hat as [[Hname Hcolon]%andb_true_iff Hdigits].
    exists i. eexists. split; [pose proof (all_at_le _ _ _ _ Hname); lia |].
    exists (State i ∅). split; [apply iterate_stop |].
    exists (State i ∅). split; [apply iterate_stop |].
    exists (State i ∅). split; [apply iterate_stop |].
    eexists. split.
    { eexists. split; [| reflexivity].
      apply (iterate_characters str _ ∅ 2); [lia |].
      by rewrite (all_at_ext _ _ _ _ (word_class_matches false)). }
    cbn [endIndex captures].
    eexists. split; [apply reads_character_intro; exact Hcolon |].
    eexists. split.
    { eexists. split; [| reflexivity].
      apply (iterate_characters str _ _ 17); [lia |].
      rewrite (all_at_ext _ _ _ _ (digit_class_matches false)).
      by replace (S (i + 2)) with (i + 3)%nat by lia. }
    apply iterate_stop.
Qed.

(** *** [stringIsUrl] *)

Lemma nonspace_class_matches (c : ascii) :
  class_matches true
    [ (ascii_of_nat 0, ascii_of_nat 8); (ascii_of_nat 14, ascii_of_nat 31);
      (ascii_of_nat 33, ascii_of_nat 159); (ascii_of_nat 161, ascii_of_nat 255) ] c
  = not_space c.
Proof. destruct c as [[] [] [] [] [] [] [] []]; vm_compute; reflexivity. Qed.

Lemma word_not_space (c : ascii) : is_word c = true -> not_space c = true.
Proof. destruct c as [[] [] [] [] [] [] [] []]; vm_compute; congruence. Qed.

Lemma all_at_first (p : ascii -> bool) (s : string) (i k : nat) :
  all_at p s i k = true -> (1 <= k)%nat -> char_at p s i = true.
Proof.
  destruct k as [| k]; [lia |]. rewrite all_at_S. by intros [? _]%andb_true_iff.
Qed.

Lemma literal_at_1 (flag_i : bool) (c : ascii) (s : string) (i : nat) :
  literal_at flag_i (String c EmptyString) s i = char_at (char_matches flag_i c) s i.
Proof.
  cbn [literal_at]. unfold char_at. destruct (String.get i s); [| done].
  by rewrite andb_true_r.
Qed.

(** On 8-bit characters the pattern of [stringIsUrl] matches exactly the
    strings that hold, at some index, [http://] or [https://] in any case
    followed by a character that is not white space. *)
Lemma matches_URL_iff (url : string) :
  matches_URL url = true <-> exists i, url_start_at url i = true.
Proof.
  unfold matches_URL. rewrite is_Some_true, exec_is_Some.
  set (n := String.length url) at 1.
  cbn [source ignoreCase URL reads Optional Plus Star Digit Word NonSpace].
  fold (Literal "http") (Literal "://"). split.
  - intros (i & y & _ & x1 & Hhttp & x2 & Hs & x3 & Hsep & x4 & Huser & x5
            & (y2 & Hrest & _) & _).
    apply reads_Literal in Hhttp as [Hhttp ->]. cbn [endIndex captures String.length] in *.
    apply iterate_characters_inv in Hs as (k & Hk & _ & Hs & ->).
    cbn [endIndex captures] in *.
    apply reads_Literal in Hsep as [Hsep ->]. cbn [endIndex captures String.length] in *.
    assert (Hnext : char_at not_space url (i + 4 + k + 3) = true).
    { apply iterate_optional in Huser as [-> | [(y1 & (z & Hword & _) & _) _]].
      - apply iterate_characters_inv in Hrest as (k2 & _ & Hk2 & Hrest & _).
        cbn [endIndex] in Hrest.
        rewrite (all_at_ext _ _ _ _ nonspace_class_matches) in Hrest.
        apply (all_at_first _ _ _ _ Hrest). lia.
      - apply iterate_characters_inv in Hword as (k1 & _ & Hk1 & Hword & _).
        cbn [endIndex] in Hword.
        rewrite (all_at_ext _ _ _ _ (word_class_matches true)) in Hword.
        apply (all_at_first _ _ _ _) in Hword; [| lia].
        unfold char_at in *. destruct (String.get _ url); [| done].
        by apply word_not_space. }
    exists i. unfold url_start_at. apply orb_true_iff.
    destruct k as [| [| k]]; [left | right | lia].
    + change "http://"%string with ("http" +:+ "://")%string.
      rewrite literal_at_app, Hhttp. cbn [String.length andb].
      rewrite Nat.add_0_r in Hsep, Hnext. rewrite Hsep. cbn [andb].
      by replace (i + 7)%nat with (i + 4 + 3)%nat by lia.
    + change "https://"%string with ("http" +:+ "s" +:+ "://")%string.
      rewrite !literal_at_app, Hhttp. cbn [String.length andb].
      rewrite all_at_S in Hs. apply andb_true_iff in Hs as [Hs _].
      rewrite literal_at_1, Hs, Hsep. cbn [andb].
      by replace (i + 8)%nat with (i + 4 + 1 + 3)%nat by lia.
  - intros [i Hat]. unfold url_start_at in Hat.
    assert (Hshape : exists k, (k <= 1)%nat
              /\ literal_at true "http" url i = true
              /\ all_at (char_matches true "s") url (i + 4) k = true
              /\ literal_at true "://" url (i + 4 + k) = true
              /\ char_at not_space url (i + 4 + k + 3) = true).
    { apply orb_true_iff in Hat as [[Hlit Hnext]%andb_true_iff | [Hlit Hnext]%andb_true_iff].
      - exists 0%nat.
        change "http://"%string with ("http" +:+ "://")%string in Hlit.
        rewrite literal_at_app in Hlit. apply andb_true_iff in Hlit as [Hhttp Hsep].
        cbn [String.length] in Hsep. rewrite Nat.add_0_r.
        replace (i + 4 + 3)%nat with (i + 7)%nat by lia. auto.
      - exists 1%nat.
        change "https://"%string with ("http" +:+ "s" +:+ "://")%string in Hlit.
        rewrite !literal_at_app in Hlit.
        apply andb_true_iff in Hlit as [Hhttp [Hs Hsep]%andb_true_iff].
        cbn [String.length] in Hs, Hsep. rewrite literal_at_1 in Hs.
        rewrite all_at_S, Hs. cbn [all_at andb].
        replace (i + 4 + 1 + 3)%nat with (i + 8)%nat by lia. auto. }
    destruct Hshape as (k & Hk & Hhttp & Hs & Hsep & Hnext).
    exists i. eexists. split.
    { pose proof (all_at_le not_space url 1 (i + 4 + k + 3)) as Hle. rewrite all_at_S in Hle.
      rewrite Hnext in Hle. cbn in Hle. subst n. specialize (Hle eq_refl). lia. }
    eexists. split; [apply reads_Literal; split; [exact Hhttp | reflexivity] |].
    cbn [endIndex captures String.length].
    eexists. split; [apply (iterate_characters url _ ∅ k); [lia | exact Hs] |].
    eexists. split; [apply reads_Literal; split; [exact Hsep | reflexivity] |].
    cbn [endIndex captures String.length].
    eexists. split; [apply iterate_stop |].
    eexists. split.
    { eexists. split; [| reflexivity].
      apply (iterate_characters url _ ∅ 1); [lia |].
      rewrite (all_at_ext _ _ _ _ nonspace_class_matches), all_at_S, Hnext. done. }
    eexists. split; apply iterate_stop.
Qed.

(** *** [urlHasImageExtension] *)

Lemma dot_class_matches (c : ascii) :
  class_matches true
    [ (ascii_of_nat 0, ascii_of_nat 9); (ascii_of_nat 11, ascii_of_nat 12);
      (ascii_of_nat 14, ascii_of_nat 255) ] c
  = not_line_terminator c.
Proof. destruct c as [[] [] [] [] [] [] [] []]; vm_compute; reflexivity. Qed.

Lemma any_class_matches (c : ascii) :
  class_matches true [ (ascii_of_nat 0, ascii_of_nat 255) ] c = true.
Proof. destruct c as [[] [] [] [] [] [] [] []]; vm_compute; reflexivity. Qed.

Lemma question_matches (c : ascii) : char_matches true "?" c = Ascii.eqb "?" c.
Proof. destruct c as [[] [] [] [] [] [] [] []]; vm_compute; reflexivity. Qed.

Lemma char_at_ext (p q : ascii -> bool) (s : string) (i : nat) :
  (forall c, p c = q c) -> char_at p s i = char_at q s i.
Proof. intros Hpq. unfold char_at. by destruct (String.get i s). Qed.

Section ImagePattern.

Variable url : string.

(** What the alternatives [jpg|jpeg|gif|png] read. *)
Lemma reads_extension (x y : state) :
  reads url true
    (Alt (Literal "jpg") (Alt (Literal "jpeg") (Alt (Literal "gif") (Literal "png")))) x y
  <-> exists ext, ext ∈ image_extensions
                  /\ literal_at true ext url (endIndex x) = true
                  /\ y = State (endIndex x + String.length ext) (captures x).
Proof.
  cbn [reads]. fold (Literal "jpg") (Literal "jpeg") (Literal "gif") (Literal "png").
  rewrite !reads_Literal. unfold image_extensions. split.
  - intros [[? ?] | [[? ?] | [[? ?] | [? ?]]]]; eexists; (split; [| split; eassumption]);
      rewrite !elem_of_cons; auto.
  - intros (ext & Hin & Hlit & ->).
    rewrite !elem_of_cons, elem_of_nil in Hin.
    destruct Hin as [-> | [-> | [-> | [-> | []]]]]; auto 6.
Qed.

End ImagePattern.

(** The part of the pattern before the optional query, read up to the end
    of the extension at index [e]. *)
Ltac read_image_prefix :=
  match goal with
  | Hhttp : literal_at true "http" ?url 0 = true,
    Hdot : char_at not_line_terminator ?url (?e - 1) = true,
    Hlit : literal_at true ?ext ?url ?e = true |- _ =>
      exists 0%nat; eexists; (split; [lia |]);
      exists (State 0 ∅); (split; [done |]);
      eexists; (split; [apply reads_Literal; split; [exact Hhttp | reflexivity] |]);
      cbn [endIndex captures String.length];
      eexists; (split;
        [apply (iterate_characters url _ ∅ (e - 5));
           [lia | apply all_at_total; [apply any_class_matches | lia]] |]);
      eexists; (split;
        [apply reads_character_intro;
         replace (0 + 4 + (e - 5))%nat with (e - 1)%nat by lia;
         by rewrite (char_at_ext _ _ _ _ dot_class_matches) |]);
      replace (S (0 + 4 + (e - 5))) with e by lia;
      eexists; (split;
        [eexists; (split; [| reflexivity]);
         apply (proj2 (reads_extension url _ _)); exists ext;
         cbn [endIndex captures]; eauto |]);
      cbn [endIndex captures]
  end.

(** On 8-bit characters the pattern of [urlHasImageExtension] matches
    exactly the strings of [image_url_shape]. *)
Lemma matches_IMAGE_EXTENSION_iff (url : string) :
  matches_IMAGE_EXTENSION url = true <-> image_url_shape url.
Proof.
  unfold matches_IMAGE_EXTENSION, image_url_shape. rewrite is_Some_true, exec_is_Some.

  cbn [source ignoreCase IMAGE_EXTENSION]. unfold Optional, Star, Dot, Any.
  cbn [reads]. fold (Literal "http") (Literal "jpg") (Literal "jpeg") (Literal "gif") (Literal "png").
  split.
  - intros (i & y & _ & x0 & [Hstart ->] & x1 & Hhttp & x2 & Hany & x3 & Hdot & x4
            & (y1 & Hext & ->) & x5 & Hquery & Hend & _).
    cbn [endIndex] in Hstart. subst i.
    apply reads_Literal in Hhttp as [Hhttp ->]. cbn [endIndex captures String.length] in *.
    apply iterate_characters_inv in Hany as (k & _ & _ & _ & ->). cbn [endIndex captures] in *.
    change (0 + 4 + k)%nat with (4 + k)%nat in *.
    apply reads_character_inv in Hdot as [Hdot ->]. cbn [endIndex captures] in *.
    apply (proj1 (reads_extension url _ _)) in Hext. destruct Hext as (ext & Hin & Hlit & ->).
    cbn [endIndex captures] in *.
    split; [exact Hhttp |].
    exists (S (4 + k)), ext. split; [done |]. split; [lia |]. split.
    { replace (S (4 + k) - 1)%nat with (4 + k)%nat by lia.
      by rewrite <- (char_at_ext _ _ _ _ dot_class_matches). }
    split; [exact Hlit |].
    apply (proj1 (iterate_optional _ _ _)) in Hquery
      as [-> | [(y2 & (y3 & Hq & y4 & Hrest & ->) & ->) _]];
      cbn [endIndex] in Hend; [by left | right].
    apply reads_character_inv in Hq as [Hq ->]. cbn [endIndex captures] in *.
    apply iterate_characters_inv in Hrest as (k' & _ & _ & Hrest & ->).
    cbn [endIndex captures] in *.
    split.
    + by rewrite <- (char_at_ext _ _ _ _ question_matches).
    + rewrite (all_at_ext _ _ _ _ dot_class_matches) in Hrest.
      replace (S (4 + k) + String.length ext + 1)%nat
        with (S (S (4 + k) + String.length ext)) by lia.
      by replace (String.length url - S (S (4 + k) + String.length ext))%nat with k' by lia.
  - intros (Hhttp & e & ext & Hin & He & Hdot & Hlit & Htail).
    assert (Hlen : (e <= String.length url)%nat).
    { unfold char_at in Hdot. destruct (String.get (e - 1) url) eqn:Hget; [| done].
      apply get_Some_lt in Hget. lia. }
    destruct Htail as [Hend | [Hq Hrest]].
    + read_image_prefix.
      eexists. split; [apply iterate_stop |]. cbn [endIndex]. done.
    + read_image_prefix.
      eexists. split; [| split; [| reflexivity]].
      * apply iterate_optional. right. split.
        -- eexists. split; [| reflexivity].
           eexists. split.
           { apply reads_character_intro.
             by rewrite (char_at_ext _ _ _ _ question_matches). }
           eexists. split; [| reflexivity].
           apply (iterate_characters url _ _ (String.length url - (e + String.length ext + 1))).
           ++ lia.
           ++ rewrite (all_at_ext _ _ _ _ dot_class_matches).
              by replace (S (e + String.length ext)) with (e + String.length ext + 1)%nat by lia.
        -- cbn [endIndex]. lia.
      * cbn [endIndex].
        unfold char_at in Hq. destruct (String.get (e + String.length ext) url) eqn:Hget; [| done].
        apply get_Some_lt in Hget. lia.
Qed.

(** *** [stringIsRgbColor] *)

Lemma length_append (s t : string) :
  String.length (s +:+ t) = (String.length s + String.length t)%nat.
Proof.
  induction s as [| c s IH]; [done |].
  change (String c s +:+ t) with (String c (s +:+ t)). cbn [String.length]. by rewrite IH.
Qed.

Lemma get_after (pre u : string) (i : nat) :
  String.get (String.length pre + i) (pre +:+ u) = String.get i u.
Proof.
  induction pre as [| c pre IH]; [done |].
  change (String c pre +:+ u) with (String c (pre +:+ u)). exact IH.
Qed.

Lemma char_at_after (p : ascii -> bool) (pre u : string) (i : nat) :
  char_at p (pre +:+ u) (String.length pre + i) = char_at p u i.
Proof. unfold char_at. by rewrite get_after. Qed.

Lemma all_at_after (p : ascii -> bool) (pre u : string) (k : nat) :
  forall i, all_at p (pre +:+ u) (String.length pre + i) k = all_at p u i k.
Proof.
  induction k as [| k IH]; intros i; cbn [all_at]; [done |].
  rewrite get_after. destruct (String.get i u); [| done].
  by rewrite <- Nat.add_succ_r, IH.
Qed.

Lemma all_at_prefix (p : ascii -> bool) (s t : string) :
  Radix16.all_chars p s = true -> all_at p (s +:+ t) 0 (String.length s) = true.
Proof.
  induction s as [| c s IH]; [done |].
  change (String c s +:+ t) with (String c (s +:+ t)).
  cbn [Radix16.all_chars String.length all_at String.get].
  intros [-> Hs]%andb_true_iff. rewrite all_at_tail. by apply IH.
Qed.

Lemma comma_matches (c : ascii) : char_matches true "," c = Ascii.eqb "," c.
Proof. destruct c as [[] [] [] [] [] [] [] []]; vm_compute; reflexivity. Qed.


Lemma reads_component (input : string) (n g1 i k : nat) (caps : gmap nat string) :
  (1 <= k <= 3)%nat ->
  all_at is_digit input i k = true ->
  exists caps',
    reads input true (Seq (Star n Space) (Group g1 (Repeat Digit 1 3)))
      (State i caps) (State (i + k) caps').
Proof.
  intros Hk Hall. eexists. cbn [reads Star Digit].
  exists (State i caps). split; [apply iterate_stop |].
  exists (State (i + k) caps). split; [| reflexivity].
  apply (iterate_characters input _ caps k); [lia |].
  by rewrite (all_at_ext _ _ _ _ (digit_class_matches true)).
Qed.

Lemma reads_comma (input : string) (n i : nat) (caps : gmap nat string) :
  char_at (Ascii.eqb ",") input i = true ->
  reads input true (Seq (Star n Space) (Char ","))
    (State i caps) (State (S i) caps).
Proof.
  intros Hcomma. cbn [reads Star].
  exists (State i caps). split; [apply iterate_stop |].
  apply reads_character_intro. by rewrite (char_at_ext _ _ _ _ comma_matches).
Qed.

Lemma reads_Seq_assoc (input : string) (a b c : node) (x y : state) :
  reads input true (Seq a (Seq b c)) x y <-> reads input true (Seq (Seq a b) c) x y.
Proof.
  cbn [reads]. split.
  - intros (x1 & Ha & x2 & Hb & Hc). eauto.
  - intros (x2 & (x1 & Ha & Hb) & Hc). eauto.
Qed.

(** The part both alternatives share: three components and their commas,
    then [tail]. *)
Lemma reads_components_then (input : string) (n g1 g2 g3 : nat) (tail : node)
    (i a b c : nat) (caps : gmap nat string) :
  (1 <= a <= 3)%nat -> (1 <= b <= 3)%nat -> (1 <= c <= 3)%nat ->
  all_at is_digit input i a = true ->
  char_at (Ascii.eqb ",") input (i + a) = true ->
  all_at is_digit input (S (i + a)) b = true ->
  char_at (Ascii.eqb ",") input (S (i + a) + b) = true ->
  all_at is_digit input (S (S (i + a) + b)) c = true ->
  (forall caps', exists y, reads input true tail (State (S (S (i + a) + b) + c) caps') y) ->
  exists y, reads input true (Seq (Star n Space) (Seq (Group g1 (Repeat Digit 1 3))
       (Seq (Star n Space) (Seq (Char ",")
         (Seq (Star n Space) (Seq (Group g2 (Repeat Digit 1 3))
           (Seq (Star n Space) (Seq (Char ",")
             (Seq (Star n Space) (Seq (Group g3 (Repeat Digit 1 3)) tail)))))))))) (State i caps) y.
Proof.
  intros Ha Hb Hc Hr Hc1 Hg Hc2 Hbl Htail.
  destruct (reads_component input n g1 i a caps Ha Hr) as [caps1 H1].
  pose proof (reads_comma input n (i + a) caps1 Hc1) as H2.
  destruct (reads_component input n g2 (S (i + a)) b caps1 Hb Hg) as [caps2 H3].
  pose proof (reads_comma input n (S (i + a) + b) caps2 Hc2) as H4.
  destruct (reads_component input n g3 (S (S (i + a) + b)) c caps2 Hc Hbl) as [caps3 H5].
  destruct (Htail caps3) as [y Hy]. exists y.
  apply reads_Seq_assoc. eexists. split; [exact H1 |].
  apply reads_Seq_assoc. eexists. split; [exact H2 |].
  apply reads_Seq_assoc. eexists. split; [exact H3 |].
  apply reads_Seq_assoc. eexists. split; [exact H4 |].
  apply reads_Seq_assoc. eexists. split; [exact H5 |].
  exact Hy.
Qed.

(** Where the components and the commas stand in [pre r,g,b rest]. *)
Lemma components_at (pre r g b rest : string) :
  Radix16.all_chars is_digit r = true ->
  Radix16.all_chars is_digit g = true ->
  Radix16.all_chars is_digit b = true ->
  let input := pre +:+ r +:+ String "," (g +:+ String "," (b +:+ rest)) in
  let i := String.length pre in
  all_at is_digit input i (String.length r) = true
  /\ char_at (Ascii.eqb ",") input (i + String.length r) = true
  /\ all_at is_digit input (S (i + String.length r)) (String.length g) = true
  /\ char_at (Ascii.eqb ",") input (S (i + String.length r) + String.length g) = true
  /\ all_at is_digit input (S (S (i + String.length r) + String.length g)) (String.length b)
     = true
  /\ String.length input
     = (S (S (i + String.length r) + String.length g) + String.length b
        + String.length rest)%nat.
Proof.
  intros Hr Hg Hb input i. subst input i.
  set (u2 := b +:+ rest). set (u1 := g +:+ String "," u2).
  assert (Hu2 : all_at is_digit u2 0 (String.length b) = true) by by apply all_at_prefix.
  assert (Hu1 : all_at is_digit u1 0 (String.length g) = true) by by apply all_at_prefix.
  repeat split.
  - rewrite <- (Nat.add_0_r (String.length pre)), all_at_after. by apply all_at_prefix.
  - replace (String.length pre + String.length r)%nat
      with (String.length pre + (String.length r + 0))%nat by lia.
    by rewrite !char_at_after.
  - replace (S (String.length pre + String.length r))
      with (String.length pre + (String.length r + 1))%nat by lia.
    by rewrite !all_at_after, all_at_tail.
  - replace (S (String.length pre + String.length r) + String.length g)%nat
      with (String.length pre + (String.length r + S (String.length g + 0)))%nat by lia.
    rewrite !char_at_after. unfold char_at. cbn [String.get]. subst u1.
    by rewrite get_after.
  - replace (S (S (String.length pre + String.length r) + String.length g))
      with (String.length pre + (String.length r + S (String.length g + 1)))%nat by lia.
    rewrite !all_at_after, all_at_tail. subst u1. by rewrite all_at_after, all_at_tail.
  - subst u1 u2. rewrite !length_append. cbn [String.length]. rewrite !length_append.
    cbn [String.length]. rewrite !length_append. lia.
Qed.

(** [stringIsRgbColor] accepts any three components of one to three
    digits, bare or inside [rgb( )]: the pattern checks no component against
    255. *)
Theorem stringIsRgbColor_no_range_check (r g b : string) :
  is_component r -> is_component g -> is_component b ->
  stringIsRgbColor (r +:+ "," +:+ g +:+ "," +:+ b) = true
  /\ stringIsRgbColor ("rgb(" +:+ r +:+ "," +:+ g +:+ "," +:+ b +:+ ")") = true.
Proof.
  intros [Hrl Hr] [Hgl Hg] [Hbl Hb]. split.
  - pose proof (components_at "" r g b "" Hr Hg Hb) as (H1 & H2 & H3 & H4 & H5 & Hlen).
    cbn [String.length Nat.add] in *.
    change ("" +:+ r +:+ String "," (g +:+ String "," (b +:+ "")))
      with (r +:+ "," +:+ g +:+ "," +:+ b +:+ "") in *.
    assert (Hnil : b +:+ "" = b) by (clear; induction b as [| c s IH]; [done |];
      change (String c s +:+ "") with (String c (s +:+ "")); by rewrite IH).
    rewrite Hnil in *. clear Hnil.
    set (input := r +:+ "," +:+ g +:+ "," +:+ b) in *.
    unfold stringIsRgbColor. apply is_Some_true, exec_is_Some.
    exists 0%nat.
    destruct (reads_components_then input (String.length input) 6 7 8
                (Seq (Star (String.length input) Space) AssertEnd)
                0 _ _ _ ∅ Hrl Hgl Hbl H1 H2 H3 H4 H5) as [y Hy].
    { intros caps'. eexists. cbn [reads Star].
      eexists. split; [apply iterate_stop |]. cbn [endIndex]. split; [lia | reflexivity]. }
    exists y. split; [lia |].
    right. exists (State 0 ∅). split; [done |]. exact Hy.
  - pose proof (components_at "rgb(" r g b ")" Hr Hg Hb) as (H1 & H2 & H3 & H4 & H5 & Hlen).
    cbn [String.length] in *.
    change ("rgb(" +:+ r +:+ String "," (g +:+ String "," (b +:+ ")")))
      with ("rgb(" +:+ r +:+ "," +:+ g +:+ "," +:+ b +:+ ")") in *.
    set (input := "rgb(" +:+ r +:+ "," +:+ g +:+ "," +:+ b +:+ ")") in *.
    assert (Hhead : literal_at true "rgb" input 0 = true
                    /\ char_at (char_matches true "(") input 3 = true) by (split; reflexivity).
    destruct Hhead as [Hrgb Hparen].
    assert (Hclose : char_at (char_matches true ")") input
                       (S (S (4 + String.length r) + String.length g) + String.length b) = true).
    { subst input.
      replace (S (S (4 + String.length r) + String.length g) + String.length b)%nat
        with (String.length "rgb(" + (String.length r + (String.length ("," : string)
              + (String.length g + (String.length ("," : string) + (String.length b + 0))))))%nat
        by (cbn [String.length]; lia).
      by rewrite !char_at_after. }
    unfold stringIsRgbColor. apply is_Some_true, exec_is_Some.
    exists 0%nat.
    destruct (reads_components_then input (String.length input) 1 2 3
                (Seq (Star (String.length input) Space)
                   (Seq (Optional (Group 4
                           (Seq (Char ",")
                             (Seq (Star (String.length input) Space)
                               (Seq (Group 5
                                      (Alt (Char "0")
                                        (Alt (Char "1")
                                          (Seq (Optional (Char "0"))
                                            (Seq (Char ".") (Plus (String.length input) Digit))))))
                                 (Star (String.length input) Space))))))
                      (Seq (Char ")") AssertEnd)))
                4 _ _ _ ∅ Hrl Hgl Hbl H1 H2 H3 H4 H5) as [y Hy].
    { intros caps'. eexists. cbn [reads Star Optional].
      eexists. split; [apply iterate_stop |].
      eexists. split; [apply iterate_stop |].
      eexists. split; [apply reads_character_intro; exact Hclose |].
      cbn [endIndex]. split; [lia | reflexivity]. }
    exists y. split; [lia |].
    left. exists (State 0 ∅). split; [done |].
    eexists. split; [apply (proj2 (reads_Literal input true "rgb" _ _)); split; [exact Hrgb | reflexivity] |].
    cbn [endIndex captures String.length Nat.add].
    eexists. split; [apply iterate_stop |].
    eexists. split; [apply reads_character_intro; exact Hparen |].
    exact Hy.
Qed.

(** *** Code units above 255 *)

Lemma narrow_get (s : utf16) :
  forall i, String.get i (narrow s) = narrow_unit <$> s !! i.
Proof.
  unfold narrow. induction s as [| u s IH]; intros i; cbn [map string_of_list_ascii].
  - by destruct i.
  - destruct i as [| i]; cbn [String.get]; [done |]. apply IH.
Qed.

Lemma narrow_length (s : utf16) : String.length (narrow s) = length s.
Proof.
  unfold narrow. induction s as [| u s IH]; cbn [map string_of_list_ascii String.length length];
    [done | by rewrite IH].
Qed.

Lemma char_at_narrow (p : ascii -> bool) (s : utf16) (i : nat) :
  char_at p (narrow s) i = unit_at (fun u => p (narrow_unit u)) s i.
Proof. unfold char_at, unit_at. rewrite narrow_get. by destruct (s !! i). Qed.

Lemma all_at_narrow (p : ascii -> bool) (s : utf16) (n : nat) :
  forall i, all_at p (narrow s) i n = units_at (fun u => p (narrow_unit u)) s i n.
Proof.
  induction n as [| n IH]; intros i; cbn [all_at units_at]; [done |].
  rewrite <- IH. unfold unit_at. rewrite narrow_get. by destruct (s !! i).
Qed.

Lemma unit_at_ext (p q : N -> bool) (s : utf16) (i : nat) :
  (forall u, p u = q u) -> unit_at p s i = unit_at q s i.
Proof. intros Hpq. unfold unit_at. by destruct (s !! i). Qed.

Lemma units_at_ext (p q : N -> bool) (s : utf16) (n : nat) :
  (forall u, p u = q u) -> forall i, units_at p s i n = units_at q s i n.
Proof.
  intros Hpq. induction n as [| n IH]; intros i; cbn [units_at]; [done |].
  by rewrite IH, (unit_at_ext p q).
Qed.

(** The classes on the code units below 256, by enumeration. *)
Lemma classes_below_256 :
  forallb (fun k =>
             Bool.eqb (is_space (ascii_of_N (N.of_nat k))) (is_space_unit (N.of_nat k))
             && Bool.eqb (is_line_terminator (ascii_of_N (N.of_nat k)))
                  (is_line_terminator_unit (N.of_nat k))
             && Bool.eqb (Ascii.eqb "?" (ascii_of_N (N.of_nat k))) (N.of_nat k =? 63)%N)
          (seq 0 256) = true.
Proof. vm_compute. reflexivity. Qed.

Lemma narrow_unit_classes (u : N) :
  is_space (narrow_unit u) = is_space_unit u
  /\ is_line_terminator (narrow_unit u) = is_line_terminator_unit u
  /\ Ascii.eqb "?" (narrow_unit u) = (u =? 63)%N.
Proof.
  unfold narrow_unit. destruct (N.ltb_spec u 256) as [Hlt | Hge].
  - pose proof classes_below_256 as Hall. rewrite forallb_forall in Hall.
    specialize (Hall (N.to_nat u) ltac:(apply in_seq; lia)). rewrite N2Nat.id in Hall.
    apply andb_true_iff in Hall as [Hall Hq]. apply andb_true_iff in Hall as [Hs Hl].
    by rewrite (eqb_prop _ _ Hs), (eqb_prop _ _ Hl), (eqb_prop _ _ Hq).
  - assert (Hq : (u =? 63)%N = false) by (apply N.eqb_neq; lia).
    rewrite Hq.
    destruct (is_line_terminator_unit u) eqn:Hterm.
    + unfold is_line_terminator_unit in Hterm.
      rewrite !orb_true_iff, !N.eqb_eq in Hterm.
      destruct Hterm as [[[-> | ->] | ->] | ->]; try lia; done.
    + destruct (is_space_unit u); done.
Qed.

Lemma narrow_unit_matches (c : ascii) (u : N) :
  is_visible c = true -> char_matches true c (narrow_unit u) = unit_matches c u.
Proof.
  intros Hc. unfold narrow_unit, unit_matches.
  destruct (u <? 256)%N; [done |]. cbn [andb].
  destruct (is_line_terminator_unit u), (is_space_unit u);
    destruct c as [[] [] [] [] [] [] [] []]; try discriminate Hc; reflexivity.
Qed.

Lemma literal_at_narrow (s : string) (input : utf16) :
  Radix16.all_chars is_visible s = true ->
  forall i, literal_at true s (narrow input) i = literal_units_at s input i.
Proof.
  induction s as [| c s IH]; intros Hs i; cbn [literal_at literal_units_at]; [done |].
  cbn [Radix16.all_chars] in Hs. apply andb_true_iff in Hs as [Hc Hs].
  rewrite narrow_get. unfold unit_at.
  destruct (input !! i) as [u |]; cbn [fmap option_fmap option_map]; [| done].
  by rewrite narrow_unit_matches, IH.
Qed.

Lemma not_space_narrow (u : N) : not_space (narrow_unit u) = not_space_unit u.
Proof. unfold not_space, not_space_unit. by rewrite (proj1 (narrow_unit_classes u)). Qed.

Lemma not_line_terminator_narrow (u : N) :
  not_line_terminator (narrow_unit u) = not_line_terminator_unit u.
Proof.
  unfold not_line_terminator, not_line_terminator_unit.
  by rewrite (proj1 (proj2 (narrow_unit_classes u))).
Qed.

Lemma url_start_at_narrow (url : utf16) (i : nat) :
  url_start_at (narrow url) i = url_start_units_at url i.
Proof.
  unfold url_start_at, url_start_units_at.
  rewrite !literal_at_narrow by reflexivity. rewrite !char_at_narrow.
  by rewrite !(unit_at_ext _ _ _ _ not_space_narrow).
Qed.

(** [stringIsUrl] accepts exactly the strings that hold, at some index,
    [http://] or [https://] in any case followed by a code unit that is
    not white space. *)
Theorem stringIsUrl_iff (url : utf16) :
  stringIsUrl url = true <-> exists i, url_start_units_at url i = true.
Proof.
  unfold stringIsUrl. rewrite matches_URL_iff.
  by setoid_rewrite url_start_at_narrow.
Qed.

Lemma image_extensions_visible (ext : string) :
  ext ∈ image_extensions -> Radix16.all_chars is_visible ext = true.
Proof.
  unfold image_extensions. intros Hin.
  repeat (apply elem_of_cons in Hin as [-> | Hin]; [reflexivity |]).
  by apply elem_of_nil in Hin.
Qed.

(** [urlHasImageExtension] accepts exactly the strings of
    [image_url_units_shape]: they start with [http] in any case; at some
    index, at least 5, one of the extensions stands in any case, after a code
    unit that is not a line terminator and need not be a dot; and the
    extension ends the string or is followed by '?' and code units that
    are not line terminators up to the end. *)
Theorem urlHasImageExtension_iff (url : utf16) :
  urlHasImageExtension url = true <-> image_url_units_shape url.
Proof.
  unfold urlHasImageExtension. rewrite matches_IMAGE_EXTENSION_iff.
  unfold image_url_shape, image_url_units_shape.
  rewrite literal_at_narrow by reflexivity. rewrite narrow_length.
  assert (Hq : forall u, Ascii.eqb "?" (narrow_unit u) = (63 =? u)%N).
  { intros u. rewrite (proj2 (proj2 (narrow_unit_classes u))). apply N.eqb_sym. }
  split; intros (Hhttp & e & ext & Hin & He & Hdot & Hlit & Htail);
    (split; [done |]); exists e, ext;
    pose proof (image_extensions_visible ext Hin) as Hvisible;
    rewrite ?literal_at_narrow, ?char_at_narrow, ?all_at_narrow in * by done;
    rewrite ?(unit_at_ext _ _ _ _ not_line_terminator_narrow),
      ?(unit_at_ext _ _ _ _ Hq),
      ?(units_at_ext _ _ _ _ not_line_terminator_narrow) in *;
    done.
Qed.

(** *** [resolveUser] and [resolveMember] *)

Lemma exec_USER_MENTION_empty : exec USER_MENTION "" = None.
Proof. reflexivity. Qed.

Section Client.
Variable fetch : option string -> JS.promise User.
Variable cache : list User.
Variable toLowerCase : string -> string.

Lemma resolve_cached_sound (query : string) (exact : bool) (u : User) :
  resolve_cached cache toLowerCase query exact = JS.Normal (Some u) ->
  u ∈ cache /\ search_hit toLowerCase query exact u = true.
Proof.
  unfold resolve_cached.
  destruct (length _ =? 1)%nat.
  - intros [= Hhead]. apply head_Some_elem_of, list_elem_of_In, filter_In in Hhead.
    destruct Hhead as [Hin Hname]. split; [by apply list_elem_of_In |].
    unfold search_hit, username_is in *.
    destruct (username u); [by rewrite Hname | done].
  - destruct exact; cbn [negb]; [done |].
    intros [Hin Hloose]%Collection_find_Some. split; [done |].
    unfold search_hit, loose_match, username_is, lower_includes in *.
    destruct (username u) as [name |]; [| done]. cbn [negb andb].
    destruct (String.eqb name query); [done |]. by injection Hloose.
Qed.

(** A user [resolveUser] returns is the user fetched for the mention, or a
    cached user that is what the cache lookups search for. *)
Theorem resolveUser_sound (query : string) (exact : bool) (u : User) :
  resolveUser fetch cache toLowerCase query exact = JS.Normal (Some u) ->
  query <> ""%string
  /\ ((exists patternMatch,
         exec USER_MENTION query = Some patternMatch
         /\ fetch (groups patternMatch !! 1%nat) = JS.Fulfilled u)
      \/ (u ∈ cache /\ search_hit toLowerCase query exact u = true)).
Proof.
  unfold resolveUser.
  destruct (String.eqb_spec query "") as [-> | Hquery]; [done |].
  intros Hres. split; [done |]. revert Hres.
  destruct (exec USER_MENTION query) as [patternMatch |]; cbn [JS.bind].
  - destruct (fetch (groups patternMatch !! 1%nat)) as [fetchedUser | reason] eqn:Hfetch;
      cbn [JS.catch_void JS.await JS.bind].
    + intros [= ->]. left. eauto.
    + intros Hcached. right. by apply resolve_cached_sound.
  - intros Hcached. right. by apply resolve_cached_sound.
Qed.

(** A mention whose fetch is fulfilled decides the result: the cache is
    not consulted. *)
Theorem resolveUser_fetched (query : string) (exact : bool) (patternMatch : match_array) (u : User) :
  exec USER_MENTION query = Some patternMatch ->
  fetch (groups patternMatch !! 1%nat) = JS.Fulfilled u ->
  resolveUser fetch cache toLowerCase query exact = JS.Normal (Some u).
Proof.
  intros Hexec Hfetch. unfold resolveUser.
  destruct (String.eqb_spec query "") as [-> | _].
  - by rewrite exec_USER_MENTION_empty in Hexec.
  - by rewrite Hexec, Hfetch.
Qed.

(** With no user fetched, the one cached user that has the query as user
    name is returned; with [exact] a cached user is returned only when it
    is the one user of that name. *)
Theorem resolveUser_unique_name (query : string) (exact : bool) (u : User) :
  query <> ""%string ->
  nothing_fetched fetch query ->
  (List.filter (username_is query) cache = [u] ->
   resolveUser fetch cache toLowerCase query exact = JS.Normal (Some u))
  /\ (exact = true ->
      resolveUser fetch cache toLowerCase query exact = JS.Normal (Some u) ->
      List.filter (username_is query) cache = [u]).
Proof.
  intros Hquery Hfetch.
  assert (Hres : resolveUser fetch cache toLowerCase query exact
                 = resolve_cached cache toLowerCase query exact).
  { unfold resolveUser, nothing_fetched in *.
    destruct (String.eqb_spec query ""); [done |].
    destruct (exec USER_MENTION query); [| done].
    by destruct Hfetch as [reason ->]. }
  rewrite Hres. unfold resolve_cached. split.
  - by intros ->.
  - intros -> Hcached.
    destruct (List.filter _ cache) as [| x [| y l]]; cbn in Hcached; congruence.
Qed.

End Client.

Section Guild.
Variable fetch_member : option string -> JS.promise GuildMember.
Variable fetch_query : string -> JS.promise (list GuildMember).
Variable members_cache : list GuildMember.
Variable toLowerCase : string -> string.

Lemma lower_includes_Throw (text : option string) (query : string) (e : JS.error) :
  lower_includes toLowerCase text query = JS.Throw e -> e = JS.TypeError /\ text = None.
Proof. unfold lower_includes. destruct text; [done |]. by intros [= <-]. Qed.

(** The predicate of the filter throws only a [TypeError], on a member
    whose user name or display name is [null]. *)
Lemma member_matches_Throw (query : string) (member : GuildMember) (e : JS.error) :
  member_matches toLowerCase query member = JS.Throw e ->
  e = JS.TypeError /\ (member_username member = None \/ displayName member = None).
Proof.
  unfold member_matches.
  destruct (lower_includes toLowerCase (member_username member) query)
    as [[] | e'] eqn:Hname; cbn [JS.bind]; [done | |].
  - intros [-> Hnone]%lower_includes_Throw. eauto.
  - intros [= ->]. apply lower_includes_Throw in Hname as [-> Hnone]. eauto.
Qed.

(** A member the filter keeps has a user, so the final [find] reads its
    user name without a throw. *)
Lemma member_includes_user (query : string) (member : GuildMember) :
  member_includes toLowerCase query member = true ->
  exists found, member_username_is query member = JS.Normal found.
Proof.
  unfold member_includes, member_matches, member_username_is, member_username, lower_includes.
  destruct (user member) as [u |]; [eauto | done].
Qed.

Lemma resolve_cached_member_Normal (query : string) (exact : bool) (member : GuildMember) :
  resolve_cached_member members_cache toLowerCase query exact = JS.Normal (Some member) ->
  member ∈ members_cache
  /\ member_includes toLowerCase query member = true
  /\ (exact = true ->
      List.filter (member_includes toLowerCase query) members_cache = [member]).
Proof.
  unfold resolve_cached_member.
  destruct (Collection_filter (member_matches toLowerCase query) members_cache)
    as [kept | e] eqn:Hfilter; cbn [JS.bind]; [| done].
  apply Collection_filter_Normal in Hfilter as [-> _].
  fold (member_includes toLowerCase query).
  change (fun x => match member_matches toLowerCase query x with
                   | JS.Normal b => b
                   | JS.Throw _ => false
                   end) with (member_includes toLowerCase query).
  destruct (List.filter _ members_cache) as [| x [| y l]] eqn:Hfilter;
    cbn [length Nat.eqb head].
  - destruct exact; cbn [negb Collection_find]; done.
  - intros [= ->].
    assert (Hin : In member (List.filter (member_includes toLowerCase query) members_cache))
      by (rewrite Hfilter; by left).
    apply filter_In in Hin as [Hin Hincl]. by rewrite list_elem_of_In.
  - destruct exact; cbn [negb]; [done |].
    intros [Hin _]%Collection_find_Some. rewrite <- Hfilter in Hin.
    apply list_elem_of_In, filter_In in Hin as [Hin Hincl]. by rewrite list_elem_of_In.
Qed.

Lemma resolve_cached_member_Throw (query : string) (exact : bool) (e : JS.error) :
  resolve_cached_member members_cache toLowerCase query exact = JS.Throw e ->
  e = JS.TypeError
  /\ exists member, member ∈ members_cache
       /\ (member_username member = None \/ displayName member = None).
Proof.
  unfold resolve_cached_member.
  destruct (Collection_filter (member_matches toLowerCase query) members_cache)
    as [kept | e'] eqn:Hfilter; cbn [JS.bind].
  - apply Collection_filter_Normal in Hfilter as [-> _].
    destruct (length _ =? 1)%nat; [done |].
    destruct exact; cbn [negb]; [done |].
    intros (member & Hin & Hthrow)%Collection_find_Throw.
    apply list_elem_of_In, filter_In in Hin as [_ Hkept].
    destruct (member_includes_user query member Hkept) as [found Hfound]. congruence.
  - intros [= ->].
    apply Collection_filter_Throw in Hfilter as (member & Hin & Hthrow).
    apply member_matches_Throw in Hthrow as [-> Hnone]. eauto.
Qed.

(** What [resolveMember] does after the fetch for a mention found
    nothing. *)
Lemma resolveMember_unfold (query : string) (exact : bool) :
  query <> ""%string ->
  (exists member,
     resolveMember fetch_member fetch_query members_cache toLowerCase query exact
     = JS.Normal (Some member)
     /\ exists patternMatch,
          exec USER_MENTION query = Some patternMatch
          /\ fetch_member (groups patternMatch !! 1%nat) = JS.Fulfilled member)
  \/ resolveMember fetch_member fetch_query members_cache toLowerCase query exact
     = resolve_cached_member members_cache toLowerCase query exact.
Proof.
  intros Hquery. unfold resolveMember.
  destruct (String.eqb_spec query ""); [done |].
  destruct (exec USER_MENTION query) as [patternMatch |]; cbn [JS.bind].
  - destruct (fetch_member _) as [fetched | reason] eqn:Hfetch;
      cbn [JS.catch_void JS.await JS.bind]; [left; eauto |].
    right. by destruct (fetch_query query).
  - right. by destruct (fetch_query query).
Qed.

(** A rejection of either fetch is caught and never leaves
    [resolveMember].  The one error that does is the [TypeError] of the
    filter over the cache, when it reads [toLowerCase] on a user name or a
    display name that is [null]; with both present on every cached member
    [resolveMember] never throws.  For the empty query it returns
    [undefined]. *)
Theorem resolveMember_fetch_caught (query : string) (exact : bool) :
  (forall e,
     resolveMember fetch_member fetch_query members_cache toLowerCase query exact
     = JS.Throw e ->
     e = JS.TypeError
     /\ exists member, member ∈ members_cache
          /\ (member_username member = None \/ displayName member = None))
  /\ (Forall (fun member => is_Some (member_username member)
                            /\ is_Some (displayName member)) members_cache ->
      exists result,
        resolveMember fetch_member fetch_query members_cache toLowerCase query exact
        = JS.Normal result)
  /\ (query = ""%string ->
      resolveMember fetch_member fetch_query members_cache toLowerCase query exact
      = JS.Normal None).
Proof.
  assert (Hthrow : forall e,
            resolveMember fetch_member fetch_query members_cache toLowerCase query exact
            = JS.Throw e ->
            e = JS.TypeError
            /\ exists member, member ∈ members_cache
                 /\ (member_username member = None \/ displayName member = None)).
  { intros e Hres.
    destruct (String.eqb_spec query "") as [-> | Hquery]; [done |].
    destruct (resolveMember_unfold query exact Hquery) as [(member & Hsome & _) | Hcached].
    - congruence.
    - rewrite Hcached in Hres. by apply resolve_cached_member_Throw in Hres. }
  split; [exact Hthrow |]. split.
  - intros Hcomplete.
    destruct (resolveMember fetch_member fetch_query members_cache toLowerCase query exact)
      as [result | e] eqn:Hres; [eauto |].
    destruct (Hthrow e eq_refl) as (_ & member & Hin & Hnone).
    rewrite Forall_forall in Hcomplete.
    destruct (Hcomplete member Hin) as [[name Hname] [display Hdisplay]].
    destruct Hnone; congruence.
  - intros ->. reflexivity.
Qed.

(** A member [resolveMember] returns is the member fetched for the
    mention, or a cached member whose user name or display name includes
    the query in lower case; with [exact], the only such member. *)
Theorem resolveMember_sound (query : string) (exact : bool) (member : GuildMember) :
  resolveMember fetch_member fetch_query members_cache toLowerCase query exact
  = JS.Normal (Some member) ->
  (exists patternMatch,
     exec USER_MENTION query = Some patternMatch
     /\ fetch_member (groups patternMatch !! 1%nat) = JS.Fulfilled member)
  \/ (member ∈ members_cache
      /\ member_includes toLowerCase query member = true
      /\ (exact = true ->
          List.filter (member_includes toLowerCase query) members_cache = [member])).
Proof.
  intros Hres.
  destruct (String.eqb_spec query "") as [-> | Hquery]; [done |].
  destruct (resolveMember_unfold query exact Hquery)
    as [(fetched & Hsome & patternMatch & Hexec & Hfetch) | Hcached].
  - left. exists patternMatch. split; [done |]. congruence.
  - right. rewrite Hcached in Hres. by apply resolve_cached_member_Normal.
Qed.
End Guild.

(** *** The theorems on concrete queries *)

Lemma USER_MENTION_id_witness :
  exists id,
    groups (MatchArray 0 "<@123456789012345678>"
              {[ 1%nat := "123456789012345678"%string ]}) !! 1%nat = Some id
    /\ (17 <= String.length id <= 20)%nat
    /\ Radix16.all_chars is_digit id = true.
Proof. apply (USER_MENTION_id "<@123456789012345678>"). reflexivity. Defined.

Lemma resolveUser_sound_witness :
  "lic"%string <> ""%string
  /\ ((exists patternMatch,
         exec USER_MENTION "lic" = Some patternMatch
         /\ (fun _ : option string => @JS.Rejected User JS.Rejection)
              (groups patternMatch !! 1%nat)
            = JS.Fulfilled {| id := "1"; username := Some "Alice"%string |})
      \/ ({| id := "1"; username := Some "Alice"%string |}
            ∈ [ {| id := "1"; username := Some "Alice"%string |} ]
          /\ search_hit ascii_toLowerCase "lic" false
               {| id := "1"; username := Some "Alice"%string |}
             = true)).
Proof.
  apply (resolveUser_sound (fun _ => JS.Rejected JS.Rejection)
           [ {| id := "1"; username := Some "Alice"%string |} ] ascii_toLowerCase "lic" false).
  reflexivity.
Defined.

Lemma resolveUser_fetched_witness :
  resolveUser
    (fun _ => JS.Fulfilled {| id := "123456789012345678"; username := Some "Alice"%string |})
    [] ascii_toLowerCase "<@123456789012345678>" true
  = JS.Normal (Some {| id := "123456789012345678"; username := Some "Alice"%string |}).
Proof.
  apply (resolveUser_fetched _ [] ascii_toLowerCase "<@123456789012345678>" true
           (MatchArray 0 "<@123456789012345678>"
              {[ 1%nat := "123456789012345678"%string ]})); reflexivity.
Defined.

Lemma resolveUser_unique_name_witness :
  resolveUser (fun _ => JS.Rejected JS.Rejection)
    [ {| id := "1"; username := Some "bobby"%string |};
      {| id := "2"; username := Some "bob"%string |} ]
    ascii_toLowerCase "bob" false
  = JS.Normal (Some {| id := "2"; username := Some "bob"%string |}).
Proof.
  apply (proj1 (resolveUser_unique_name (fun _ => JS.Rejected JS.Rejection)
                  [ {| id := "1"; username := Some "bobby"%string |};
                    {| id := "2"; username := Some "bob"%string |} ]
                  ascii_toLowerCase "bob" false
                  {| id := "2"; username := Some "bob"%string |}
                  ltac:(discriminate) ltac:(vm_compute; exact I))).
  reflexivity.
Defined.

(** Both fetches rejected, and a cache whose members have their names. *)
Lemma resolveMember_fetch_caught_witness :
  exists result,
    resolveMember (fun _ => JS.Rejected JS.Rejection) (fun _ => JS.Rejected JS.Rejection)
      [ {| user := Some {| id := "1"; username := Some "joanna"%string |};
           displayName := Some "Jo"%string |} ]
      ascii_toLowerCase "<@123456789012345678>" false
    = JS.Normal result.
Proof.
  apply (proj1 (proj2 (resolveMember_fetch_caught (fun _ => JS.Rejected JS.Rejection)
                  (fun _ => JS.Rejected JS.Rejection)
                  [ {| user := Some {| id := "1"; username := Some "joanna"%string |};
                       displayName := Some "Jo"%string |} ]
                  ascii_toLowerCase "<@123456789012345678>" false))).
  repeat constructor; eauto.
Defined.

Lemma resolveMember_sound_witness :
  (exists patternMatch,
     exec USER_MENTION "ann" = Some patternMatch
     /\ (fun _ : option string => @JS.Rejected GuildMember JS.Rejection)
          (groups patternMatch !! 1%nat)
        = JS.Fulfilled {| user := Some {| id := "1"; username := Some "joanna"%string |};
                          displayName := Some "Jo"%string |})
  \/ ({| user := Some {| id := "1"; username := Some "joanna"%string |};
         displayName := Some "Jo"%string |}
        ∈ [ {| user := Some {| id := "1"; username := Some "joanna"%string |};
               displayName := Some "Jo"%string |} ]
      /\ member_includes ascii_toLowerCase "ann"
           {| user := Some {| id := "1"; username := Some "joanna"%string |};
              displayName := Some "Jo"%string |} = true
      /\ (true = true ->
          List.filter (member_includes ascii_toLowerCase "ann")
            [ {| user := Some {| id := "1"; username := Some "joanna"%string |};
                 displayName := Some "Jo"%string |} ]
          = [ {| user := Some {| id := "1"; username := Some "joanna"%string |};
                 displayName := Some "Jo"%string |} ])).
Proof.
  apply (resolveMember_sound (fun _ => JS.Rejected JS.Rejection)
           (fun _ => JS.Rejected JS.Rejection)
           [ {| user := Some {| id := "1"; username := Some "joanna"%string |};
                displayName := Some "Jo"%string |} ]
           ascii_toLowerCase "ann" true).
  reflexivity.
Defined.

(** A cached member without display name: the filter throws when the user
    name does not include the query, and not when it does. *)
Example resolveMember_examples :
  let partial := {| user := Some {| id := "1"; username := Some "joanna"%string |};
                    displayName := None |} in
  let rejected := fun _ : option string => @JS.Rejected GuildMember JS.Rejection in
  let no_query := fun _ : string => @JS.Rejected (list GuildMember) JS.Rejection in
  resolveMember rejected no_query [partial] ascii_toLowerCase "bob" false
    = JS.Throw JS.TypeError
  /\ resolveMember rejected no_query [partial] ascii_toLowerCase "ann" false
    = JS.Normal (Some partial)
  /\ resolveMember rejected no_query
       [ {| user := None; displayName := Some "Jo"%string |} ] ascii_toLowerCase "jo" true
    = JS.Throw JS.TypeError.
Proof. repeat split. Qed.

Lemma stringIsRgbColor_no_range_check_witness :
  stringIsRgbColor "999,999,999" = true
  /\ stringIsRgbColor "rgb(999,999,999)" = true.
Proof.
  apply (stringIsRgbColor_no_range_check "999" "999" "999");
    (split; [cbn; lia | reflexivity]).
Defined.

Example stringIsRgbColor_examples :
  stringIsRgbColor "rgba(1, 2, 3, 0.5)" = true
  /\ stringIsRgbColor " 1 , 2 , 3 " = true
  /\ stringIsRgbColor "RGB(1,2,3)" = true
  /\ stringIsRgbColor "rgb(1,2)" = false
  /\ stringIsRgbColor "rgb(1234,2,3)" = false
  /\ stringIsRgbColor "rgba(1,2,3,2)" = false.
Proof. repeat split. Qed.

Example validators_examples :
  stringIsUrl (utf16_of_string "see http://x") = true
  /\ stringIsUrl (utf16_of_string "http:// x") = false
  /\ stringIsUrl (utf16_of_string "http://" ++ [8195%N]) = false
  /\ stringIsUrl (utf16_of_string "http://" ++ [8364%N]) = true
  /\ urlHasImageExtension (utf16_of_string "http://a/bpng") = true
  /\ urlHasImageExtension (utf16_of_string "http://a/b.png#top") = false
  /\ urlHasImageExtension
       (utf16_of_string "http://a/" ++ [8232%N] ++ utf16_of_string "png") = false
  /\ urlHasImageExtension
       (utf16_of_string "http://a/" ++ [8364%N] ++ utf16_of_string "png") = true
  /\ stringIsCustomEmoji "ab:12345678901234567" = true
  /\ stringIsCustomEmoji "<:a:12345678901234567>" = false.
Proof. repeat split. Qed.

End ValidatorsFacts.

(** ** The bootstrap dispatch *)

Module BootstrapFacts.
Import Bootstrap.

Section Services.

Variable service : call -> JS.completion (JS.promise unit).

Lemma awaited_fulfilled (c : call) :
  fulfilled service c = true -> awaited service c = ([c], JS.Normal tt).
Proof.
  unfold fulfilled, awaited. by destruct (service c) as [[[] | reason] | e].
Qed.

Lemma awaited_failed (c : call) :
  fulfilled service c = false -> exists e, awaited service c = ([c], JS.Throw e).
Proof.
  unfold fulfilled, awaited.
  destruct (service c) as [[[] | reason] | e]; cbn [JS.bind JS.await]; [done | eauto ..].
Qed.

(** The four actions, when the calls of the action return promises that
    are fulfilled: only the action's calls are made, then the process
    exits. *)
Theorem dispatch_action (argv : list string) (a : action) :
  argv_at argv 2 = Some "commands"%string ->
  commandActions !! property_key (argv_at argv 3) = Some a ->
  Forall (fun c => fulfilled service c = true) (action_calls a argv) ->
  dispatch service argv
  = (match a with
     | view => [CommandManager_view]
     | unregister => [CommandManager_unregister]
     | delete => [CommandManager_delete (argv_at argv 4)]
     | register => [Loader_loadCommands (Some true); CommandManager_register]
     end ++ [Process_exit 0], Exited 0).
Proof.
  intros Hcommands Haction Hok. unfold dispatch, JS.get.
  rewrite bool_decide_eq_true_2, Haction by done.
  destruct a; cbn [action_calls run_action] in *;
    repeat match goal with
    | H : Forall _ (_ :: _) |- _ => apply Forall_cons in H as [? ?]
    end;
    rewrite ?awaited_fulfilled by done; cbn [and_then fst snd];
    rewrite ?awaited_fulfilled by done; reflexivity.
Qed.

(** The keys of [commandActions] are the four action names. *)
Lemma commandActions_keys (key : string) :
  is_Some (commandActions !! key)
  <-> key ∈ ["view"; "unregister"; "delete"; "register"]%string.
Proof.
  rewrite <- not_eq_None_Some. unfold commandActions.
  rewrite <- not_elem_of_list_to_map. cbn [fmap list_fmap fst].
  split; [apply dec_stable | auto].
Qed.

(** Arguments that start [initiate]: argument 2 is not 'commands', or
    argument 3 names neither an action nor a member of
    [Object.prototype]. *)
Theorem dispatch_initiate (argv : list string) :
  argv_at argv 2 <> Some "commands"%string
  \/ ((property_key (argv_at argv 3)
         ∉ ["view"; "unregister"; "delete"; "register"]%string)
      /\ (property_key (argv_at argv 3) ∉ JS.object_prototype_properties)) ->
  dispatch service argv = ((initiate service).1, Initiated).
Proof.
  unfold dispatch, JS.get. intros [Hother | [Hown Hproto]].
  - by rewrite bool_decide_eq_false_2.
  - destruct (bool_decide _); [| done].
    destruct (commandActions !! _) as [a |] eqn:Hlookup.
    + exfalso. apply Hown, commandActions_keys. eauto.
    + by rewrite bool_decide_eq_false_2.
Qed.

(** C7 on the code: with the arguments [commands toString] the lookup in
    [commandActions] finds the member [toString] that every object
    inherits; the script calls it and exits, and [initiate] is not run. *)
Theorem dispatch_inherited_member :
  dispatch service ["node"; "index.js"; "commands"; "toString"]%string
  = ([Object_prototype "toString"; Process_exit 0], Exited 0).
Proof. reflexivity. Qed.

(** When a call of the action fails, by a throw or by a rejected promise,
    the top-level [await] throws: the calls stop with the failed one,
    [process.exit] is not called, and for [register] a failed
    [loadCommands] means the commands are not registered. *)
Theorem dispatch_rejected (argv : list string) (a : action) :
  argv_at argv 2 = Some "commands"%string ->
  commandActions !! property_key (argv_at argv 3) = Some a ->
  Exists (fun c => fulfilled service c = false) (action_calls a argv) ->
  (exists e,
     dispatch service argv
     = (through_first (fun c => negb (fulfilled service c)) (action_calls a argv), Threw e))
  /\ forall code,
       Process_exit code
       ∉ through_first (fun c => negb (fulfilled service c)) (action_calls a argv).
Proof.
  intros Hcommands Haction Hfailed. unfold dispatch, JS.get.
  rewrite bool_decide_eq_true_2, Haction by done.
  assert (Hone : forall c, fulfilled service c = false ->
            exists e, invoke_then_exit (awaited service c) = ([c], Threw e)).
  { intros c Hc. destruct (awaited_failed c Hc) as [e ->]. eauto. }
  split.
  - destruct a; cbn [action_calls through_first run_action] in *.
    1-3: apply Exists_cons in Hfailed as [Hc | Hnil]; [| by apply Exists_nil in Hnil];
         rewrite Hc; cbn [negb]; by apply Hone.
    destruct (fulfilled service (Loader_loadCommands (Some true))) eqn:Hload; cbn [negb].
    + rewrite (awaited_fulfilled _ Hload). cbn [and_then fst snd app].
      apply Exists_cons in Hfailed as [Hc | Hfailed]; [congruence |].
      apply Exists_cons in Hfailed as [Hc | Hnil]; [| by apply Exists_nil in Hnil].
      rewrite Hc. cbn [negb]. destruct (awaited_failed _ Hc) as [e ->]. eauto.
    + destruct (awaited_failed _ Hload) as [e ->]. cbn [and_then invoke_then_exit]. eauto.
  - intros code Hin. destruct a; cbn [action_calls through_first] in Hin;
      repeat match type of Hin with
      | context [if ?b then _ else _] => destruct b
      end;
      repeat (apply elem_of_cons in Hin as [Hin | Hin]; [discriminate Hin |]);
      by apply elem_of_nil in Hin.
Qed.



(** When the logger fails on the first rejection it is given, [initiate]
    ends there: the steps after it are not taken. *)
Lemma initiate_logger_fails :
  rejected service (Loader_loadCommands None) = true ->
  fulfilled service (Logger_error "Error while loading commands") = false ->
  (initiate service).1
  = [Loader_loadCommands None; Logger_error "Error while loading commands"].
Proof.
  unfold rejected, fulfilled, initiate, logged.
  destruct (service (Loader_loadCommands None)) as [[[] | ?] | ?]; [done | | done].
  intros _.
  by destruct (service (Logger_error "Error while loading commands")) as [[[] | ?] | ?].
Qed.

End Services.

Lemma dispatch_action_witness :
  dispatch (fun _ => JS.Normal (JS.Fulfilled tt))
    ["node"; "index.js"; "commands"; "delete"; "ping"]%string
  = ([CommandManager_delete (Some "ping"%string)] ++ [Process_exit 0], Exited 0).
Proof.
  apply (dispatch_action (fun _ => JS.Normal (JS.Fulfilled tt))
           ["node"; "index.js"; "commands"; "delete"; "ping"]%string delete);
    [reflexivity | reflexivity | repeat constructor].
Defined.

Lemma dispatch_initiate_witness :
  dispatch (fun _ => JS.Normal (JS.Fulfilled tt)) ["node"; "index.js"; "commands"; "list"]%string
  = ((initiate (fun _ => JS.Normal (JS.Fulfilled tt))).1, Initiated).
Proof.
  apply (dispatch_initiate (fun _ => JS.Normal (JS.Fulfilled tt))
           ["node"; "index.js"; "commands"; "list"]%string).
  right. split; compute_done.
Defined.

(** [register] when [loadCommands] throws before it returns a promise. *)
Lemma dispatch_rejected_witness :
  (exists e,
     dispatch (fun _ => JS.Throw JS.TypeError)
       ["node"; "index.js"; "commands"; "register"]%string
     = (through_first (fun c => negb (fulfilled (fun _ => JS.Throw JS.TypeError) c))
          (action_calls register ["node"; "index.js"; "commands"; "register"]%string),
        Threw e))
  /\ forall code,
       Process_exit code
       ∉ through_first (fun c => negb (fulfilled (fun _ => JS.Throw JS.TypeError) c))
           (action_calls register ["node"; "index.js"; "commands"; "register"]%string).
Proof.
  apply (dispatch_rejected (fun _ => JS.Throw JS.TypeError)
           ["node"; "index.js"; "commands"; "register"]%string register).
  - reflexivity.
  - reflexivity.
  - apply Exists_cons_hd. reflexivity.
Defined.


Example dispatch_examples :
  let ok := fun _ : call => JS.Normal (JS.Fulfilled tt) in
  let rejecting := fun c : call =>
    if is_log c then JS.Normal (JS.Fulfilled tt)
    else @JS.Normal (JS.promise unit) (JS.Rejected JS.Rejection) in
  let throwing := fun _ : call => @JS.Throw (JS.promise unit) JS.TypeError in
  let failing := fun _ : call => @JS.Normal (JS.promise unit) (JS.Rejected JS.Rejection) in
  dispatch ok ["node"; "index.js"; "commands"; "view"]%string
    = ([CommandManager_view; Process_exit 0], Exited 0)
  /\ dispatch ok ["node"; "index.js"; "commands"; "delete"; "ping"]%string
    = ([CommandManager_delete (Some "ping"%string); Process_exit 0], Exited 0)
  /\ dispatch ok ["node"; "index.js"; "commands"; "register"]%string
    = ([Loader_loadCommands (Some true); CommandManager_register; Process_exit 0],
       Exited 0)
  /\ dispatch ok ["node"; "index.js"; "commands"; "list"]%string
    = ([Loader_loadCommands None; Loader_loadEvents; Database_initiate; Loader_login],
       Initiated)
  /\ dispatch ok ["node"; "index.js"]%string
    = ([Loader_loadCommands None; Loader_loadEvents; Database_initiate; Loader_login],
       Initiated)
  /\ dispatch ok ["node"; "index.js"; "commands"; "constructor"]%string
    = ([Object_prototype "constructor"; Process_exit 0], Exited 0)
  /\ dispatch rejecting ["node"; "index.js"; "commands"; "delete"]%string
    = ([CommandManager_delete None], Threw JS.Rejection)
  /\ dispatch throwing ["node"; "index.js"; "commands"; "view"]%string
    = ([CommandManager_view], Threw JS.TypeError)
  /\ dispatch rejecting ["node"; "index.js"]%string
    = ([Loader_loadCommands None; Logger_error "Error while loading commands";
        Loader_loadEvents; Logger_error "Error while loading events";
        Database_initiate; Logger_error "Error while initializing database";
        Loader_login; Logger_error "Error while logging in bot"], Initiated)
  /\ dispatch throwing ["node"; "index.js"]%string
    = ([Loader_loadCommands None], Initiated)
  /\ dispatch failing ["node"; "index.js"]%string
    = ([Loader_loadCommands None; Logger_error "Error while loading commands"], Initiated).
Proof. repeat split. Qed.

End BootstrapFacts.
